(* ===================================================================== *)
(* surface_dynamics / interval_exchanges / cover.py                       *)
(* A shallow embedding of the class PermutationCover and the properties   *)
(* of its methods.                                                        *)
(*                                                                        *)
(* Python lists are seq, Python ints are nat where they are indices or    *)
(* copies and Z where they can be negative; every operation that can      *)
(* raise returns in the monad [res]; the `while` loops take fuel.         *)
(* ===================================================================== *)

From HB Require Import structures.
From Stdlib Require Import ZArith Lia.
From mathcomp Require Import boot.
From mathcomp Require Import fingroup perm.

Set Implicit Arguments.
Unset Strict Implicit.
Unset Printing Implicit Defensive.

(* --------------------------------------------------------------------- *)
(* Exceptions and the result monad                                        *)
(* --------------------------------------------------------------------- *)

Inductive exn : Type :=
  | IndexError
  | ValueError
  | KeyError
  | ZeroDivisionError
  | AssertionError.

(* [Diverge] is the answer of a loop whose fuel ran out. *)
Inductive res (A : Type) : Type :=
  | Ok of A
  | Raise of exn
  | Diverge.

Arguments Raise {A} _.
Arguments Diverge {A}.

Definition bind {A B : Type} (m : res A) (k : A -> res B) : res B :=
  match m with
  | Ok a => k a
  | Raise e => Raise e
  | Diverge => Diverge
  end.

Declare Scope res_scope.
Delimit Scope res_scope with res.
Notation "x <-- m ;; k" := (bind m (fun x => k))
  (at level 61, m at next level, right associativity) : res_scope.
Notation "' p <-- m ;; k" := (bind m (fun p => k))
  (at level 61, p pattern, m at next level, right associativity) : res_scope.
Local Open Scope res_scope.

Definition is_ok {A : Type} (m : res A) : bool :=
  if m is Ok _ then true else false.

(* --------------------------------------------------------------------- *)
(* Python list and set primitives                                         *)
(* --------------------------------------------------------------------- *)

Section PyList.
Variable A : Type.

(* s[i] for an index that is not negative *)
Definition getitem (s : seq A) (i : nat) : res A :=
  if drop i s is x :: _ then Ok x else Raise IndexError.

(* s[z] for an int z: a negative index counts from the end *)
Definition getitemZ (s : seq A) (z : Z) : res A :=
  if (0 <=? z)%Z then getitem s (Z.to_nat z)
  else if (- Z.of_nat (size s) <=? z)%Z then
    getitem s (Z.to_nat (Z.of_nat (size s) + z))
  else Raise IndexError.

(* s[i] = x *)
Definition setitem (s : seq A) (i : nat) (x : A) : res (seq A) :=
  if i < size s then Ok (take i s ++ x :: drop i.+1 s) else Raise IndexError.

End PyList.

Section PyEq.
Variable A : eqType.

(* s.index(x) *)
Definition py_index (s : seq A) (x : A) : res nat :=
  if x \in s then Ok (index x s) else Raise ValueError.

(* S.remove(x) on a set held as a duplicate-free sequence *)
Definition set_remove (s : seq A) (x : A) : res (seq A) :=
  if x \in s then Ok (rem x s) else Raise KeyError.

End PyEq.

(* --------------------------------------------------------------------- *)
(* The base permutation, as the cover consumes it                         *)
(* --------------------------------------------------------------------- *)

Section Cover.
Variable label : eqType.

(* An entry of base.interval_diagram(glue_ends=True, sign=True): a signed
   label, or a tuple of signed labels (the glued ends). *)
Inductive glued : Type :=
  | Single of label * bool
  | Tuple of seq (label * bool).

Definition glued_code (x : glued) : (label * bool) + seq (label * bool) :=
  match x with Single y => inl y | Tuple ys => inr ys end.

Definition glued_decode (c : (label * bool) + seq (label * bool)) : glued :=
  match c with inl y => Single y | inr ys => Tuple ys end.

Lemma glued_codeK : cancel glued_code glued_decode.
Proof. by case. Qed.

HB.instance Definition _ := Equality.copy glued (can_type glued_codeK).

(* base._twin[i][j]: an int for an interval exchange, a pair otherwise. *)
Inductive twin_ref : Type :=
  | TwinInt of nat
  | TwinPair of nat * nat.

Record BasePermutation : Type := mkBase {
  alphabet : seq label;                  (* alphabet(); rank = position *)
  rows : seq (seq label);                (* base[0], base[1] *)
  base_len : nat;                        (* len(base) *)
  is_irreducible : bool;                 (* base.is_irreducible() *)
  isinstance_PermutationIET : bool;      (* isinstance(base, PermutationIET) *)
  diagram : seq (seq (label * bool));    (* interval_diagram(glue_ends=False, sign=True) *)
  diagram_glued : seq (seq glued);       (* interval_diagram(sign=True, glue_ends=True) *)
  twin_to_index : seq (seq bool);        (* _twins_and_orientation()[1] *)
  _twin : seq (seq twin_ref)             (* base._twin *)
}.

(* alphabet.rank(label) *)
Definition rank (b : BasePermutation) (a : label) : res nat :=
  py_index (alphabet b) a.

Record PermutationCover : Type := mkCover {
  _base : BasePermutation;
  _degree_cover : nat;
  _permut_cover : seq (seq nat)
}.

(* __init__ *)
Definition init (base : BasePermutation) (degree : nat) (permut : seq (seq nat))
  : res PermutationCover :=
  if ~~ is_irreducible base then Raise ValueError
  else Ok (mkCover base degree permut).

(* __len__ *)
Definition len (self : PermutationCover) : nat := base_len (_base self).

(* covering_data(label, list=True) *)
Definition covering_data (self : PermutationCover) (a : label) : res (seq nat) :=
  r <-- rank (_base self) a ;; getitem (_permut_cover self) r.

(* rel_homology_generator *)
Definition rel_homology_generator (self : PermutationCover) : seq (nat * label) :=
  [seq (d, a) | d <- iota 0 (_degree_cover self), a <- alphabet (_base self)].

(* rel_homology_index *)
Definition rel_homology_index (self : PermutationCover) (d : nat) (a : label)
  : res nat :=
  let n := size (alphabet (_base self)) in
  r <-- rank (_base self) a ;; Ok (d * n + r).

(* ------------------------------------------------------------------- *)
(* interval_diagram                                                     *)
(* ------------------------------------------------------------------- *)

(* (label, j, d) if sign else (label, d) *)
Inductive entry : Type :=
  | Signed of label & bool & nat
  | Unsigned of label & nat.

Definition mk_entry (sign : bool) (a : label) (j : bool) (d : nat) : entry :=
  if sign then Signed a j d else Unsigned a d.

Definition entry_code (e : entry) : (label * bool * nat) + (label * nat) :=
  match e with
  | Signed a j d => inl (a, j, d)
  | Unsigned a d => inr (a, d)
  end.

Definition entry_decode (c : (label * bool * nat) + (label * nat)) : entry :=
  match c with
  | inl (a, j, d) => Signed a j d
  | inr (a, d) => Unsigned a d
  end.

Lemma entry_codeK : cancel entry_code entry_decode.
Proof. by case. Qed.

HB.instance Definition _ := Equality.copy entry (can_type entry_codeK).

(* d = perm(label).index(d) if j else perm(label)[d] *)
Definition cross (self : PermutationCover) (x : label * bool) (d : nat) : res nat :=
  p <-- covering_data self x.1 ;;
  if x.2 then py_index p d else getitem p d.

(* for base_singularity in orbit: ... *)
Fixpoint one_pass (self : PermutationCover) (sign : bool)
    (orbit : seq (label * bool)) (d : nat) (singularity : seq entry)
  : res (nat * seq entry) :=
  if orbit is x :: orbit' then
    d' <-- cross self x d ;;
    one_pass self sign orbit' d' (rcons singularity (mk_entry sign x.1 x.2 d))
  else Ok (d, singularity).

(* while True: <one pass>; if d == d_init: break; else: cover_copies.remove(d) *)
Fixpoint follow (fuel : nat) (self : PermutationCover) (sign : bool)
    (orbit : seq (label * bool)) (d_init d : nat)
    (singularity : seq entry) (cover_copies : seq nat)
  : res (seq entry * seq nat) :=
  if fuel is fuel'.+1 then
    '(d', singularity') <-- one_pass self sign orbit d singularity ;;
    if d' == d_init then Ok (singularity', cover_copies)
    else
      cover_copies' <-- set_remove cover_copies d' ;;
      follow fuel' self sign orbit d_init d' singularity' cover_copies'
  else Diverge.

(* set.pop() removes and returns an element of the set that the language
   does not specify: [pop] is that choice. *)
Variable pop : seq nat -> nat.

(* while cover_copies: ...
   Every pass of the inner loop that does not break removes a copy from
   cover_copies, so size cover_copies + 1 passes are enough fuel for it. *)
Fixpoint lift_orbit (fuel : nat) (self : PermutationCover) (sign : bool)
    (orbit : seq (label * bool)) (cover_copies : seq nat)
    (singularities : seq (seq entry))
  : res (seq (seq entry)) :=
  if cover_copies is [::] then Ok singularities
  else if fuel is fuel'.+1 then
    let d_init := pop cover_copies in
    let cover_copies0 := rem d_init cover_copies in
    '(singularity, cover_copies') <--
       follow (size cover_copies0).+1 self sign orbit d_init d_init [::]
              cover_copies0 ;;
    lift_orbit fuel' self sign orbit cover_copies' (rcons singularities singularity)
  else Diverge.

(* for orbit in base_diagram: ...
   Every turn of `while cover_copies` pops a copy, so the degree is enough
   fuel for it. *)
Fixpoint lift_orbits (self : PermutationCover) (sign : bool)
    (base_diagram : seq (seq (label * bool))) (singularities : seq (seq entry))
  : res (seq (seq entry)) :=
  if base_diagram is orbit :: base_diagram' then
    _ <-- getitem orbit 0 ;;                       (* init_label = orbit[0][0] *)
    singularities' <--
      lift_orbit (_degree_cover self) self sign orbit
                 (iota 0 (_degree_cover self)) singularities ;;
    lift_orbits self sign base_diagram' singularities'
  else Ok singularities.

Definition interval_diagram (self : PermutationCover)
    (glue_ends sign : bool) : res (seq (seq entry)) :=
  lift_orbits self sign (diagram (_base self)) [::].

(* ------------------------------------------------------------------- *)
(* homology_boundary_matrix                                             *)
(* ------------------------------------------------------------------- *)

(* for j in xrange(len(p[i])): ... on the row p[i] = [row] *)
Fixpoint boundary_row (self : PermutationCover) (d i : nat) (row : seq label)
    (j : nat) (border : seq Z) : res (seq Z) :=
  if row is a :: row' then
    ti <-- getitem (twin_to_index (_base self)) i ;;
    t <-- getitem ti j ;;
    border' <--
      (if t then
         k <-- rel_homology_index self d a ;; setitem border k 1%Z
       else
         perm_cover <-- covering_data self a ;;
         d' <-- getitem perm_cover d ;;
         k <-- rel_homology_index self d' a ;; setitem border k (-1)%Z) ;;
    boundary_row self d i row' j.+1 border'
  else Ok border.

(* the body of `for d in xrange(self._degree_cover)` *)
Definition boundary_of_copy (self : PermutationCover) (d : nat) : res (seq Z) :=
  let border := nseq (size (rel_homology_generator self)) 0%Z in
  p0 <-- getitem (rows (_base self)) 0 ;;
  border0 <-- boundary_row self d 0 p0 0 border ;;
  p1 <-- getitem (rows (_base self)) 1 ;;
  boundary_row self d 1 p1 0 border0.

Fixpoint mapM (A B : Type) (f : A -> res B) (s : seq A) : res (seq B) :=
  if s is x :: s' then
    y <-- f x ;; ys <-- mapM f s' ;; Ok (y :: ys)
  else Ok [::].

Definition homology_boundary_matrix (self : PermutationCover) : res (seq (seq Z)) :=
  mapM (boundary_of_copy self) (iota 0 (_degree_cover self)).

(* ------------------------------------------------------------------- *)
(* homology_cycle_matrix                                                *)
(* ------------------------------------------------------------------- *)

(* i = 0; while i < nb_sing and not any(e == sing for sing in singularities[i]): i += 1 *)
Definition first_containing (singularities : seq (seq entry)) (e : entry) : nat :=
  find (fun singularity => e \in singularity) singularities.

(* the body of `for a in self._base.alphabet()` *)
Definition border_side_of (singularities : seq (seq entry)) (d : nat) (a : label)
  : res (seq Z) :=
  let nb_sing := size singularities in
  let border_side := nseq nb_sing 0%Z in
  let i := first_containing singularities (Signed a false d) in
  border_side1 <-- setitem border_side i 1%Z ;;
  let j := first_containing singularities (Signed a true d) in
  border_side2 <-- setitem border_side1 j (-1)%Z ;;
  if (i == j) && (i < nb_sing) then setitem border_side2 j 0%Z
  else Ok border_side2.

(* the matrix `borders`, before the kernel is taken *)
Definition cycle_borders (self : PermutationCover) : res (seq (seq Z)) :=
  singularities <-- interval_diagram self false true ;;
  mapM (fun da : nat * label => border_side_of singularities da.1 da.2)
       [seq (d, a) | d <- iota 0 (_degree_cover self), a <- alphabet (_base self)].

(* Matrix(borders).left_kernel().matrix() is computed by Sage: [left_kernel]
   is that function on integer matrices. *)
Variable left_kernel : seq (seq Z) -> seq (seq Z).

Definition homology_cycle_matrix (self : PermutationCover) : res (seq (seq Z)) :=
  borders <-- cycle_borders self ;; Ok (left_kernel borders).

(* ------------------------------------------------------------------- *)
(* Sage permutations, held as 0-based one-line lists                    *)
(* ------------------------------------------------------------------- *)

(* Permutation([i+1 for i in perm]) checks that it is given a permutation *)
Definition Permutation (p : seq nat) : res (seq nat) :=
  if perm_eq p (iota 0 (size p)) then Ok p else Raise ValueError.

(* Permutations(n).identity() *)
Definition identity (n : nat) : seq nat := iota 0 n.

(* q.inverse() *)
Definition inverse (q : seq nat) : seq nat :=
  [seq index i q | i <- iota 0 (size q)].

(* p(i); a point beyond the size of p is fixed *)
Definition image (p : seq nat) (i : nat) : nat := nth i p i.

(* p * q : first p, then q *)
Definition perm_mul (p q : seq nat) : seq nat :=
  [seq image q (image p i) | i <- iota 0 (maxn (size p) (size q))].

(* the length of the cycle of i, and whether i is the least point of it *)
Definition cycle_length (p : seq nat) (i : nat) : nat :=
  (index i (traject (image p) (image p i) (size p))).+1.

Definition is_cycle_min (p : seq nat) (i : nat) : bool :=
  all (leq i) (traject (image p) i (size p)).

(* p.cycle_type(): the lengths of the cycles, in decreasing order *)
Definition cycle_type (p : seq nat) : seq nat :=
  sort geq [seq cycle_length p i | i <- iota 0 (size p) & is_cycle_min p i].

(* ------------------------------------------------------------------- *)
(* profile                                                              *)
(* ------------------------------------------------------------------- *)

(* flat_orbit *)
Definition flatten_orbit (orbit : seq glued) : seq (label * bool) :=
  flatten [seq (match x with Single y => [:: y] | Tuple ys => ys end) | x <- orbit].

(* for lab, sign in flat_orbit: q = covering_data(lab); if sign: q = q.inverse(); p = p*q *)
Fixpoint orbit_monodromy (self : PermutationCover) (flat_orbit : seq (label * bool))
    (p : seq nat) : res (seq nat) :=
  if flat_orbit is (lab, sign) :: flat_orbit' then
    l <-- covering_data self lab ;;
    q <-- Permutation l ;;
    let q' := if sign then inverse q else q in
    orbit_monodromy self flat_orbit' (perm_mul p q')
  else Ok p.

(* the entries that one orbit of the base appends to s *)
Definition profile_of_orbit (self : PermutationCover) (orbit : seq glued)
  : res (seq nat) :=
  p <-- orbit_monodromy self (flatten_orbit orbit) (identity (_degree_cover self)) ;;
  Ok [seq size orbit * c | c <- cycle_type p].

(* Partition(sorted(s, reverse=True)); a partition drops its zeros *)
Definition Partition (s : seq nat) : seq nat := [seq x <- s | x != 0].

Definition profile (self : PermutationCover) : res (seq nat) :=
  ss <-- mapM (profile_of_orbit self) (diagram_glued (_base self)) ;;
  Ok (Partition (sort geq (flatten ss))).

(* ------------------------------------------------------------------- *)
(* is_orientable, stratum, genus                                        *)
(* ------------------------------------------------------------------- *)

(* set(map(A.rank, self._base[i])) *)
Definition rank_set (self : PermutationCover) (i : nat) : res (seq nat) :=
  row <-- getitem (rows (_base self)) i ;;
  ranks <-- mapM (rank (_base self)) row ;;
  Ok (undup ranks).

(* p0.symmetric_difference(p1), listed in increasing order *)
Definition inv_letters (self : PermutationCover) : res (seq nat) :=
  p0 <-- rank_set self 0 ;;
  p1 <-- rank_set self 1 ;;
  Ok (sort leq [seq r <- undup (p0 ++ p1) | (r \in p0) (+) (r \in p1)]).

(* for j in inv_letters: ...   The sign +1 is [true], -1 is [false]; the
   answer None stands for `return False`.  The list todo is a stack whose
   top is its head. *)
Fixpoint propagate (self : PermutationCover) (i : nat) (s : bool)
    (letters : seq nat) (signs : seq (option bool)) (todo : seq nat)
  : res (option (seq (option bool) * seq nat)) :=
  if letters is j :: letters' then
    pj <-- getitem (_permut_cover self) j ;;
    ii <-- getitem pj i ;;
    sii <-- getitem signs ii ;;
    match sii with
    | None =>
        signs' <-- setitem signs ii (Some (~~ s)) ;;
        propagate self i s letters' signs' (ii :: todo)
    | Some s' =>
        if s' != ~~ s then Ok None
        else propagate self i s letters' signs todo
    end
  else Ok (Some (signs, todo)).

(* while todo: ...   A copy is pushed only when its sign is set, so
   size signs + 1 turns are enough fuel. *)
Fixpoint unfold_holonomy (fuel : nat) (self : PermutationCover)
    (letters : seq nat) (signs : seq (option bool)) (todo : seq nat)
  : res bool :=
  if todo is i :: todo' then
    if fuel is fuel'.+1 then
      si <-- getitem signs i ;;
      if si is Some s then
        r <-- propagate self i s letters signs todo' ;;
        if r is Some (signs', todo'') then
          unfold_holonomy fuel' self letters signs' todo''
        else Ok false
      else Raise AssertionError
    else Diverge
  else Ok true.

Definition is_orientable (self : PermutationCover) : res bool :=
  if isinstance_PermutationIET (_base self) then Ok true
  else
    p <-- profile self ;;
    if has odd p then Ok false
    else
      let signs := Some true :: nseq (_degree_cover self).-1 None in
      let todo := [:: 0] in
      letters <-- inv_letters self ;;
      unfold_holonomy (size signs).+1 self letters signs todo.

(* the stratum: AbelianStratum(...) or QuadraticStratum(...) *)
Inductive stratum_descr : Type :=
  | AbelianStratum of seq Z
  | QuadraticStratum of seq Z.

Definition stratum (self : PermutationCover) : res stratum_descr :=
  o <-- is_orientable self ;;
  p <-- profile self ;;
  if o then Ok (AbelianStratum [seq ((Z.of_nat x - 2) / 2)%Z | x <- p])
  else Ok (QuadraticStratum [seq (Z.of_nat x - 2)%Z | x <- p]).

(* Integer((sum(p)-2*len(p))/4+1).  The entries of the profile are Python
   ints, so `/` is the division that rounds down; it is exact when the
   numerator is a multiple of 4. *)
Definition genus (self : PermutationCover) : res Z :=
  p <-- profile self ;;
  Ok ((Z.of_nat (sumn p) - 2 * Z.of_nat (size p)) / 4 + 1)%Z.

(* ------------------------------------------------------------------- *)
(* automorphism_group                                                   *)
(* ------------------------------------------------------------------- *)

(* g commutes with the monodromy p: g(p(i)) = p(g(i)) for every copy *)
Definition commutes (d : nat) (g p : seq nat) : bool :=
  all (fun i => image g (image p i) == image p (image g i)) (iota 0 d).

(* Centralizer(SymmetricGroup(degree), Group(perm)), as the list of its
   elements, each one a 0-based one-line list *)
Definition automorphism_group (self : PermutationCover) : seq (seq nat) :=
  [seq g <- permutations (iota 0 (_degree_cover self))
        | all (commutes (_degree_cover self) g) (_permut_cover self)].

End Cover.

(* --------------------------------------------------------------------- *)
(* Exact numbers and the group-theory provider                            *)
(* --------------------------------------------------------------------- *)

(* The arithmetic of the universal cyclotomic field that the class uses. *)
Record exact_field : Type := ExactField {
  UCF :> eqType;
  zero : UCF;
  add : UCF -> UCF -> UCF;
  mul : UCF -> UCF -> UCF;
  conjugate : UCF -> UCF;
  is_real : UCF -> bool;
  of_int : Z -> UCF;                     (* the coercion of an integer *)
  quotient : nat -> nat -> UCF           (* deg / order, for order > 0 *)
}.

(* What libgap answers for the automorphism group G. *)
Record libgap_data (K : Type) : Type := LibGap {
  Order : nat;                           (* libgap.Order(G) *)
  Irr : seq (seq K);                     (* libgap.Irr(CharacterTable(G)) *)
  Degree : seq nat;                      (* libgap.Degree(Irr[i]), by i *)
  Elements : seq (seq nat)               (* ListPerm(Elements(G)[i], degree), images in 1..degree *)
}.

Fixpoint foldM (A S : Type) (f : S -> A -> res S) (s : S) (l : seq A) : res S :=
  if l is x :: l' then s' <-- f s x ;; foldM f s' l' else Ok s.

Section Characters.
Variable K : exact_field.

(* set.pop() on the set of characters *)
Variable pop_char : seq (seq K) -> seq K.

(* while character_set: ...  Every turn pops a character, so
   size character_set turns are enough fuel.  The counter i is kept as the
   source keeps it. *)
Fixpoint extract_real (fuel : nat) (n_characters : nat)
    (character_set : seq (seq K)) (real_character_table : seq (seq K)) (i : nat)
  : res (seq (seq K) * nat) :=
  if character_set is [::] then Ok (real_character_table, i)
  else if fuel is fuel'.+1 then
    let chi := pop_char character_set in
    let character_set0 := rem chi character_set in
    if has (fun x => ~~ is_real x) chi then
      character_set1 <-- set_remove character_set0 (map (@conjugate K) chi) ;;
      merged <-- mapM (fun j => x <-- getitem chi j ;; Ok (add x (conjugate x)))
                      (iota 0 n_characters) ;;
      extract_real fuel' n_characters character_set1
                   (rcons real_character_table merged) i.+2
    else
      extract_real fuel' n_characters character_set0
                   (rcons real_character_table chi) i.+1
  else Diverge.

Definition characters_result : Type :=
  (seq (seq K) * seq nat * nat * seq (seq nat) * nat)%type.

Definition _characters (gap : libgap_data K) : res characters_result :=
  let G_order := Order gap in
  let irr_characters := Irr gap in
  let n_characters := size irr_characters in
  tuples <-- mapM (fun i => chi <-- getitem irr_characters i ;;
                            mapM (getitem chi) (iota 0 G_order))
                  (iota 0 n_characters) ;;
  let character_set := undup tuples in
  character_degree <-- mapM (getitem (Degree gap)) (iota 0 n_characters) ;;
  perm <-- mapM (getitem (Elements gap)) (iota 0 G_order) ;;
  '(real_character_table, _) <--
     extract_real (size character_set) n_characters character_set [::] 0 ;;
  let n_real_characters := size real_character_table in
  Ok (real_character_table, character_degree, G_order,
      [seq [seq i.-1 | i <- x] | x <- perm], n_real_characters).

Definition character_table (gap : libgap_data K) : res (seq (seq K)) :=
  c <-- _characters gap ;; Ok c.1.1.1.1.

Definition character_degree (gap : libgap_data K) : res (seq nat) :=
  c <-- _characters gap ;; Ok c.1.1.1.2.

Definition automorphism_group_order (gap : libgap_data K) : res nat :=
  c <-- _characters gap ;; Ok c.1.1.2.

Definition automorphism_group_permutation (gap : libgap_data K)
  : res (seq (seq nat)) :=
  c <-- _characters gap ;; Ok c.1.2.

Definition n_characters (gap : libgap_data K) : res nat :=
  c <-- _characters gap ;; Ok c.2.

(* ------------------------------------------------------------------- *)
(* isotypic_projection_matrix                                           *)
(* ------------------------------------------------------------------- *)

Variable label : eqType.

(* res[i][j] += x *)
Definition add_entry (m : seq (seq K)) (i j : nat) (x : K) : res (seq (seq K)) :=
  row <-- getitem m i ;;
  y <-- getitem row j ;;
  row' <-- setitem row j (add y x) ;;
  setitem m i row'.

(* the body of `for t in range(self.automorphism_group_order())` *)
Definition projection_step (self : PermutationCover label) (gap : libgap_data K)
    (char : seq K) (coeff : K) (da : nat * label)
    (m : seq (seq K)) (t : nat) : res (seq (seq K)) :=
  let alphabet_size := size (alphabet (_base self)) in
  r <-- rank (_base self) da.2 ;;
  let i := da.1 * alphabet_size + r in
  perms <-- automorphism_group_permutation gap ;;
  pt <-- getitem perms t ;;
  v <-- getitemZ pt (Z.of_nat da.1 - 1) ;;
  let j := v * alphabet_size + r in
  c <-- getitem char t ;;
  add_entry m i j (mul coeff c).

Definition isotypic_projection_matrix (self : PermutationCover label)
    (gap : libgap_data K) (i_character : nat) : res (seq (seq K)) :=
  let gen := rel_homology_generator self in
  let res0 := nseq (size gen) (nseq (size gen) (zero K)) in
  table <-- character_table gap ;;
  char <-- getitem table i_character ;;
  degrees <-- character_degree gap ;;
  deg <-- getitem degrees i_character ;;
  order <-- automorphism_group_order gap ;;
  coeff <-- (if order == 0 then Raise ZeroDivisionError
             else Ok (quotient K deg order)) ;;
  foldM (fun m da => foldM (projection_step self gap char coeff da) m (iota 0 order))
        res0 gen.

End Characters.

(* --------------------------------------------------------------------- *)
(* Sage matrices, held as lists of rows                                   *)
(* --------------------------------------------------------------------- *)

Section Matrices.
Variable K : exact_field.

Definition dot (u v : seq K) : K :=
  foldr (@add K) (zero K) [seq mul xy.1 xy.2 | xy <- zip u v].

Definition column (m : seq (seq K)) (j : nat) : seq K :=
  [seq nth (zero K) row j | row <- m].

(* A * B *)
Definition mx_mul (a b : seq (seq K)) : seq (seq K) :=
  [seq [seq dot row (column b j) | j <- iota 0 (size (head [::] b))] | row <- a].

(* A + B *)
Definition mx_add (a b : seq (seq K)) : seq (seq K) :=
  [seq [seq add xy.1 xy.2 | xy <- zip rs.1 rs.2] | rs <- zip a b].

(* the n x n zero matrix and identity_matrix(n) *)
Definition mx_zero (n : nat) : seq (seq K) := nseq n (nseq n (zero K)).

Definition identity_matrix (n : nat) : seq (seq K) :=
  [seq [seq (if i == j then of_int K 1 else zero K) | j <- iota 0 n] | i <- iota 0 n].

(* the coercion of an integer matrix *)
Definition mx_of_int (m : seq (seq Z)) : seq (seq K) :=
  [seq [seq of_int K x | x <- row] | row <- m].

End Matrices.

(* --------------------------------------------------------------------- *)
(* lyapunov_exponents_H_plus, up to the call of the numeric engine        *)
(* --------------------------------------------------------------------- *)

Section Lyapunov.
Variable K : exact_field.
Variable label : eqType.
Variable pop : seq nat -> nat.
Variable pop_char : seq (seq K) -> seq K.
Variable left_kernel : seq (seq Z) -> seq (seq Z).
Variable mx_rank : seq (seq K) -> nat.            (* Matrix.rank() *)
Variable float : Type.
Variable real_float : K -> float.                 (* float(real(CC(x))) *)

(* the arguments of lyapunov_exponents.lyapunov_exponents_H_plus_cover *)
Record engine_arguments : Type := EngineArguments {
  arg_gp : seq nat;
  arg_k : nat;
  arg_twin : seq nat;
  arg_sigma : seq nat;
  arg_nb_experiments : Z;
  arg_nb_iterations : Z;
  arg_dimensions : seq Z;
  arg_projections : option (seq (nat + float));
  arg_lengths : option (seq Z);
  arg_verbose : bool
}.

(* `return []` before the engine is called, or the call of the engine *)
Inductive lyapunov_outcome : Type :=
  | ReturnEmpty
  | CallEngine of engine_arguments.

(* convert((i,j)) *)
Definition convert (k : nat) (ij : nat * nat) : nat := ij.2 + ij.1 * k.

(* for j in range(len(self[i])): ... *)
Fixpoint encode_row (self : PermutationCover label) (k i : nat) (row : seq label)
    (j : nat) (gp twin : seq nat) : res (seq nat * seq nat) :=
  if row is a :: row' then
    r <-- rank (_base self) a ;;
    gp' <-- setitem gp (convert k (i, j)) r ;;
    ti <-- getitem (_twin (_base self)) i ;;
    t <-- getitem ti j ;;
    twin' <-- setitem twin (convert k (i, j))
                (match t with
                 | TwinInt j' => convert k (1 - i, j')
                 | TwinPair ij' => convert k ij'
                 end) ;;
    encode_row self k i row' j.+1 gp' twin'
  else Ok (gp, twin).

(* the body of `for i_char in xrange(self.n_characters())` *)
Definition isotypic_step (self : PermutationCover label) (gap : libgap_data K)
    (size_of_matrix : nat) (st : seq Z * seq (nat + float)) (i_char : nat)
  : res (seq Z * seq (nat + float)) :=
  let: (dimensions, projections) := st in
  M <-- isotypic_projection_matrix pop_char self gap i_char ;;
  H <-- homology_cycle_matrix pop left_kernel self ;;
  B <-- homology_boundary_matrix self ;;
  let dimension :=
    (Z.of_nat (mx_rank (mx_mul (mx_of_int K H) M))
     - Z.of_nat (mx_rank (mx_mul (mx_of_int K B) M)))%Z in
  if ~~ (dimension mod 2 =? 0)%Z then Raise AssertionError
  else
    dimensions' <-- setitem dimensions i_char (dimension / 2)%Z ;;
    projections' <--
      foldM (fun pr i =>
        foldM (fun pr' j =>
          Mj <-- getitem M j ;;
          Mji <-- getitem Mj i ;;
          setitem pr' (i_char * size_of_matrix ^ 2 + i * size_of_matrix + j)
                  (inr (real_float Mji)))
          pr (iota 0 size_of_matrix))
        projections (iota 0 size_of_matrix) ;;
    Ok (dimensions', projections').

Definition lyapunov_exponents_H_plus (self : PermutationCover label)
    (gap : libgap_data K) (nb_vectors : option Z) (nb_experiments nb_iterations : Z)
    (lengths : option (seq Z)) (isotypic_decomposition verbose : bool)
  : res lyapunov_outcome :=
  let n := len self in
  nb_vectors <-- (if nb_vectors is Some v then Ok v else genus self) ;;
  let sigma := flatten (_permut_cover self) in
  _ <-- (if verbose then s <-- stratum self ;; Ok tt else Ok tt) ;;
  if (nb_vectors <? 0)%Z then Raise ValueError
  else if (nb_vectors =? 0)%Z then Ok ReturnEmpty
  else if (nb_experiments <=? 0)%Z then Raise ValueError
  else if (nb_iterations <=? 0)%Z then Raise ValueError
  else if n == 0 then Raise ZeroDivisionError
  else if size sigma %% n != 0 then Raise ValueError
  else
    row0 <-- getitem (rows (_base self)) 0 ;;
    let k := size row0 in
    let gp := iota 0 (2 * n) in
    let twin := iota 0 (2 * n) in
    '(gp0, twin0) <-- encode_row self k 0 row0 0 gp twin ;;
    row1 <-- getitem (rows (_base self)) 1 ;;
    '(gp1, twin1) <-- encode_row self k 1 row1 0 gp0 twin0 ;;
    (* if lengths != None: print lengths; lengths = map(int, lengths) *)
    let lengths' := omap (map (fun x : Z => x)) lengths in
    '(dimensions, projections) <--
      (if isotypic_decomposition then
         let size_of_matrix := size (rel_homology_generator self) in
         nc <-- n_characters pop_char gap ;;
         st <-- foldM (isotypic_step self gap size_of_matrix)
                  ([seq Z.of_nat i | i <- iota 0 nc],
                   [seq inl i | i <- iota 0 (size_of_matrix ^ 2 * nc)])
                  (iota 0 nc) ;;
         Ok (st.1, Some st.2)
       else Ok ([:: nb_vectors], None)) ;;
    Ok (CallEngine
          (EngineArguments gp1 k twin1 sigma nb_experiments nb_iterations
             dimensions projections None verbose)).

End Lyapunov.

(* --------------------------------------------------------------------- *)
(* A field to compute in: the Gaussian rationals Q(i)                     *)
(* --------------------------------------------------------------------- *)

Definition gaussian : Type := (Z * Z * positive)%type.

(* (re + im i) / den, kept in lowest terms *)
Definition gnorm (x : gaussian) : gaussian :=
  let: (re, im, den) := x in
  let g := Z.gcd (Z.gcd re im) (Zpos den) in
  (re / g, im / g, Z.to_pos (Zpos den / g))%Z.

Definition gzero : gaussian := (0%Z, 0%Z, 1%positive).

Definition gadd (x y : gaussian) : gaussian :=
  let: (a, b, m) := x in
  let: (c, d, n) := y in
  gnorm ((a * Zpos n + c * Zpos m)%Z, (b * Zpos n + d * Zpos m)%Z, (m * n)%positive).

Definition gmul (x y : gaussian) : gaussian :=
  let: (a, b, m) := x in
  let: (c, d, n) := y in
  gnorm ((a * c - b * d)%Z, (a * d + b * c)%Z, (m * n)%positive).

Definition gconj (x : gaussian) : gaussian :=
  let: (a, b, m) := x in (a, (- b)%Z, m).

Definition g_is_real (x : gaussian) : bool :=
  let: (_, b, _) := x in (b =? 0)%Z.

Definition g_of_int (z : Z) : gaussian := (z, 0%Z, 1%positive).

Definition gquotient (deg order : nat) : gaussian :=
  gnorm (Z.of_nat deg, 0%Z, Pos.of_nat order).

Definition gaussian_eqb (x y : gaussian) : bool :=
  let: (a, b, m) := x in
  let: (c, d, n) := y in
  (a =? c)%Z && (b =? d)%Z && (m =? n)%positive.

Lemma gaussian_eqP : Equality.axiom gaussian_eqb.
Proof.
move=> [[a b] m] [[c d] n] /=.
case: (Z.eqb_spec a c) => [->|ne]; last by right; case.
case: (Z.eqb_spec b d) => [->|ne]; last by right; case.
by case: (Pos.eqb_spec m n) => [->|ne]; [left | right; case].
Qed.

HB.instance Definition _ := hasDecEq.Build gaussian gaussian_eqP.

Definition Qi : exact_field :=
  @ExactField gaussian gzero gadd gmul gconj g_is_real g_of_int gquotient.

Definition gone : Qi := g_of_int 1.
Definition gi : Qi := (0%Z, 1%Z, 1%positive).
Definition gopp (x : Qi) : Qi := gmul (g_of_int (-1)) x.

(* --------------------------------------------------------------------- *)
(* Covers to compute on                                                   *)
(* --------------------------------------------------------------------- *)

Inductive letter : Type := La | Lb | Lc.

Definition letter_code (x : letter) : nat :=
  match x with La => 0 | Lb => 1 | Lc => 2 end.

Definition letter_decode (n : nat) : letter :=
  match n with 0 => La | 1 => Lb | _ => Lc end.

Lemma letter_codeK : cancel letter_code letter_decode.
Proof. by case. Qed.

HB.instance Definition _ := Equality.copy letter (can_type letter_codeK).

(* iet.Permutation('a b c', 'c b a') *)
Definition base_abc_cba : BasePermutation letter :=
  {| alphabet := [:: La; Lb; Lc];
     rows := [:: [:: La; Lb; Lc]; [:: Lc; Lb; La]];
     base_len := 3;
     is_irreducible := true;
     isinstance_PermutationIET := true;
     diagram := [:: [:: (La, false); (Lb, true); (Lc, false)];
                    [:: (La, true); (Lb, false); (Lc, true)]];
     diagram_glued :=
       [:: [:: Single (Lb, true); Tuple [:: (Lc, false); (La, false)]];
           [:: Single (Lb, false); Tuple [:: (Lc, true); (La, true)]]];
     twin_to_index := [:: [:: false; false; false]; [:: true; true; true]];
     _twin := [:: [:: TwinInt 2; TwinInt 1; TwinInt 0];
                  [:: TwinInt 2; TwinInt 1; TwinInt 0]] |}.

(* p.cover(['(1,2)', '(1,3)', '(2,3)']) *)
Definition cover_S3 : PermutationCover letter :=
  mkCover base_abc_cba 3 [:: [:: 1; 0; 2]; [:: 2; 1; 0]; [:: 0; 2; 1]].

(* its automorphism group is trivial *)
Definition gap_trivial : libgap_data Qi :=
  {| Order := 1; Irr := [:: [:: gone]]; Degree := [:: 1];
     Elements := [:: [:: 1; 2; 3]] |}.

(* iet.GeneralizedPermutation('a a b', 'b c c') *)
Definition base_aab_bcc : BasePermutation letter :=
  {| alphabet := [:: La; Lb; Lc];
     rows := [:: [:: La; La; Lb]; [:: Lb; Lc; Lc]];
     base_len := 3;
     is_irreducible := true;
     isinstance_PermutationIET := false;
     diagram := [:: [:: (La, false); (Lb, false)]; [:: (La, true)];
                    [:: (Lb, true); (Lc, true)]; [:: (Lc, false)]];
     diagram_glued :=
       [:: [:: Tuple [:: (Lb, false); (La, false)]]; [:: Single (La, true)];
           [:: Tuple [:: (Lb, true); (Lc, true)]]; [:: Single (Lc, false)]];
     twin_to_index := [:: [:: false; true; false]; [:: true; false; true]];
     _twin := [:: [:: TwinPair (0, 1); TwinPair (0, 0); TwinPair (1, 0)];
                  [:: TwinPair (0, 2); TwinPair (1, 2); TwinPair (1, 1)]] |}.

(* p.cover(['(1,2)', '()', '(1,2)']) and p.cover(['()', '()', '()']) *)
Definition cover_orientation : PermutationCover letter :=
  mkCover base_aab_bcc 2 [:: [:: 1; 0]; [:: 0; 1]; [:: 1; 0]].

Definition cover_trivial : PermutationCover letter :=
  mkCover base_aab_bcc 2 [:: [:: 0; 1]; [:: 0; 1]; [:: 0; 1]].

(* the cyclic group of order 4, with its four characters *)
Definition gap_C4 : libgap_data Qi :=
  {| Order := 4;
     Irr := [:: [:: gone; gone; gone; gone];
                [:: gone; gopp gone; gone; gopp gone];
                [:: gone; gi; gopp gone; gopp gi];
                [:: gone; gopp gi; gopp gone; gi]];
     Degree := [:: 1; 1; 1; 1];
     Elements := [:: [:: 1; 2; 3; 4]; [:: 2; 3; 4; 1];
                     [:: 3; 4; 1; 2]; [:: 4; 1; 2; 3]] |}.

(* the group of order 2, the automorphism group of cover_orientation *)
Definition gap_C2 : libgap_data Qi :=
  {| Order := 2;
     Irr := [:: [:: gone; gone]; [:: gone; gopp gone]];
     Degree := [:: 1; 1];
     Elements := [:: [:: 1; 2]; [:: 2; 1]] |}.

(* the choices of set.pop() used when computing *)
Definition pop_first (s : seq nat) : nat := head 0 s.
Definition pop_first_char (s : seq (seq Qi)) : seq Qi := head [::] s.

(* --------------------------------------------------------------------- *)
(* Exact linear algebra to compute with: fraction-free elimination        *)
(* --------------------------------------------------------------------- *)

(* Integer vectors *)
Definition zvec_add (u v : seq Z) : seq Z :=
  [seq (xy.1 + xy.2)%Z | xy <- zip u v].

Definition zvec_scale (k : Z) (u : seq Z) : seq Z := [seq (k * x)%Z | x <- u].


(* pivot_j * r - r_j * pivot, on a row and on the combination that made it *)
Definition zcombine (j : nat) (pivot r : seq Z * seq Z) : seq Z * seq Z :=
  let pj := nth 0%Z pivot.1 j in
  let rj := nth 0%Z r.1 j in
  (zvec_add (zvec_scale pj r.1) (zvec_scale (- rj) pivot.1),
   zvec_add (zvec_scale pj r.2) (zvec_scale (- rj) pivot.2)).

(* clear the columns in turn; a row used as a pivot leaves the pool *)
Fixpoint zeliminate (cols : seq nat) (pool : seq (seq Z * seq Z))
  : seq (seq Z * seq Z) :=
  if cols is j :: cols' then
    let i := find (fun r : seq Z * seq Z => ~~ (nth 0%Z r.1 j =? 0)%Z) pool in
    if drop i pool is pivot :: rest then
      zeliminate cols' [seq zcombine j pivot r | r <- take i pool ++ rest]
    else zeliminate cols' pool
  else pool.

(* the i-th unit vector of length n *)
Definition zunit (n i : nat) : seq Z :=
  [seq (if i == k then 1 else 0)%Z | k <- iota 0 n].

(* a family of integer vectors t with t * M = 0 that spans the left kernel *)
Definition kernel_Z (m : seq (seq Z)) : seq (seq Z) :=
  let ncols := size (head [::] m) in
  let pool := [seq (nth [::] m i, zunit (size m) i) | i <- iota 0 (size m)] in
  [seq r.2 | r <- zeliminate (iota 0 ncols) pool
           & all (fun x => (x =? 0)%Z) r.1].

Section Rank.
Variable K : exact_field.

Definition kcombine (j : nat) (pivot r : seq K) : seq K :=
  let pj := nth (zero K) pivot j in
  let rj := nth (zero K) r j in
  [seq add (mul pj xy.1) (mul (mul (of_int K (-1)) rj) xy.2) | xy <- zip r pivot].

(* the number of pivots that the elimination finds *)
Fixpoint keliminate (cols : seq nat) (pool : seq (seq K)) : nat :=
  if cols is j :: cols' then
    let i := find (fun r : seq K => nth (zero K) r j != zero K) pool in
    if drop i pool is pivot :: rest then
      (keliminate cols' [seq kcombine j pivot r | r <- take i pool ++ rest]).+1
    else keliminate cols' pool
  else 0.

Definition rank_K (m : seq (seq K)) : nat :=
  keliminate (iota 0 (size (head [::] m))) m.

End Rank.

(* float(real(CC(x))), kept exact *)
Definition real_part (x : Qi) : Qi :=
  let: (a, _, m) := x in gnorm (a, 0%Z, m).

(* the method, computed with the exact linear algebra above *)
Definition lyapunov_Qi :=
  @lyapunov_exponents_H_plus Qi letter pop_first pop_first_char kernel_Z
    (@rank_K Qi) Qi real_part.

(* the lengths that the engine receives, when it is called *)
Definition engine_lengths (float : Type) (r : res (lyapunov_outcome float))
  : option (option (seq Z)) :=
  if r is Ok (CallEngine args) then Some (arg_lengths args) else None.

(* --------------------------------------------------------------------- *)
(* The projector as the documentation of isotypic_projection_matrix has   *)
(* it: the entry at row (d, a) and column (d', a') is the sum of          *)
(* coeff * char(t) over the elements t with perm(t)(d) = d' when a = a',  *)
(* and zero when a != a'.                                                 *)
(* --------------------------------------------------------------------- *)

Section ProjectorEntry.
Variable K : exact_field.

Definition documented_entry (char : seq K) (coeff : K) (perms : seq (seq nat))
    (order : nat) (label : eqType) (d : nat) (a : label) (d' : nat) (a' : label)
  : K :=
  if a == a' then
    foldl (@add K) (zero K)
      [seq mul coeff (nth (zero K) char t)
         | t <- iota 0 order & nth 0 (nth [::] perms t) d == d']
  else zero K.

(* the copy whose image the method reads for the row of the copy d:
   perm[t][d-1], where the index -1 is the last copy *)
Definition read_copy (degree d : nat) : nat :=
  if d is d'.+1 then d' else degree.-1.

(* the entry at row i and column j of a matrix *)
Definition cell (m : seq (seq K)) (i j : nat) : K :=
  nth (zero K) (nth [::] m i) j.

(* the sum of the matrices m_0 + ... + m_(n-1), from the n x n zero matrix *)
Definition mx_sum (n : nat) (ms : seq (seq (seq K))) : seq (seq K) :=
  foldr (@mx_add K) (mx_zero K n) ms.

End ProjectorEntry.

(* the entry of a matrix of Gaussian rationals *)
Definition entry_at (m : seq (seq Qi)) (i j : nat) : Qi :=
  nth gzero (nth [::] m i) j.

(* the value of a computation that succeeded, or else the default *)
Definition value_of (A : Type) (x0 : A) (r : res A) : A :=
  if r is Ok x then x else x0.

(* --------------------------------------------------------------------- *)
(* The folding of the characters as the documentation describes it: a     *)
(* character with a value that is not real goes with its conjugate and    *)
(* the two give their sum; a real character gives itself.                 *)
(* --------------------------------------------------------------------- *)

Section RealFolding.
Variable K : exact_field.

Definition not_self_conjugate (chi : seq K) : bool :=
  has (fun x => ~~ is_real x) chi.

(* the characters that leave the set when chi is popped *)
Definition removed_with (chi : seq K) : seq (seq K) :=
  if not_self_conjugate chi then [:: chi; map (@conjugate K) chi] else [:: chi].

(* the real character that is emitted when chi is popped *)
Definition emitted_for (chi : seq K) : seq K :=
  if not_self_conjugate chi then [seq add x (conjugate x) | x <- chi] else chi.

(* libgap gives a square table: as many values in a character as there
   are characters *)
Definition square_table (gap : libgap_data K) : bool :=
  all (fun chi : seq K => size chi == size (Irr gap)) (Irr gap).

(* the set of characters that _characters starts from *)
Definition character_set_of (gap : libgap_data K) : seq (seq K) :=
  undup [seq take (Order gap) chi | chi <- Irr gap].

End RealFolding.

(* --------------------------------------------------------------------- *)
(* Well-formed covers, and what interval_diagram is to produce            *)
(* --------------------------------------------------------------------- *)

(* p is a bijection on {0, ..., d-1}, as a one-line list *)
Definition is_permutation (d : nat) (p : seq nat) : bool :=
  perm_eq p (iota 0 d).

Section WellFormed.
Variable label : eqType.

(* every label of the alphabet has a bijection on the copies *)
Definition wf_monodromy (self : PermutationCover label) : bool :=
  all (fun a => if covering_data self a is Ok p
                then is_permutation (_degree_cover self) p else false)
      (alphabet (_base self)).

(* the orbits of the base diagram are not empty and their labels are in
   the alphabet *)
Definition wf_orbit (self : PermutationCover label) (orbit : seq (label * bool))
  : bool :=
  (orbit != [::]) && all (fun x => x.1 \in alphabet (_base self)) orbit.

Definition wf_diagram (self : PermutationCover label) : bool :=
  all (wf_orbit self) (diagram (_base self)).

(* the copy in an entry of a singularity *)
Definition entry_copy (e : entry label) : nat :=
  match e with Signed _ _ d => d | Unsigned _ d => d end.

(* the copies at which the passes over an orbit of length n start *)
Definition pass_starts (n : nat) (singularity : seq (entry label)) : seq nat :=
  let copies := [seq entry_copy e | e <- singularity] in
  [seq nth 0 copies (k * n) | k <- iota 0 (size copies %/ n)].


(* the singularities that one orbit of the base diagram gives *)
Definition lift_of_orbit (pop : seq nat -> nat) (self : PermutationCover label)
    (sign : bool) (orbit : seq (label * bool)) : res (seq (seq (entry label))) :=
  lift_orbit pop (_degree_cover self) self sign orbit
             (iota 0 (_degree_cover self)) [::].

End WellFormed.

(* --------------------------------------------------------------------- *)
(* One-line lists as permutations of the ordinals below d                 *)
(* --------------------------------------------------------------------- *)

Section ListPerm.
Variable d : nat.

Definition lfun (p : seq nat) (i : 'I_d) : 'I_d := insubd i (nth 0 p i).

Definition lperm (p : seq nat) : {perm 'I_d} :=
  insubd (1%g : {perm 'I_d}) [ffun i => lfun p i].

End ListPerm.

Section OrbitPerm.
Variable label : eqType.
Variable self : PermutationCover label.

Let d := _degree_cover self.

(* the bijection on the copies that crossing x makes *)
Definition cross_perm (x : label * bool) : {perm 'I_d} :=
  let s := lperm d (value_of [::] (covering_data self x.1)) in
  if x.2 then (s^-1)%g else s.

(* the bijection that one pass over the orbit makes *)
Fixpoint orbit_perm (orbit : seq (label * bool)) : {perm 'I_d} :=
  if orbit is x :: orbit' then (cross_perm x * orbit_perm orbit')%g else 1%g.

(* the entries that one pass from the copy c appends *)
Fixpoint pass_trace (sign : bool) (orbit : seq (label * bool)) (c : 'I_d)
  : seq (entry label) :=
  if orbit is x :: orbit' then
    mk_entry sign x.1 x.2 c :: pass_trace sign orbit' (cross_perm x c)
  else [::].

End OrbitPerm.

Arguments pass_trace {label} self sign orbit c.

(* the one-line list of a permutation of the ordinals below d *)
Definition list_of_perm (d : nat) (s : {perm 'I_d}) : seq nat :=
  [seq val (s i) | i <- enum 'I_d].

Section WellFormedGlued.
Variable label : eqType.

(* the labels of the glued diagram of the base are in the alphabet *)
Definition wf_glued (self : PermutationCover label) : bool :=
  all (fun orbit => all (fun x => x.1 \in alphabet (_base self))
                        (flatten_orbit orbit))
      (diagram_glued (_base self)).

(* the entries that an orbit of the glued diagram of the base gives to
   the profile, from the bijection of the copies around it *)
Definition orbit_entries (self : PermutationCover label)
    (orbit : seq (glued label)) : seq nat :=
  [seq size orbit * c
     | c <- cycle_type (list_of_perm (orbit_perm self (flatten_orbit orbit)))].

End WellFormedGlued.

(* --------------------------------------------------------------------- *)
(* Left kernels                                                           *)
(* --------------------------------------------------------------------- *)



Section Complete.
Variable label : eqType.

(* the diagram of the base has the two sides (a, 0) and (a, 1) of every
   label a of the alphabet *)
Definition diagram_complete (self : PermutationCover label) : bool :=
  all (fun a => all (fun j => (a, j) \in flatten (diagram (_base self)))
                    [:: false; true])
      (alphabet (_base self)).

End Complete.

Section GluedDiagram.
Variable label : eqType.

(* the glued diagram of the base lists the two sides (a, 0) and (a, 1) of
   every label a of the alphabet, each one once *)
Definition glued_complete (self : PermutationCover label) : bool :=
  perm_eq (flatten [seq flatten_orbit o | o <- diagram_glued (_base self)])
          [seq (a, j) | a <- alphabet (_base self), j <- [:: false; true]].

(* no orbit of the glued diagram is empty *)
Definition glued_nonempty (self : PermutationCover label) : bool :=
  all (fun o : seq (glued label) => o != [::]) (diagram_glued (_base self)).

(* the angles of the base, in half-turns: sum(profile) - 2 len(profile) of
   the base permutation itself *)
Definition base_defect (self : PermutationCover label) : Z :=
  (Z.of_nat (sumn [seq size o | o <- diagram_glued (_base self)])
   - 2 * Z.of_nat (size (diagram_glued (_base self))))%Z.

End GluedDiagram.

(* --------------------------------------------------------------------- *)
(* The entries of interval_diagram without their sign                     *)
(* --------------------------------------------------------------------- *)

Section Unsign.
Variable label : eqType.

(* (label, d) for the entry (label, j, d) *)
Definition unsign (e : entry label) : entry label :=
  match e with
  | Signed a _ d => Unsigned a d
  | Unsigned a d => Unsigned a d
  end.

End Unsign.

(* --------------------------------------------------------------------- *)
(* The rows of the base, as homology_boundary_matrix reads them           *)
(* --------------------------------------------------------------------- *)

Section WellFormedRows.
Variable label : eqType.

(* the base has its two rows, on labels of the alphabet, and
   _twins_and_orientation()[1] has a flag for every position of them *)
Definition wf_rows (self : PermutationCover label) : bool :=
  let b := _base self in
  (1 < size (rows b))
  && all (fun i => all (fun a => a \in alphabet b) (nth [::] (rows b) i)
                   && (size (nth [::] (rows b) i)
                       <= size (nth [::] (twin_to_index b) i)))
         [:: 0; 1].

End WellFormedRows.

(* an entry that is -1, 0 or 1 *)
Definition is_sign (v : Z) : bool := [|| (v =? 0)%Z, (v =? 1)%Z | (v =? -1)%Z].

(* the sum of a list of integers *)
Definition sumZ (s : seq Z) : Z := foldr Z.add 0%Z s.

(* the row with 1 at the position i, -1 at the position j (0 when i = j)
   and 0 elsewhere, of length m *)
Definition difference_row (m i j : nat) : seq Z :=
  [seq ((if k == i then 1 else 0) - (if k == j then 1 else 0))%Z | k <- iota 0 m].

(* --------------------------------------------------------------------- *)
(* Signs on the copies, as is_orientable looks for them                   *)
(* --------------------------------------------------------------------- *)

Section CoherentSigns.
Variable label : eqType.

(* the copy 0 has the sign +1 (true), and a copy that has a sign gives the
   opposite sign to its image by the permutation of every letter of the
   list *)
Definition coherent_signs (self : PermutationCover label) (letters : seq nat)
    (f : seq (option bool)) : Prop :=
  nth None f 0 = Some true /\
  forall i s j, nth None f i = Some s -> j \in letters ->
    nth None f (nth 0 (nth [::] (_permut_cover self) j) i) = Some (~~ s).

End CoherentSigns.

(* --------------------------------------------------------------------- *)
(* The tables gp and twin that lyapunov_exponents_H_plus gives the engine *)
(* --------------------------------------------------------------------- *)

(* the position convert(...) that stands for the twin t of a position of
   the row i, for rows of k intervals *)
Definition twin_position (k i : nat) (t : twin_ref) : nat :=
  match t with
  | TwinInt j' => convert k (1 - i, j')
  | TwinPair ij' => convert k ij'
  end.

Section WellFormedTwin.
Variable label : eqType.

(* the base has its two rows, on labels of the alphabet, they hold
   2 * len(base) intervals together, and base._twin has an entry for every
   position of them *)
Definition wf_twin (self : PermutationCover label) : bool :=
  let b := _base self in
  [&& size (rows b) == 2,
      size (nth [::] (rows b) 0) + size (nth [::] (rows b) 1) == 2 * base_len b &
      all (fun i => all (fun a => a \in alphabet b) (nth [::] (rows b) i)
                    && (size (nth [::] (rows b) i) <= size (nth [::] (_twin b) i))
                    && (i < size (_twin b)))
          [:: 0; 1]].

End WellFormedTwin.

(* --------------------------------------------------------------------- *)
(* lyapunov_exponents_H_plus, after the engine has returned: res_final    *)
(* --------------------------------------------------------------------- *)

(* xrange(a, b) *)
Definition xrange (a b : Z) : seq Z :=
  [seq (a + Z.of_nat k)%Z | k <- iota 0 (Z.to_nat (b - a))].

Section Results.
Variable K : exact_field.
Variable pop_char : seq (seq K) -> seq K.
Variable float : Type.

(* mean_and_std_dev, of the module labelled *)
Variable mean_and_std_dev : seq float -> float * float.

(* an item of res_final: m, res_int or (res_int, character) *)
Inductive exponent_item : Type :=
  | Exponent of float
  | ExponentBlock of seq float
  | ExponentBlockChar of seq float & seq K.

(* m, d = mean_and_std_dev(res[i]); the mean m *)
Definition mean_at (engine_res : seq (seq float)) (i : Z) : res float :=
  r <-- getitemZ engine_res i ;; Ok (mean_and_std_dev r).1.

(* the body of `for i_char in xrange(self.n_characters())`, on (i_0, res_final) *)
Definition collect_character (gap : libgap_data K) (engine_res : seq (seq float))
    (dimensions : seq Z) (return_char : bool)
    (st : Z * seq exponent_item) (i_char : nat) : res (Z * seq exponent_item) :=
  let: (i_0, res_final) := st in
  dim <-- getitem dimensions i_char ;;
  res_int <-- mapM (mean_at engine_res) (xrange i_0 (i_0 + dim)) ;;
  item <-- (if return_char then
              table <-- character_table pop_char gap ;;
              char <-- getitem table i_char ;;
              Ok (ExponentBlockChar res_int char)
            else Ok (ExponentBlock res_int)) ;;
  Ok ((i_0 + dim)%Z, rcons res_final item).

(* the value that the method returns from the answer res of the engine
   (engine_res here);
   the speed is there when return_speed is set.  What verbose writes to
   output_file is left out. *)
Definition collect_exponents (gap : libgap_data K) (engine_res : seq (seq float))
    (nb_vectors : Z) (dimensions : seq Z)
    (return_speed isotypic_decomposition return_char : bool)
  : res (option float * seq exponent_item) :=
  lexp <-- mean_at engine_res 0 ;;
  res_final <--
    (if isotypic_decomposition then
       nc <-- n_characters pop_char gap ;;
       st <-- foldM (collect_character gap engine_res dimensions return_char)
                (1%Z, [::]) (iota 0 nc) ;;
       Ok st.2
     else
       mapM (fun i => m <-- mean_at engine_res i ;; Ok (Exponent m))
            (xrange 1 (nb_vectors + 1))) ;;
  Ok (if return_speed then Some lexp else None, res_final).

(* the means of res[a], ..., res[a + n - 1] *)
Definition means (engine_res : seq (seq float)) (a n : nat) : seq float :=
  [seq (mean_and_std_dev (nth [::] engine_res i)).1 | i <- iota a n].

End Results.

(* --------------------------------------------------------------------- *)
(* The trivial cover                                                      *)
(* --------------------------------------------------------------------- *)

Section TrivialCoverDef.
Variable label : eqType.

(* every label of the alphabet has the identity on the copies *)
Definition trivial_monodromy (self : PermutationCover label) : bool :=
  all (fun a => if covering_data self a is Ok p
                then p == identity (_degree_cover self) else false)
      (alphabet (_base self)).

End TrivialCoverDef.

(* --------------------------------------------------------------------- *)
(* A cover with an automorphism group that is not abelian                 *)
(* --------------------------------------------------------------------- *)

(* the cover of degree 6 of 'a b c' / 'c b a' on which the symmetric group
   of three letters acts by its left translations:
   p.cover(['(1,2,3)(4,5,6)', '(1,4)(2,6)(3,5)', '()']) *)
Definition cover_regular_S3 : PermutationCover letter :=
  mkCover base_abc_cba 6
    [:: [:: 1; 2; 0; 4; 5; 3]; [:: 3; 5; 4; 0; 2; 1]; [:: 0; 1; 2; 3; 4; 5]].

(* its automorphism group, the six right translations, is not abelian:
   libgap gives it three characters, each with one value per conjugacy
   class *)
Definition gap_S3 : libgap_data Qi :=
  {| Order := 6;
     Irr := [:: [:: gone; gone; gone];
                [:: gone; gopp gone; gone];
                [:: g_of_int 2; gzero; gopp gone]];
     Degree := [:: 1; 1; 2];
     Elements := [seq [seq i.+1 | i <- g]
                    | g <- automorphism_group cover_regular_S3] |}.

(* two elements of the group that do not commute *)
Definition not_abelian (G : seq (seq nat)) : bool :=
  has (fun g => has (fun h => perm_mul g h != perm_mul h g) G) G.

(* --------------------------------------------------------------------- *)
(* The rows of homology_cycle_matrix against the borders of the sides     *)
(* --------------------------------------------------------------------- *)


Section BorderSum.
Variable label : eqType.





End BorderSum.



(* --------------------------------------------------------------------- *)
(* The sides of the copies, and the covering surface in one piece         *)
(* --------------------------------------------------------------------- *)

Section Connected.
Variable label : eqType.

(* the sides (label, sign) around the singularities of the base, one list
   per orbit of the glued diagram *)
Definition side_orbits (self : PermutationCover label)
  : seq (seq (label * bool)) :=
  [seq flatten_orbit o | o <- diagram_glued (_base self)].

(* all the sides, orbit after orbit *)
Definition sides (self : PermutationCover label) : seq (label * bool) :=
  flatten (side_orbits self).

(* every orbit of the glued diagram has a side *)
Definition glued_sides_nonempty (self : PermutationCover label) : bool :=
  all (fun o : seq (label * bool) => o != [::]) (side_orbits self).

(* the position of the side that follows the side at the position k around
   its singularity, for orbits of the sizes sh *)
Definition next_position (sh : seq nat) (k : nat) : nat :=
  let j := reshape_index sh k in
  flatten_index sh j ((reshape_offset sh k).+1 %% nth 0 sh j).

(* the position of the other side of the label of the side at the
   position k *)
Definition other_side (F : seq (label * bool)) (k : nat) : nat :=
  if drop k F is x :: _ then index (x.1, ~~ x.2) F else k.

(* the copy that is reached from the copy c across the side at the
   position k *)
Definition across (self : PermutationCover label) (k c : nat) : nat :=
  if drop k (sides self) is x :: _ then value_of c (cross self x c) else c.

(* from the side at the position u.1 of the copy u.2: on to the next side
   around the singularity, and over to the other side of the label *)
Definition step_around (self : PermutationCover label) (u : nat * nat)
  : nat * nat :=
  (next_position (shape (side_orbits self)) u.1, across self u.1 u.2).

Definition step_over (self : PermutationCover label) (u : nat * nat)
  : nat * nat :=
  (other_side (sides self) u.1, across self u.1 u.2).

(* the sides of copies of s, and those that are one step away from them *)
Definition grow (self : PermutationCover label) (s : seq (nat * nat))
  : seq (nat * nat) :=
  undup (s ++ [seq step_around self u | u <- s] ++ [seq step_over self u | u <- s]).

(* the sides of copies that are n steps or less away from the first side
   of the copy 0 *)
Definition reached (self : PermutationCover label) (n : nat)
  : seq (nat * nat) :=
  iter n (grow self) [:: (0, 0)].

(* every side of every copy is reached from the first side of the copy 0:
   the covering surface is in one piece *)
Definition surface_connected (self : PermutationCover label) : bool :=
  let all_sides := [seq (k, c) | k <- iota 0 (size (sides self)),
                                 c <- iota 0 (_degree_cover self)] in
  all (fun u => u \in reached self (size all_sides)) all_sides.

End Connected.

(* p.cover(['(1,2)', '(1,2)', '(1,2)']) of the documentation of genus *)
Definition cover_swapped : PermutationCover letter :=
  mkCover base_aab_bcc 2 [:: [:: 1; 0]; [:: 1; 0]; [:: 1; 0]].

(* --------------------------------------------------------------------- *)
(* Products of transpositions                                            *)
(* --------------------------------------------------------------------- *)

Section Transpositions.
Variable T : finType.

(* the graph that joins the two points of every pair of ts *)
Definition edges (ts : seq (T * T)) : rel T :=
  [rel u v | ((u, v) \in ts) || ((v, u) \in ts)].

(* the product of the transpositions of the pairs of ts *)
Definition tprod (ts : seq (T * T)) : {perm T} :=
  (\prod_(t <- ts) tperm t.1 t.2)%g.

End Transpositions.

(* ===================================================================== *)
(* Properties                                                             *)
(* ===================================================================== *)

Lemma bind_Ok (A B : Type) (m : res A) (k : A -> res B) (b : B) :
  bind m k = Ok b -> exists2 a, m = Ok a & k a = Ok b.
Proof. by case: m => [a|e|] //= kab; exists a. Qed.

Lemma getitem_nth (A : Type) (x0 : A) (s : seq A) (i : nat) :
  i < size s -> getitem s i = Ok (nth x0 s i).
Proof.
rewrite /getitem => lt_i; rewrite (drop_nth x0 lt_i) //.
Qed.

Lemma getitem_Ok (A : Type) (x0 : A) (s : seq A) (i : nat) (x : A) :
  getitem s i = Ok x -> i < size s /\ x = nth x0 s i.
Proof.
case: (ltnP i (size s)) => [lt_i|le_i].
  by rewrite (getitem_nth x0 lt_i) => -[<-].
by rewrite /getitem drop_oversize.
Qed.

Lemma getitem_over (A : Type) (s : seq A) (i : nat) :
  size s <= i -> getitem s i = Raise IndexError.
Proof. by move=> le_i; rewrite /getitem drop_oversize. Qed.

(* --------------------------------------------------------------------- *)
(* lyapunov_exponents_H_plus: validation of the arguments                 *)
(* --------------------------------------------------------------------- *)

Section LyapunovValidation.
Variable K : exact_field.
Variable label : eqType.
Variable pop : seq nat -> nat.
Variable pop_char : seq (seq K) -> seq K.
Variable left_kernel : seq (seq Z) -> seq (seq Z).
Variable mx_rank : seq (seq K) -> nat.
Variable float : Type.
Variable real_float : K -> float.

Let lyapunov :=
  @lyapunov_exponents_H_plus K label pop pop_char left_kernel mx_rank float real_float.

(** C4.  Let nv be the number of vectors, given or taken from genus(), and
    let stratum() return when verbose has it written.  Then the call raises
    ValueError when nv < 0; it returns the empty result when nv = 0,
    whatever the other arguments are; and for every other nv it raises
    ValueError when nb_experiments <= 0, when nb_iterations <= 0, and, for
    a base that has an interval, when the length of the flattened monodromy
    table is not a multiple of len(self). *)
Theorem lyapunov_validation (self : PermutationCover label) (gap : libgap_data K)
    (nb_vectors : option Z) (nv nb_experiments nb_iterations : Z)
    (lengths : option (seq Z)) (isotypic_decomposition verbose : bool) :
  (if nb_vectors is Some v then Ok v else genus self) = Ok nv ->
  (verbose -> is_ok (stratum self)) ->
  let r := lyapunov self gap nb_vectors nb_experiments nb_iterations lengths
             isotypic_decomposition verbose in
  [/\ (nv < 0)%Z -> r = Raise ValueError,
      nv = 0%Z -> r = Ok (ReturnEmpty float),
      nv <> 0%Z -> (nb_experiments <= 0)%Z -> r = Raise ValueError,
      nv <> 0%Z -> (nb_iterations <= 0)%Z -> r = Raise ValueError &
      nv <> 0%Z -> 0 < len self ->
        size (flatten (_permut_cover self)) %% len self != 0 ->
        r = Raise ValueError].
Proof.
move=> nvE vbE.
have pre : (if verbose then s <-- stratum self ;; Ok tt else Ok tt) = Ok tt.
  by case: verbose vbE => // /(_ isT); case: (stratum self).
move=> r.
have rE : r =
    (if (nv <? 0)%Z then Raise ValueError
     else if (nv =? 0)%Z then Ok (ReturnEmpty float)
     else if (nb_experiments <=? 0)%Z then Raise ValueError
     else if (nb_iterations <=? 0)%Z then Raise ValueError
     else if len self == 0 then Raise ZeroDivisionError
     else if size (flatten (_permut_cover self)) %% len self != 0
          then Raise ValueError
     else r).
  rewrite /r /lyapunov /lyapunov_exponents_H_plus nvE /= pre /=.
  case: (nv <? 0)%Z => //; case: (nv =? 0)%Z => //.
  case: (nb_experiments <=? 0)%Z => //; case: (nb_iterations <=? 0)%Z => //.
  case: (len self == 0) => //.
  by case: (size (flatten (_permut_cover self)) %% len self != 0).
split.
- by move=> /Z.ltb_lt nv0; rewrite rE nv0.
- by move=> nv0; rewrite rE nv0.
- move=> /Z.eqb_neq nv0 /Z.leb_le ne0; rewrite rE ne0 nv0.
  by case: ifP.
- move=> /Z.eqb_neq nv0 /Z.leb_le ni0; rewrite rE ni0 nv0.
  by do 2!case: ifP => // _.
- move=> /Z.eqb_neq nv0 n0 sg; rewrite rE sg nv0.
  rewrite (negbTE (_ : len self != 0)) -?lt0n //.
  by do 3!case: ifP => // _.
Qed.

End LyapunovValidation.

Lemma lyapunov_validation_witness :
  lyapunov_Qi cover_orientation gap_C2 None 0%Z 100%Z None false true
  = Raise ValueError.
Proof.
have [_ _ h _ _] :=
  @lyapunov_validation Qi letter pop_first pop_first_char kernel_Z
    (@rank_K Qi) Qi real_part cover_orientation gap_C2 None 1%Z 0%Z 100%Z
    None false true (erefl _) (fun _ => erefl _).
by apply: h.
Defined.

(* --------------------------------------------------------------------- *)
(* lyapunov_exponents_H_plus: the lengths given by the caller             *)
(* --------------------------------------------------------------------- *)

(** C5 on the code: called with lengths = [1, 2, 3], the method calls the
    engine, and the engine receives None for the lengths. *)
Theorem lyapunov_lengths_dropped :
  engine_lengths
    (lyapunov_Qi cover_orientation gap_C2 (Some 1%Z) 100%Z 100%Z
       (Some [:: 1%Z; 2%Z; 3%Z]) false false)
  = Some None.
Proof. by vm_compute. Qed.

(* --------------------------------------------------------------------- *)
(* isotypic_projection_matrix on the cover of 'a b c' / 'c b a' with      *)
(* monodromies (1,2), (1,3), (2,3)                                        *)
(* --------------------------------------------------------------------- *)

(* the group-theory data of that cover: the centralizer is trivial *)
Lemma cover_S3_automorphisms :
  automorphism_group cover_S3 = [:: [:: 0; 1; 2]].
Proof. by vm_compute. Qed.

Lemma gap_trivial_characters :
  _characters pop_first_char gap_trivial
  = Ok ([:: [:: gone]], [:: 1], 1, [:: [:: 0; 1; 2]], 1).
Proof. by vm_compute. Qed.

(** C2 on the code: the only element of the group is the identity, so the
    documented entry at row (0, a) and column (0, a) is 1 and the one at
    column (2, a) is 0; the matrix that the method returns has 0 and 1
    there, because it reads perm[t][d-1]. *)
Theorem isotypic_projection_entry_shifted :
  let M := value_of [::]
             (isotypic_projection_matrix pop_first_char cover_S3 gap_trivial 0) in
  [/\ is_ok (isotypic_projection_matrix pop_first_char cover_S3 gap_trivial 0),
      entry_at M 0 0 = gzero,
      documented_entry [:: gone] (gquotient 1 1) [:: [:: 0; 1; 2]] 1 0 La 0 La = gone,
      entry_at M 0 6 = gone &
      documented_entry [:: gone] (gquotient 1 1) [:: [:: 0; 1; 2]] 1 0 La 2 La = gzero].
Proof. by vm_compute. Qed.

(** C1 on the code: for the same cover the group has one real character,
    the relative homology basis has 9 elements, and the matrix M of that
    character is not idempotent (M * M is not M) and the sum of the
    matrices over all the characters, which is M, is not the identity. *)
Theorem isotypic_projection_not_idempotent :
  let M := value_of [::]
             (isotypic_projection_matrix pop_first_char cover_S3 gap_trivial 0) in
  [/\ n_characters pop_first_char gap_trivial = Ok 1,
      size (rel_homology_generator cover_S3) = 9,
      (mx_mul M M == M) = false &
      (mx_sum 9 [:: M] == identity_matrix Qi 9) = false].
Proof. by vm_compute. Qed.

(* --------------------------------------------------------------------- *)
(* Lists built with mapM                                                  *)
(* --------------------------------------------------------------------- *)

Lemma eq_mapM (A B : Type) (f g : A -> res B) (s : seq A) :
  f =1 g -> mapM f s = mapM g s.
Proof. by move=> fg; elim: s => //= x s ->; rewrite fg. Qed.

Lemma mapM_size (A B : Type) (f : A -> res B) (s : seq A) (r : seq B) :
  mapM f s = Ok r -> size r = size s.
Proof.
elim: s r => [|x s IHs] r /=; first by case=> <-.
case: (f x) => //= y; case E: (mapM f s) => [ys| |] //= [<-] /=.
by rewrite (IHs ys).
Qed.

Lemma mapM_all (A B : Type) (P : pred B) (f : A -> res B) (s : seq A) (r : seq B) :
  (forall x y, f x = Ok y -> P y) -> mapM f s = Ok r -> all P r.
Proof.
move=> fP; elim: s r => [|x s IHs] r /=; first by case=> <-.
case E: (f x) => [y| |] //=; case E': (mapM f s) => [ys| |] //= [<-] /=.
by rewrite (fP _ _ E) (IHs ys).
Qed.

(* reading the items i, i+1, ..., i+n-1 of a list *)
Lemma mapM_getitem_iota (A B : Type) (f : A -> B) (chi : seq A) (i n : nat)
    (r : seq B) :
  mapM (fun j => x <-- getitem chi j ;; Ok (f x)) (iota i n) = Ok r ->
  (n = 0 \/ i + n <= size chi) /\ r = [seq f x | x <- take n (drop i chi)].
Proof.
elim: n i r => [|n IHn] i r /=; first by case=> <-; split; [left | rewrite take0].
case E: (getitem chi i) => [x| |] //=.
case E': (mapM _ _) => [ys| |] //= [<-].
have [_ ysE] := IHn _ _ E'.
move: E; rewrite /getitem; case D: (drop i chi) => [|x' tl] // [xE].
have lt_i : i < size chi.
  by rewrite ltnNge; apply/negP => le_i; rewrite drop_oversize in D.
have tlE : tl = drop i.+1 chi by rewrite -addn1 addnC -drop_drop D /= drop0.
split; last by rewrite /= xE ysE tlE.
right; case: (IHn _ _ E') => [[n0|le_n] _]; last by rewrite addnS.
by rewrite n0 addn1.
Qed.

Lemma mapM_getitem_take (A : Type) (chi : seq A) (n : nat) (r : seq A) :
  mapM (getitem chi) (iota 0 n) = Ok r -> r = take n chi /\ size r = n.
Proof.
move=> E; have sz := mapM_size E; rewrite size_iota in sz; split=> //.
have E' : mapM (fun j => x <-- getitem chi j ;; Ok (id x)) (iota 0 n) = Ok r.
  by rewrite -E; apply: eq_mapM => j; case: (getitem chi j).
by have [_ ->] := mapM_getitem_iota E'; rewrite drop0 map_id.
Qed.

Lemma mapM_map (A B : Type) (f : A -> res B) (h : A -> B) (P : pred B)
    (s : seq A) (r : seq B) :
  (forall x y, f x = Ok y -> y = h x /\ P y) ->
  mapM f s = Ok r -> r = map h s /\ all P r.
Proof.
move=> fh; elim: s r => [|x s IHs] r /=; first by case=> <-.
case E: (f x) => [y| |] //=; case E': (mapM f s) => [ys| |] //= [<-] /=.
have [-> ->] := fh _ _ E; have [-> ->] := IHs _ E'.
by [].
Qed.

Lemma mapM_getitem_cat (A B : Type) (g : A -> res B) (p s : seq A) :
  mapM (fun j => x <-- getitem (p ++ s) j ;; g x) (iota (size p) (size s))
  = mapM g s.
Proof.
elim: s p => [|x s IHs] p //=.
rewrite {1}/getitem drop_size_cat //=; case: (g x) => //= y.
by rewrite -cat_rcons -(size_rcons p x) IHs.
Qed.

Lemma mapM_getitem_all (A B : Type) (g : A -> res B) (s : seq A) :
  mapM (fun j => x <-- getitem s j ;; g x) (iota 0 (size s)) = mapM g s.
Proof. exact: (mapM_getitem_cat g [::] s). Qed.

(* --------------------------------------------------------------------- *)
(* _characters: the folding into real characters                          *)
(* --------------------------------------------------------------------- *)

Section CharacterFolding.
Variable K : exact_field.
Variable pop_char : seq (seq K) -> seq K.

(* set.pop() returns an element of the set *)
Hypothesis pop_char_mem : forall s, s != [::] -> pop_char s \in s.

(* what is appended for chi when the sums run over n values *)
Let emitted_upto (n : nat) (chi : seq K) : seq K :=
  if not_self_conjugate chi then [seq add x (conjugate x) | x <- take n chi]
  else chi.

Lemma extract_real_spec (fuel n : nat) (S R : seq (seq K)) (i : nat)
    (R' : seq (seq K)) (i' : nat) :
  extract_real pop_char fuel n S R i = Ok (R', i') ->
  exists P : seq (seq K),
    [/\ perm_eq S (flatten [seq removed_with chi | chi <- P]),
        R' = R ++ [seq emitted_upto n chi | chi <- P] &
        all (fun chi => not_self_conjugate chi ==> (n <= size chi)) P].
Proof.
elim: fuel S R i => [|fuel IHf] [|chi0 S0] R i //=.
- by case=> <- _; exists [::]; rewrite cats0.
- by case=> <- _; exists [::]; rewrite cats0.
set S := chi0 :: S0; set chi := pop_char S.
have chiS : chi \in S by apply: pop_char_mem.
have permS : perm_eq S (chi :: rem chi S) by apply: perm_to_rem.
rewrite -/(not_self_conjugate chi); case nsc: (not_self_conjugate chi).
  rewrite /set_remove; case: ifP => //= conjS.
  case E: (mapM _ _) => [merged| |] //= /IHf [P [permP -> allP]].
  have [le_n mergedE] := mapM_getitem_iota E.
  exists (chi :: P); split.
  - rewrite /= /removed_with nsc /=.
    apply: perm_trans permS _; rewrite perm_cons.
    apply: perm_trans (perm_to_rem conjS) _.
    by rewrite perm_cons.
  - by rewrite /= /emitted_upto nsc mergedE drop0 -cats1 -catA.
  - rewrite /= nsc allP andbT /=.
    by case: le_n => [->|] //; rewrite add0n.
move=> /IHf [P [permP -> allP]].
exists (chi :: P); split.
- rewrite /= /removed_with nsc /=.
  by apply: perm_trans permS _; rewrite perm_cons.
- by rewrite /= /emitted_upto nsc -cats1 -catA.
- by rewrite /= nsc.
Qed.

End CharacterFolding.

Section CharactersSpec.
Variable K : exact_field.
Variable pop_char : seq (seq K) -> seq K.
Hypothesis pop_char_mem : forall s, s != [::] -> pop_char s \in s.

Lemma characters_spec (gap : libgap_data K) (R : seq (seq K)) (degs : seq nat)
    (order : nat) (perms : seq (seq nat)) (nreal : nat) :
  square_table gap ->
  _characters pop_char gap = Ok (R, degs, order, perms, nreal) ->
  [/\ order = Order gap, nreal = size R,
      exists2 P : seq (seq K),
        perm_eq (character_set_of gap) (flatten [seq removed_with chi | chi <- P])
        & R = [seq emitted_for chi | chi <- P]
    & all (fun r : seq K => size r == Order gap) R].
Proof.
move=> sq; rewrite /_characters mapM_getitem_all.
case Et: (mapM _ _) => [tuples| |] //=.
have [tuplesE tuples_sz] :
    tuples = [seq take (Order gap) chi | chi <- Irr gap]
    /\ all (fun r : seq K => size r == Order gap) tuples.
  apply: mapM_map Et => chi r /mapM_getitem_take [-> sz]; split=> //.
  by rewrite -{2}sz.
case: (mapM _ _) => [degs'| |] //=; case: (mapM _ _) => [perm| |] //=.
case Ex: (extract_real _ _ _ _ _ _) => [[R' i']| |] //= [<- _ <- _ <-].
have [P [permP R'E nscP]] := extract_real_spec pop_char_mem Ex.
have setE : undup tuples = character_set_of gap by rewrite tuplesE.
have inP chi : chi \in P ->
    size chi = Order gap /\ (not_self_conjugate chi -> size (Irr gap) = size chi).
  move=> chiP.
  have : chi \in undup tuples.
    rewrite (perm_mem permP); apply/flattenP; exists (removed_with chi).
      by apply/mapP; exists chi.
    by rewrite /removed_with; case: ifP => _; rewrite !inE eqxx.
  rewrite mem_undup => chiT; have /eqP sz := allP tuples_sz _ chiT.
  split=> // nsc; move/allP/(_ _ chiP): nscP; rewrite nsc /= => le_n.
  apply/eqP; rewrite eqn_leq le_n andTb.
  move: chiT; rewrite tuplesE => /mapP [chi0 chi0I ->].
  rewrite size_take (eqP (allP sq _ chi0I)).
  by case: ltnP => // /ltnW.
have R'P : R' = [seq emitted_for chi | chi <- P].
  rewrite R'E /=; apply/eq_in_map => chi /inP [_ nE].
  rewrite /emitted_for; case: ifP => // /nE ->.
  by rewrite take_size.
split=> //; first by exists P; rewrite -?setE.
rewrite R'P all_map; apply/allP => chi /inP [sz _] /=.
by rewrite /emitted_for; case: ifP => _; rewrite ?size_map sz.
Qed.

End CharactersSpec.

Section CharacterClaims.
Variable K : exact_field.
Variable pop_char : seq (seq K) -> seq K.

(** X26.  When libgap's table is square and _characters returns, as it
    does for an abelian group, there is a list P of popped characters such
    that the characters of the set are,
    up to order, the popped ones that are self-conjugate and the popped
    ones that are not together with their conjugates; the real character
    table lists, in the order of P, the character itself for a
    self-conjugate one and the sum with its conjugate for the others; and
    n_characters() is the length of that table. *)
Theorem real_character_folding (gap : libgap_data K) (R : seq (seq K))
    (degs : seq nat) (order : nat) (perms : seq (seq nat)) (nreal : nat) :
  (forall s, s != [::] -> pop_char s \in s) ->
  square_table gap ->
  _characters pop_char gap = Ok (R, degs, order, perms, nreal) ->
  n_characters pop_char gap = Ok (size R) /\
  exists2 P : seq (seq K),
    perm_eq (character_set_of gap) (flatten [seq removed_with chi | chi <- P])
    & R = [seq emitted_for chi | chi <- P].
Proof.
move=> pop_mem sq E; have [_ nE PE _] := characters_spec pop_mem sq E.
by split=> //; rewrite /n_characters E /= nE.
Qed.

(** C10.  When libgap's table is square and _characters returns, every row
    of character_table() has automorphism_group_order() entries, the sums
    of conjugate characters as well as the self-conjugate characters, so
    character_table()[i][t] is in bounds for every row i and element t. *)
Theorem character_table_rows_in_bounds (gap : libgap_data K) (R : seq (seq K))
    (degs : seq nat) (order : nat) (perms : seq (seq nat)) (nreal : nat) :
  (forall s, s != [::] -> pop_char s \in s) ->
  square_table gap ->
  _characters pop_char gap = Ok (R, degs, order, perms, nreal) ->
  [/\ character_table pop_char gap = Ok R,
      automorphism_group_order pop_char gap = Ok order,
      all (fun r : seq K => size r == order) R &
      forall i t, i < size R -> t < order ->
        exists2 char, getitem R i = Ok char & is_ok (getitem char t)].
Proof.
move=> pop_mem sq E; have [oE _ _ szR] := characters_spec pop_mem sq E.
split; rewrite ?oE //; first by rewrite /character_table E.
  by rewrite /automorphism_group_order E /= oE.
move=> i t lt_i lt_t; exists (nth [::] R i); first exact: getitem_nth.
have /eqP sz := allP szR _ (mem_nth [::] lt_i).
by rewrite (getitem_nth (zero K)) // sz.
Qed.

End CharacterClaims.

Lemma pop_first_char_mem (s : seq (seq Qi)) :
  s != [::] -> pop_first_char s \in s.
Proof. by case: s => // x s _; rewrite inE eqxx. Qed.

Lemma real_character_folding_witness :
  let R := (value_of ([::], [::], 0, [::], 0)
              (_characters pop_first_char gap_C4)).1.1.1.1 in
  n_characters pop_first_char gap_C4 = Ok (size R) /\
  exists2 P : seq (seq Qi),
    perm_eq (character_set_of gap_C4) (flatten [seq removed_with chi | chi <- P])
    & R = [seq emitted_for chi | chi <- P].
Proof.
exact: (@real_character_folding Qi pop_first_char gap_C4 _ [:: 1; 1; 1; 1] 4
          [:: [:: 0; 1; 2; 3]; [:: 1; 2; 3; 0]; [:: 2; 3; 0; 1]; [:: 3; 0; 1; 2]]
          3 pop_first_char_mem (erefl _) (erefl _)).
Defined.

Lemma character_table_rows_in_bounds_witness :
  let R := (value_of ([::], [::], 0, [::], 0)
              (_characters pop_first_char gap_C4)).1.1.1.1 in
  [/\ character_table pop_first_char gap_C4 = Ok R,
      automorphism_group_order pop_first_char gap_C4 = Ok 4,
      all (fun r : seq Qi => size r == 4) R &
      forall i t, i < size R -> t < 4 ->
        exists2 char, getitem R i = Ok char & is_ok (getitem char t)].
Proof.
exact: (@character_table_rows_in_bounds Qi pop_first_char gap_C4 _
          [:: 1; 1; 1; 1] 4
          [:: [:: 0; 1; 2; 3]; [:: 1; 2; 3; 0]; [:: 2; 3; 0; 1]; [:: 3; 0; 1; 2]]
          3 pop_first_char_mem (erefl _) (erefl _)).
Defined.

(** C3 on the code: the cover of degree 6 of 'a b c' / 'c b a' whose
    monodromy is the action of the symmetric group of three letters on
    itself by left translations is accepted by the constructor; its
    automorphism group has six elements and is not abelian, so libgap gives
    it three characters of three values each.  _characters reads six
    values of every character: it raises IndexError before any character
    is folded, and n_characters() has no value, for every choice of
    set.pop(). *)
Theorem characters_raise_on_nonabelian (pop_char : seq (seq Qi) -> seq Qi) :
  [/\ init base_abc_cba 6 (_permut_cover cover_regular_S3) = Ok cover_regular_S3,
      size (automorphism_group cover_regular_S3) = Order gap_S3,
      not_abelian (automorphism_group cover_regular_S3),
      _characters pop_char gap_S3 = Raise IndexError
    & n_characters pop_char gap_S3 = Raise IndexError].
Proof. by split; vm_compute. Qed.

(* --------------------------------------------------------------------- *)
(* One-line lists and permutations of the ordinals                       *)
(* --------------------------------------------------------------------- *)

Section ListPermTheory.
Variable d : nat.
Variable p : seq nat.
Hypothesis pP : is_permutation d p.

Lemma is_permutation_size : size p = d.
Proof. by rewrite (perm_size pP) size_iota. Qed.

Lemma is_permutation_uniq : uniq p.
Proof. by rewrite (perm_uniq pP) iota_uniq. Qed.

Lemma is_permutation_mem (x : nat) : (x \in p) = (x < d).
Proof. by rewrite (perm_mem pP) mem_iota add0n. Qed.

Lemma lfunE (i : 'I_d) : val (lfun p i) = nth 0 p i.
Proof.
rewrite /lfun val_insubd -is_permutation_mem mem_nth //.
by rewrite is_permutation_size.
Qed.

Lemma lfun_inj : injective (@lfun d p).
Proof.
move=> i j /(congr1 val); rewrite !lfunE => /eqP.
rewrite nth_uniq ?is_permutation_size ?is_permutation_uniq //.
by move/eqP/val_inj.
Qed.

Lemma lpermE (i : 'I_d) : lperm d p i = lfun p i.
Proof.
rewrite /lperm -pvalE insubdK ?ffunE //.
by apply/injectiveP => x y; rewrite !ffunE; apply: lfun_inj.
Qed.

Lemma lperm_val (i : 'I_d) : val (lperm d p i) = nth 0 p i.
Proof. by rewrite lpermE lfunE. Qed.

Lemma lpermV_val (i : 'I_d) : val ((lperm d p)^-1%g i) = index (val i) p.
Proof.
set j := ((lperm d p)^-1)%g i; have -> : i = lperm d p j by rewrite permKV.
rewrite lperm_val index_uniq ?is_permutation_uniq //.
by rewrite is_permutation_size.
Qed.

End ListPermTheory.

(* --------------------------------------------------------------------- *)
(* One pass over an orbit of the base diagram                            *)
(* --------------------------------------------------------------------- *)

Section PassSpec.
Variable label : eqType.
Variable self : PermutationCover label.
Hypothesis wf : wf_monodromy self.

Let d := _degree_cover self.

Lemma covering_data_wf (a : label) :
  a \in alphabet (_base self) ->
  exists2 p, covering_data self a = Ok p & is_permutation d p.
Proof.
move=> /(allP wf); case: (covering_data self a) => // p pP.
by exists p.
Qed.

Lemma cross_spec (x : label * bool) (c : 'I_d) :
  x.1 \in alphabet (_base self) ->
  cross self x c = Ok (val (cross_perm self x c)).
Proof.
move=> /covering_data_wf [p pE pP]; rewrite /cross /cross_perm pE /=.
case: x.2.
  by rewrite /py_index (is_permutation_mem pP) ltn_ord (lpermV_val pP).
by rewrite (getitem_nth 0) ?(is_permutation_size pP) // (lperm_val pP).
Qed.

Lemma one_pass_spec (sign : bool) (orbit : seq (label * bool)) (c : 'I_d)
    (sing : seq (entry label)) :
  all (fun x => x.1 \in alphabet (_base self)) orbit ->
  one_pass self sign orbit c sing
  = Ok (val (orbit_perm self orbit c), sing ++ pass_trace self sign orbit c).
Proof.
elim: orbit c sing => [|x orbit IHo] c sing /=.
  by rewrite perm1 cats0.
case/andP=> xA oA; rewrite cross_spec //= IHo // permM.
by rewrite -cats1 -catA.
Qed.

Lemma size_pass_trace (sign : bool) (orbit : seq (label * bool)) (c : 'I_d) :
  size (pass_trace self sign orbit c) = size orbit.
Proof. by elim: orbit c => //= x o IHo c; rewrite IHo. Qed.

End PassSpec.

(* --------------------------------------------------------------------- *)
(* The inner loop of interval_diagram                                    *)
(* --------------------------------------------------------------------- *)

Section FollowSpec.
Variable label : eqType.
Variable self : PermutationCover label.
Hypothesis wf : wf_monodromy self.
Variable sign : bool.
Variable orbit : seq (label * bool).
Hypothesis orbitA : all (fun x => x.1 \in alphabet (_base self)) orbit.

Let d := _degree_cover self.
Let s : {perm 'I_d} := orbit_perm self orbit.

Lemma iter_porbit_inj (x : 'I_d) (j1 j2 : nat) :
  j1 < #|porbit s x| -> j2 < #|porbit s x| ->
  iter j1 s x = iter j2 s x -> j1 = j2.
Proof.
move=> lt1 lt2 /eqP; rewrite -(nth_traject s lt1) -(nth_traject s lt2).
by rewrite nth_uniq ?size_traject ?uniq_traject_porbit // => /eqP.
Qed.

(* the copies visited by the passes i+1, ..., i+n from x *)
Let later (x : 'I_d) (i n : nat) : seq nat :=
  [seq val y | y <- traject s (iter i.+1 s x) n].

Lemma follow_spec (x : 'I_d) (n i fuel : nat) (sing : seq (entry label))
    (copies : seq nat) :
  i + n.+1 = #|porbit s x| -> n < fuel -> uniq copies ->
  {subset later x i n <= copies} ->
  follow fuel self sign orbit x (iter i s x) sing copies
  = Ok (sing ++ flatten [seq pass_trace self sign orbit y
                           | y <- traject s (iter i s x) n.+1],
        [seq z <- copies | z \notin later x i n]).
Proof.
elim: n i fuel sing copies => [|n IHn] i [|fuel] sing copies // mE lt_n Uc sub.
  rewrite /= one_pass_spec //= -/s -iterS -addn1 mE iter_porbit eqxx cats0.
  by congr (Ok (_, _)); apply/esym/all_filterP/allP.
rewrite /= one_pass_spec //= -/s -iterS.
have lt_i1 : i.+1 < #|porbit s x| by rewrite -mE !addnS !ltnS leq_addr.
have lt_0 : 0 < #|porbit s x| by rewrite -mE addnS.
have -> : (val (iter i.+1 s x) == val x) = false.
  apply/negbTE/eqP => /val_inj E.
  by have := @iter_porbit_inj x i.+1 0 lt_i1 lt_0 E.
have y_in : val (iter i.+1 s x) \in copies.
  by apply: sub; rewrite /later /= inE eqxx.
rewrite /set_remove y_in /=.
have sub' : {subset later x i.+1 n <= rem (val (iter i.+1 s x)) copies}.
  move=> z /mapP [y /trajectP [k lt_k yE] ->].
  rewrite mem_rem_uniq // inE /=; apply/andP; split; last first.
    apply: sub; apply/mapP; exists y => //=; rewrite inE -iterS.
    by apply/orP; right; apply/trajectP; exists k.
  apply/eqP => /val_inj E; move: yE; rewrite -iterD => yE; rewrite yE in E.
  have /eqP : k + i.+2 = i.+1.
    apply: (@iter_porbit_inj x (k + i.+2) i.+1) => //.
    by rewrite -mE; move/ltP: lt_k => lt_k; apply/ltP; rewrite -!plusE; lia.
  by rewrite addnS -addSn -[X in _ == X]add0n eqn_add2r.
rewrite (IHn i.+1) ?rem_uniq //; first by rewrite addSnnS.
rewrite -catA /=; congr (Ok (_ ++ _ ++ _, _)).
rewrite rem_filter // -filter_predI; apply: eq_filter => z /=.
by rewrite /later /= inE negb_or -iterS andbC.
Qed.

End FollowSpec.

(* --------------------------------------------------------------------- *)
(* The loop over the copies                                              *)
(* --------------------------------------------------------------------- *)

Section LiftSpec.
Variable label : eqType.
Variable pop : seq nat -> nat.
Hypothesis pop_mem : forall s, s != [::] -> pop s \in s.
Variable self : PermutationCover label.
Hypothesis wf : wf_monodromy self.
Variable sign : bool.
Variable orbit : seq (label * bool).
Hypothesis orbitA : all (fun x => x.1 \in alphabet (_base self)) orbit.

Let d := _degree_cover self.
Let s : {perm 'I_d} := orbit_perm self orbit.

(* the singularity traced from the copies ys, one pass each *)
Let traced (ys : seq 'I_d) : seq (entry label) :=
  flatten [seq pass_trace self sign orbit y | y <- ys].

Lemma porbit_seq (x : 'I_d) : porbit s x =i traject s x #|porbit s x|.
Proof. exact: porbit_traject. Qed.

Lemma lift_orbit_cons (fuel c0 : nat) (cs : seq nat)
    (sings : seq (seq (entry label))) :
  let copies := c0 :: cs in
  lift_orbit pop fuel.+1 self sign orbit copies sings
  = (r <-- follow (size (rem (pop copies) copies)).+1 self sign orbit
             (pop copies) (pop copies) [::] (rem (pop copies) copies) ;;
     lift_orbit pop fuel self sign orbit r.2 (rcons sings r.1)).
Proof.
move=> copies; with_strategy opaque [follow] (rewrite /=).
by case: (follow _ _ _ _ _ _ _ _) => // -[].
Qed.

Lemma lift_orbit_spec (fuel : nat) (copies : seq nat) :
  uniq copies -> all (fun c => c < d) copies ->
  (forall y : 'I_d, val y \in copies -> val (s y) \in copies) ->
  size copies <= fuel ->
  exists pieces : seq (seq 'I_d),
    [/\ forall sings, lift_orbit pop fuel self sign orbit copies sings
                      = Ok (sings ++ [seq traced ys | ys <- pieces]),
        perm_eq [seq val y | y <- flatten pieces] copies &
        all (fun ys : seq 'I_d =>
               if ys is y :: _ then ys == traject s y #|porbit s y| else false)
            pieces].
Proof.
elim: fuel copies => [|fuel IHf] copies Uc ltd closed.
  case: copies Uc ltd closed => // _ _ _ _; exists [::]; split=> // sings.
  by rewrite /= cats0.
case: copies Uc ltd closed => [|c0 cs] Uc ltd closed szc.
  by exists [::]; split=> // sings; rewrite /= cats0.
set copies := c0 :: cs in Uc ltd closed szc *.
have xin : pop copies \in copies by apply: pop_mem.
have xd : pop copies < d by apply: (allP ltd).
pose x : 'I_d := Ordinal xd.
set m := #|porbit s x|.
have m_gt0 : 0 < m by rewrite lt0n card_porbit_neq0.
set T := traject s x m.
have UT : uniq T by apply: uniq_traject_porbit.
have iter_in k : val (iter k s x) \in copies.
  by elim: k => [|k IHk] //=; apply: closed.
have Tsub : {subset [seq val y | y <- T] <= copies}.
  by move=> z /mapP [y /trajectP [k _ ->] ->].
have TE : T = x :: traject s (s x) m.-1.
  by rewrite /T -(prednK m_gt0).
have UvT : uniq [seq val y | y <- T] by rewrite (map_inj_uniq val_inj).
have later_sub :
    {subset [seq val y | y <- traject s (iter 1 s x) m.-1] <= rem (val x) copies}.
  move=> z zin; rewrite mem_rem_uniq // inE /=; apply/andP; split.
    by move: UvT; rewrite TE /= => /andP [/memPn/(_ _ zin)].
  by apply: Tsub; rewrite TE /= inE zin orbT.
have lt_fuel : m.-1 < (size (rem (val x) copies)).+1.
  rewrite ltnS -(size_traject s (iter 1 s x) m.-1) -(size_map val).
  apply: uniq_leq_size later_sub.
  by move: UvT; rewrite TE /= => /andP [].
have mE : 0 + m.-1.+1 = #|porbit s x| by rewrite add0n prednK.
have := follow_spec wf sign orbitA [::] mE lt_fuel (rem_uniq _ Uc) later_sub.
rewrite cat0s [iter 0 s x]/= prednK // -/T.
set copies' := [seq z <- _ | _] => followE.
have copies'E z : (z \in copies') = (z \in copies) && (z \notin [seq val y | y <- T]).
  rewrite mem_filter mem_rem_uniq // inE /= TE /= inE negb_or.
  by rewrite andbCA andbA [(z \in _) && _]andbC -!andbA.
have U' : uniq copies' by rewrite filter_uniq // rem_uniq.
have L' : all (fun c => c < d) copies'.
  by apply/allP => z; rewrite copies'E => /andP [/(allP ltd)].
have C' (y : 'I_d) : val y \in copies' -> val (s y) \in copies'.
  rewrite !copies'E !(mem_map val_inj) => /andP [yin ynT].
  rewrite closed //=; apply: contra ynT.
  rewrite -!porbit_seq -!eq_porbit_mem.
  by have := porbit_perm s 1 y; rewrite expg1 => ->.
have S' : size copies' <= fuel.
  rewrite -ltnS; apply: leq_ltn_trans szc.
  rewrite size_filter (leq_trans (count_size _ _)) //.
  by rewrite size_rem.
have [pieces [E permP orbP]] := IHf copies' U' L' C' S'.
exists (T :: pieces); split.
- move=> sings; rewrite lift_orbit_cons -/copies -[pop copies]/(val x) followE.
  rewrite [bind _ _](_ : _ = lift_orbit pop fuel self sign orbit copies'
                                 (rcons sings (traced T))) //.
  by rewrite E -cats1 -catA.
- rewrite /= map_cat; apply: uniq_perm => //.
    rewrite cat_uniq UvT (perm_uniq permP) U' andbT.
    by apply/hasPn => z; rewrite (perm_mem permP) copies'E => /andP [].
  move=> z; rewrite mem_cat (perm_mem permP) copies'E.
  case zT: (z \in [seq val y | y <- T]); first by rewrite Tsub.
  by rewrite andbT.
- by rewrite /= orbP andbT TE /= -TE /T /m eqxx.
Qed.

End LiftSpec.

(* --------------------------------------------------------------------- *)
(* The starting copies of the passes                                     *)
(* --------------------------------------------------------------------- *)

Lemma chunk_heads (L : nat) (chunks : seq (seq nat)) :
  0 < L -> all (fun c => size c == L) chunks ->
  [seq nth 0 (flatten chunks) (k * L) | k <- iota 0 (size (flatten chunks) %/ L)]
  = [seq head 0 c | c <- chunks].
Proof.
move=> L0; elim: chunks => [|c cs IHc] /=; first by rewrite div0n.
case/andP=> /eqP szc szcs.
rewrite size_cat szc divnDl ?dvdnn // divnn L0 add1n /= mul0n.
congr (_ :: _); first by case: c szc L0 => // <-.
rewrite -IHc // (iotaDl 1 0) -map_comp; apply: eq_map => k /=.
by rewrite nth_cat szc add1n mulSn ltnNge leq_addr /= addKn.
Qed.

Section DiagramSpec.
Variable label : eqType.
Variable pop : seq nat -> nat.
Hypothesis pop_mem : forall s, s != [::] -> pop s \in s.
Variable self : PermutationCover label.
Hypothesis wf : wf_monodromy self.

Let d := _degree_cover self.

Lemma pass_trace_copies (sign : bool) (orbit : seq (label * bool)) (c : 'I_d) :
  orbit != [::] ->
  head 0 [seq entry_copy e | e <- pass_trace self sign orbit c] = val c.
Proof. by case: orbit => // x o _ /=; case: sign. Qed.

Lemma pass_starts_traced (sign : bool) (orbit : seq (label * bool))
    (ys : seq 'I_d) :
  orbit != [::] ->
  pass_starts (size orbit)
    (flatten [seq pass_trace self sign orbit y | y <- ys])
  = [seq val y | y <- ys].
Proof.
move=> o0; rewrite /pass_starts map_flatten -map_comp chunk_heads.
- by rewrite lt0n size_eq0.
- by apply/allP => c /mapP [y _ ->] /=; rewrite size_map size_pass_trace.
- by rewrite -map_comp; apply: eq_map => y /=; rewrite pass_trace_copies.
Qed.

Lemma lift_of_orbit_spec (sign : bool) (orbit : seq (label * bool))
    (sings : seq (seq (entry label))) :
  wf_orbit self orbit ->
  exists new : seq (seq (entry label)),
    [/\ lift_orbit pop d self sign orbit (iota 0 d) sings = Ok (sings ++ new),
        lift_of_orbit pop self sign orbit = Ok new &
        perm_eq (flatten [seq pass_starts (size orbit) sg | sg <- new])
                (iota 0 d)].
Proof.
case/andP=> o0 oA.
have U : uniq (iota 0 d) by apply: iota_uniq.
have L : all (fun c => c < d) (iota 0 d).
  by apply/allP => c; rewrite mem_iota.
have C (y : 'I_d) : val y \in iota 0 d -> val (orbit_perm self orbit y) \in iota 0 d.
  by rewrite !mem_iota /= !add0n.
have S : size (iota 0 d) <= d by rewrite size_iota.
have [pieces [E permP _]] := lift_orbit_spec pop_mem wf sign oA U L C S.
exists [seq flatten [seq pass_trace self sign orbit y | y <- ys] | ys <- pieces].
split=> //; first by rewrite /lift_of_orbit E.
suff -> : flatten [seq pass_starts (size orbit) sg
                      | sg <- [seq flatten [seq pass_trace self sign orbit y | y <- ys]
                                 | ys <- pieces]]
          = [seq val y | y <- flatten pieces] by [].
rewrite map_flatten -map_comp; congr flatten.
by apply: eq_map => ys /=; rewrite pass_starts_traced.
Qed.

End DiagramSpec.

(* --------------------------------------------------------------------- *)
(* The loop over the orbits of the base diagram                          *)
(* --------------------------------------------------------------------- *)

Section DiagramSpec2.
Variable label : eqType.
Variable pop : seq nat -> nat.
Hypothesis pop_mem : forall s, s != [::] -> pop s \in s.
Variable self : PermutationCover label.
Hypothesis wf : wf_monodromy self.

Let d := _degree_cover self.

Lemma lift_orbits_spec (sign : bool) (diag : seq (seq (label * bool)))
    (sings : seq (seq (entry label))) :
  all (wf_orbit self) diag ->
  exists lifts : seq (seq (seq (entry label))),
    [/\ lift_orbits pop self sign diag sings = Ok (sings ++ flatten lifts),
        size lifts = size diag &
        forall k, k < size diag ->
          let orbit := nth [::] diag k in
          lift_of_orbit pop self sign orbit = Ok (nth [::] lifts k) /\
          perm_eq (flatten [seq pass_starts (size orbit) sg | sg <- nth [::] lifts k])
                  (iota 0 d)].
Proof.
elim: diag sings => [|orbit diag IHd] sings /=.
  by move=> _; exists [::]; rewrite /= cats0.
case/andP=> wfo /IHd IH.
have [new [E E0 permP]] := lift_of_orbit_spec pop_mem wf sign sings wfo.
have [lifts [El szl liftsP]] := IH (sings ++ new).
exists (new :: lifts); split.
- case/andP: wfo => o0 _; case: orbit o0 E {E0 permP} => // x o' _ E.
  by rewrite /getitem /= E /= El catA.
- by rewrite /= szl.
- by case=> [|k] //= /liftsP.
Qed.



End DiagramSpec2.

(* --------------------------------------------------------------------- *)
(* Termination of interval_diagram                                       *)
(* --------------------------------------------------------------------- *)

Section Termination.
Variable label : eqType.
Variable pop : seq nat -> nat.
Hypothesis pop_mem : forall s, s != [::] -> pop s \in s.
Variable self : PermutationCover label.

Lemma one_pass_terminates (sign : bool) (orbit : seq (label * bool)) (c : nat)
    (sing : seq (entry label)) :
  one_pass self sign orbit c sing <> Diverge.
Proof.
elim: orbit c sing => [|x orbit IHo] c sing //=.
rewrite /cross /covering_data /rank /py_index /getitem.
case: ifP => //= _; case: (drop _ _) => //= p _.
by case: x.2; [case: ifP | case: (drop _ _)] => //= *; apply: IHo.
Qed.

Lemma follow_terminates (fuel : nat) (sign : bool) (orbit : seq (label * bool))
    (d_init c : nat) (sing : seq (entry label)) (copies : seq nat) :
  size copies < fuel ->
  match follow fuel self sign orbit d_init c sing copies with
  | Ok r => size r.2 <= size copies
  | Raise _ => true
  | Diverge => false
  end.
Proof.
elim: fuel c sing copies => [|fuel IHf] c sing copies //= lt_f.
case E: (one_pass _ _ _ _ _) => [[c' sing']|e|] //=; last first.
  by have := @one_pass_terminates sign orbit c sing; rewrite E.
case: ifP => //= _; rewrite /set_remove; case: ifP => //= c'in.
have szr : size (rem c' copies) = (size copies).-1 by rewrite size_rem.
have lt_r : size (rem c' copies) < fuel.
  by rewrite szr; case: (copies) c'in lt_f.
have := IHf c' sing' _ lt_r; case: (follow _ _ _ _ _ _ _ _) => //= r le_r.
by rewrite (leq_trans le_r) // szr leq_pred.
Qed.

Lemma lift_orbit_terminates (fuel : nat) (sign : bool)
    (orbit : seq (label * bool)) (copies : seq nat)
    (sings : seq (seq (entry label))) :
  size copies <= fuel ->
  lift_orbit pop fuel self sign orbit copies sings <> Diverge.
Proof.
elim: fuel copies sings => [|fuel IHf] [|c0 cs] sings // szc.
set copies := c0 :: cs; rewrite lift_orbit_cons -/copies.
have xin : pop copies \in copies by apply: pop_mem.
have szr : size (rem (pop copies) copies) <= fuel by rewrite size_rem.
have := @follow_terminates (size (rem (pop copies) copies)).+1 sign orbit
          (pop copies) (pop copies) [::] (rem (pop copies) copies) (ltnSn _).
case: (follow _ _ _ _ _ _ _ _) => //= -[sg copies'] /= le_c.
by apply: IHf; apply: leq_trans le_c szr.
Qed.

Lemma lift_orbits_terminates (sign : bool) (diag : seq (seq (label * bool)))
    (sings : seq (seq (entry label))) :
  lift_orbits pop self sign diag sings <> Diverge.
Proof.
elim: diag sings => [|orbit diag IHd] sings //=.
rewrite /getitem; case: (drop 0 orbit) => //= _ _.
have := @lift_orbit_terminates (_degree_cover self) sign orbit
          (iota 0 (_degree_cover self)) sings.
rewrite size_iota => /(_ (leqnn _)).
by case: (lift_orbit _ _ _ _ _ _ _) => [sings' _|e _|] //=; apply: IHd.
Qed.

End Termination.

(* --------------------------------------------------------------------- *)
(* interval_diagram: the orbits close and share out the copies           *)
(* --------------------------------------------------------------------- *)

Section IntervalDiagram.
Variable label : eqType.
Variable pop : seq nat -> nat.

(* interval_diagram returns or raises, whatever the cover is *)
Lemma interval_diagram_terminates (self : PermutationCover label)
    (glue_ends sign : bool) :
  (forall s, s != [::] -> pop s \in s) ->
  interval_diagram pop self glue_ends sign <> Diverge.
Proof. by move=> pop_mem; apply: lift_orbits_terminates. Qed.


End IntervalDiagram.

Lemma pop_first_mem (s : seq nat) : s != [::] -> pop_first s \in s.
Proof. by case: s => // x s _; rewrite inE eqxx. Qed.


(* --------------------------------------------------------------------- *)
(* profile: the bijection around an orbit of the base                    *)
(* --------------------------------------------------------------------- *)

Section ListOfPerm.
Variable d : nat.
Implicit Types (s t : {perm 'I_d}) (p q : seq nat).

Lemma map_iota_ord (A : Type) (f : nat -> A) :
  [seq f i | i <- iota 0 d] = [seq f (val i) | i <- enum 'I_d].
Proof. by rewrite -val_enum_ord -map_comp. Qed.

Lemma list_of_permP s : is_permutation d (list_of_perm s).
Proof.
apply: uniq_perm; rewrite ?iota_uniq //.
  rewrite /list_of_perm map_inj_uniq ?enum_uniq //.
  by move=> i j /val_inj /perm_inj.
move=> x; rewrite mem_iota add0n /=; apply/mapP/idP => [[i _ ->]|lt_x].
  exact: ltn_ord.
exists ((s^-1)%g (Ordinal lt_x)); first by rewrite mem_enum.
by rewrite permKV.
Qed.

Lemma nth_list_of_perm s (i : 'I_d) : nth 0 (list_of_perm s) i = val (s i).
Proof.
rewrite /list_of_perm (nth_map i) ?size_enum_ord ?nth_ord_enum //.
Qed.

Lemma lperm_list_of_perm s : lperm d (list_of_perm s) = s.
Proof.
apply/permP => i; apply: val_inj.
by rewrite (lperm_val (list_of_permP s)) nth_list_of_perm.
Qed.

Lemma image_lperm p (i : 'I_d) :
  is_permutation d p -> image p i = val (lperm d p i).
Proof.
move=> pP; rewrite (lperm_val pP) /image; apply: set_nth_default.
by rewrite (is_permutation_size pP).
Qed.

Lemma list_of_perm_lperm p : is_permutation d p -> list_of_perm (lperm d p) = p.
Proof.
move=> pP; apply: (@eq_from_nth _ 0).
  by rewrite size_map size_enum_ord (is_permutation_size pP).
move=> i; rewrite size_map size_enum_ord => lt_i.
by rewrite (nth_list_of_perm _ (Ordinal lt_i)) (lperm_val pP).
Qed.

Lemma perm_mulE p q :
  is_permutation d p -> is_permutation d q ->
  perm_mul p q = list_of_perm (lperm d p * lperm d q)%g.
Proof.
move=> pP qP.
rewrite /perm_mul (is_permutation_size pP) (is_permutation_size qP) maxnn.
rewrite map_iota_ord.
by apply: eq_map => i; rewrite permM (image_lperm _ pP) (image_lperm _ qP).
Qed.

Lemma inverseE q :
  is_permutation d q -> inverse q = list_of_perm ((lperm d q)^-1)%g.
Proof.
move=> qP; rewrite /inverse (is_permutation_size qP) map_iota_ord.
by apply: eq_map => i; rewrite (lpermV_val qP).
Qed.

Lemma identityE : identity d = list_of_perm (1%g : {perm 'I_d}).
Proof.
rewrite /identity /list_of_perm -val_enum_ord.
by apply: eq_map => i; rewrite perm1.
Qed.

End ListOfPerm.

Section ProfileSpec.
Variable label : eqType.
Variable self : PermutationCover label.
Hypothesis wf : wf_monodromy self.

Let d := _degree_cover self.

Lemma orbit_monodromy_spec (flat : seq (label * bool)) (s : {perm 'I_d}) :
  all (fun x => x.1 \in alphabet (_base self)) flat ->
  orbit_monodromy self flat (list_of_perm s)
  = Ok (list_of_perm (s * orbit_perm self flat)%g).
Proof.
elim: flat s => [|[lab sign] flat IHf] s /=; first by rewrite mulg1.
case/andP=> /(covering_data_wf wf) [p pE pP] flatA.
rewrite pE /= /Permutation (is_permutation_size pP) [perm_eq _ _]pP /=.
rewrite /cross_perm pE /= mulgA -IHf //; congr orbit_monodromy.
case: sign.
  rewrite (inverseE pP) (perm_mulE (list_of_permP s) (list_of_permP _)).
  by rewrite !lperm_list_of_perm.
by rewrite (perm_mulE (list_of_permP s) pP) lperm_list_of_perm.
Qed.

Lemma profile_of_orbit_spec (orbit : seq (glued label)) :
  all (fun x => x.1 \in alphabet (_base self)) (flatten_orbit orbit) ->
  profile_of_orbit self orbit
  = Ok [seq size orbit * c
          | c <- cycle_type (list_of_perm (orbit_perm self (flatten_orbit orbit)))].
Proof.
move=> oA; rewrite /profile_of_orbit identityE orbit_monodromy_spec //=.
by rewrite mul1g.
Qed.

End ProfileSpec.

(* --------------------------------------------------------------------- *)
(* profile and is_orientable                                             *)
(* --------------------------------------------------------------------- *)

Lemma mapM_total (A B : Type) (Q : pred A) (f : A -> res B) (h : A -> B)
    (s : seq A) :
  (forall x, Q x -> f x = Ok (h x)) -> all Q s -> mapM f s = Ok (map h s).
Proof.
move=> fh; elim: s => [|x s IHs] //= /andP [Qx Qs].
by rewrite (fh _ Qx) /= IHs.
Qed.

Section ProfileTotal.
Variable label : eqType.
Variable self : PermutationCover label.
Hypothesis wf : wf_monodromy self.
Hypothesis wfg : wf_glued self.

Lemma profile_spec :
  profile self
  = Ok (Partition (sort geq
          (flatten [seq orbit_entries self o | o <- diagram_glued (_base self)]))).
Proof.
rewrite /profile (mapM_total (h := orbit_entries self) _ wfg) //.
by move=> o oA; rewrite profile_of_orbit_spec.
Qed.

Lemma profile_mem (x : nat) (p : seq nat) :
  profile self = Ok p -> x \in p ->
  exists o c, [/\ o \in diagram_glued (_base self), x = size o * c & x != 0].
Proof.
rewrite profile_spec => -[<-]; rewrite mem_filter mem_sort => /andP [x0].
case/flattenP => es /mapP [o o_in ->] /mapP [c _ xE].
by exists o, c.
Qed.

End ProfileTotal.

Section Orientable.
Variable label : eqType.

(** C7.  For a cover whose labels all have a bijection of the copies,
    over a base whose singularities have an even number of half-turns when
    it is an interval exchange: if is_orientable() returns True then
    profile() returns a list of which every entry is even. *)
Theorem orientable_profile_even (self : PermutationCover label) :
  wf_monodromy self -> wf_glued self ->
  (isinstance_PermutationIET (_base self) ->
   all (fun orbit => ~~ odd (size orbit)) (diagram_glued (_base self))) ->
  is_orientable self = Ok true ->
  exists2 p, profile self = Ok p & all (fun x => ~~ odd x) p.
Proof.
move=> wf wfg iet; rewrite /is_orientable.
case: ifP iet => [_ /(_ isT) ev _|_ _].
  have pE := profile_spec wf wfg; eexists; first exact: pE.
  apply/allP => x x_in; have [o [c [o_in -> _]]] := profile_mem wf wfg pE x_in.
  by rewrite oddM negb_and (allP ev).
case: (profile self) => //= p; case: ifP => // /negbT.
by rewrite -all_predC => ev _; exists p.
Qed.

End Orientable.

Lemma orientable_profile_even_witness :
  exists2 p, profile cover_S3 = Ok p & all (fun x => ~~ odd x) p.
Proof.
exact: (@orientable_profile_even letter cover_S3 (erefl _) (erefl _)
          (fun _ => erefl _) (erefl _)).
Defined.

(* --------------------------------------------------------------------- *)
(* interval_diagram: every side of every copy is in a singularity        *)
(* --------------------------------------------------------------------- *)

Lemma mapM_is_ok (A B : Type) (f : A -> res B) (s : seq A) :
  all (fun x => is_ok (f x)) s -> is_ok (mapM f s).
Proof.
elim: s => [|x s IHs] //= /andP [].
by case: (f x) => //= y _ /IHs; case: (mapM f s).
Qed.

Section Covers.
Variable label : eqType.
Variable pop : seq nat -> nat.
Hypothesis pop_mem : forall s, s != [::] -> pop s \in s.
Variable self : PermutationCover label.
Hypothesis wf : wf_monodromy self.

Let d := _degree_cover self.

Lemma mem_pass_trace (sign : bool) (orbit : seq (label * bool))
    (x : label * bool) (c : 'I_d) :
  x \in orbit ->
  exists y : 'I_d, mk_entry sign x.1 x.2 c \in pass_trace self sign orbit y.
Proof.
elim: orbit c => [|x0 orbit IHo] c //; rewrite inE => /orP [/eqP ->|x_in].
  by exists c; rewrite /= inE eqxx.
have [y' y'P] := IHo c x_in.
exists ((cross_perm self x0)^-1%g y').
by rewrite /= permKV inE y'P orbT.
Qed.

Lemma lift_of_orbit_covers (sign : bool) (orbit : seq (label * bool))
    (new : seq (seq (entry label))) (x : label * bool) (c : nat) :
  wf_orbit self orbit ->
  lift_of_orbit pop self sign orbit = Ok new ->
  x \in orbit -> c < d ->
  mk_entry sign x.1 x.2 c \in flatten new.
Proof.
case/andP=> o0 oA; rewrite /lift_of_orbit.
have U : uniq (iota 0 d) by apply: iota_uniq.
have L : all (fun c => c < d) (iota 0 d).
  by apply/allP => c'; rewrite mem_iota.
have C (y : 'I_d) : val y \in iota 0 d -> val (orbit_perm self orbit y) \in iota 0 d.
  by rewrite !mem_iota /= !add0n.
have S : size (iota 0 d) <= d by rewrite size_iota.
have [pieces [E permP _]] := lift_orbit_spec pop_mem wf sign oA U L C S.
rewrite E => -[<-] x_in lt_c.
have [y yP] := mem_pass_trace sign (Ordinal lt_c) x_in.
have : val y \in [seq val z | z <- flatten pieces].
  by rewrite (perm_mem permP) mem_iota /=.
rewrite (mem_map val_inj) => /flattenP [ys ys_in y_in].
apply/flattenP; exists (flatten [seq pass_trace self sign orbit z | z <- ys]).
  by apply/mapP; exists ys.
by apply/flattenP; exists (pass_trace self sign orbit y) => //; apply/mapP; exists y.
Qed.

Lemma interval_diagram_covers (glue_ends sign : bool)
    (sings : seq (seq (entry label))) (x : label * bool) (c : nat) :
  wf_diagram self ->
  interval_diagram pop self glue_ends sign = Ok sings ->
  x \in flatten (diagram (_base self)) -> c < d ->
  has (fun sg => mk_entry sign x.1 x.2 c \in sg) sings.
Proof.
move=> wfd; rewrite /interval_diagram.
have [lifts [-> szl liftsP]] := lift_orbits_spec pop_mem wf sign [::] wfd.
case=> <- /flattenP [orbit o_in x_in] lt_c.
have lt_k : index orbit (diagram (_base self)) < size (diagram (_base self)).
  by rewrite index_mem.
have [] := liftsP _ lt_k; rewrite nth_index // => E _.
have wfo : wf_orbit self orbit by apply: (allP wfd).
have /flattenP [sg sg_in e_in] := lift_of_orbit_covers wfo E x_in lt_c.
apply/hasP; exists sg => //; apply/flattenP.
exists (nth [::] lifts (index orbit (diagram (_base self)))) => //.
by rewrite mem_nth // szl.
Qed.

End Covers.

(* --------------------------------------------------------------------- *)
(* List assignment                                                       *)
(* --------------------------------------------------------------------- *)

Lemma size_setitem (A : Type) (s s' : seq A) (i : nat) (x : A) :
  setitem s i x = Ok s' -> size s' = size s.
Proof.
rewrite /setitem; case: ifP => // lt_i [<-].
rewrite size_cat /= size_take size_drop lt_i.
by rewrite addnS -addSn subnKC.
Qed.

Lemma setitem_Ok (A : Type) (s : seq A) (i : nat) (x : A) :
  i < size s -> exists2 s', setitem s i x = Ok s' & size s' = size s.
Proof.
move=> lt_i; have := @size_setitem _ s _ i x; rewrite /setitem lt_i => sz.
by eexists; first by []; apply: sz.
Qed.

(* --------------------------------------------------------------------- *)
(* cycle_type: the cycles of a permutation                               *)
(* --------------------------------------------------------------------- *)

Section CycleType.
Variable d : nat.
Variable s : {perm 'I_d}.

Let p := list_of_perm s.

Lemma image_list_of_perm (i : 'I_d) : image p i = val (s i).
Proof.
by rewrite (image_lperm _ (list_of_permP s)) lperm_list_of_perm.
Qed.

Lemma size_list_of_perm : size p = d.
Proof. exact: is_permutation_size (list_of_permP s). Qed.

Lemma traject_val (n : nat) (i : 'I_d) :
  traject (image p) (val i) n = [seq val j | j <- traject s i n].
Proof.
by elim: n i => [|n IHn] i //=; rewrite image_list_of_perm IHn.
Qed.

Lemma card_porbit_le (i : 'I_d) : #|porbit s i| <= d.
Proof. by rewrite -[X in _ <= X]card_ord max_card. Qed.

Lemma mem_traject_porbit (i j : 'I_d) :
  (j \in traject s i d) = (j \in porbit s i).
Proof.
apply/idP/idP => [/trajectP [k _ ->]|]; first by rewrite -permX mem_porbit.
rewrite porbit_traject => /trajectP [k lt_k ->]; apply/trajectP; exists k => //.
exact: leq_trans lt_k (card_porbit_le i).
Qed.

Lemma is_cycle_minP (i : 'I_d) :
  reflect (forall j, j \in porbit s i -> i <= j) (is_cycle_min p i).
Proof.
rewrite /is_cycle_min size_list_of_perm traject_val all_map.
apply: (iffP allP) => [H j|H j]; first by rewrite -mem_traject_porbit => /H.
by rewrite mem_traject_porbit => /H.
Qed.

Lemma index_traject_porbit (i : 'I_d) (n : nat) :
  #|porbit s i|.-1 < n -> index i (traject s (s i) n) = #|porbit s i|.-1.
Proof.
set m := #|porbit s i| => lt_m.
have m_gt0 : 0 < m by rewrite lt0n card_porbit_neq0.
have -> : n = m.-1 + (n - m.-1).-1.+1.
  by rewrite prednK ?subn_gt0 // subnKC // ltnW.
rewrite trajectD index_cat.
have U := uniq_traject_porbit s i; rewrite -/m -(prednK m_gt0) /= in U.
case/andP: U => /negbTE -> _.
by rewrite size_traject -iterSr prednK // iter_porbit /= eqxx addn0.
Qed.

Lemma cycle_lengthE (i : 'I_d) : cycle_length p i = #|porbit s i|.
Proof.
rewrite /cycle_length size_list_of_perm image_list_of_perm traject_val.
rewrite (index_map val_inj) index_traject_porbit.
  by rewrite prednK ?card_porbit_le ?lt0n ?card_porbit_neq0.
by rewrite prednK ?lt0n ?card_porbit_neq0.
Qed.

(* the least points of the cycles *)
Let mins : {set 'I_d} := [set i : 'I_d | is_cycle_min p i].

Lemma porbit_mins_inj : {in mins &, injective (porbit s)}.
Proof.
move=> i j; rewrite !inE => /is_cycle_minP mi /is_cycle_minP mj E.
apply/val_inj/anti_leq; rewrite mi ?mj //.
  by rewrite E porbit_id.
by rewrite -E porbit_id.
Qed.

Lemma porbits_mins : porbits s = porbit s @: mins.
Proof.
apply/setP => O; apply/imsetP/imsetP => [[x _ ->]|[i _ ->]]; last by exists i.
have xin : x \in porbit s x by apply: porbit_id.
case: (arg_minnP (fun j : 'I_d => val j) xin) => i0 i0in i0min.
exists i0; last by apply/eqP; rewrite eq_sym eq_porbit_mem.
rewrite inE; apply/is_cycle_minP => j.
have /eqP -> : porbit s i0 == porbit s x by rewrite eq_porbit_mem.
exact: i0min.
Qed.

Lemma porbits_partition : partition (porbits s) [set: 'I_d].
Proof.
have eqv : {in [set: 'I_d] & &, equivalence_rel [rel x y | y \in porbit s x]}.
  move=> x y z _ _ _ /=; rewrite porbit_id; split=> // xy.
  by have /eqP -> : porbit s y == porbit s x by rewrite eq_porbit_mem.
congr (partition _ _): (equivalence_partitionP eqv).
apply/setP => O; apply/imsetP/imsetP => -[x _ ->]; exists x => //;
  by apply/setP => y; rewrite !inE.
Qed.

Lemma size_cycle_type : size (cycle_type p) = #|porbits s|.
Proof.
rewrite /cycle_type size_sort size_map size_filter size_list_of_perm.
have -> : iota 0 d = index_iota 0 d by rewrite /index_iota subn0.
rewrite -sum1_count big_mkord.
rewrite porbits_mins (card_in_imset porbit_mins_inj).
by rewrite -sum1_card; apply: eq_bigl => i; rewrite inE.
Qed.

Lemma sumn_cycle_type : sumn (cycle_type p) = d.
Proof.
rewrite /cycle_type.
set l := [seq _ | _ <- _].
have /perm_sumn -> : perm_eq (sort geq l) l by rewrite perm_sort.
rewrite /l.
rewrite sumnE big_map big_filter size_list_of_perm.
have -> : iota 0 d = index_iota 0 d by rewrite /index_iota subn0.
rewrite big_mkord.
rewrite -[RHS]card_ord -cardsT (card_partition porbits_partition).
rewrite porbits_mins (big_imset _ porbit_mins_inj).
by apply: eq_big => [i|i _]; rewrite ?inE // cycle_lengthE.
Qed.

Lemma cycle_type_gt0 : all (fun c => 0 < c) (cycle_type p).
Proof.
apply/allP => c; rewrite mem_sort => /mapP [i _ ->].
by rewrite /cycle_length.
Qed.

(* the parity of d minus the number of cycles is the signature *)
Lemma odd_cycle_type : odd d (+) odd (size (cycle_type p)) = odd_perm s.
Proof. by rewrite size_cycle_type /odd_perm card_ord. Qed.

End CycleType.

(* --------------------------------------------------------------------- *)
(* The signature of the bijections around the singularities              *)
(* --------------------------------------------------------------------- *)

Section Signature.
Variable label : eqType.
Variable self : PermutationCover label.

Let d := _degree_cover self.

(* the bijection of the copies of a label *)
Let sigma (a : label) : {perm 'I_d} :=
  lperm d (value_of [::] (covering_data self a)).

Lemma odd_cross_perm (x : label * bool) :
  odd_perm (cross_perm self x) = odd_perm (sigma x.1).
Proof. by rewrite /cross_perm; case: x.2; rewrite ?odd_permV. Qed.

Lemma odd_orbit_perm (flat : seq (label * bool)) :
  odd_perm (orbit_perm self flat)
  = \big[addb/false]_(x <- flat) odd_perm (sigma x.1).
Proof.
elim: flat => [|x flat IHf] /=; first by rewrite big_nil odd_perm1.
by rewrite big_cons odd_permM odd_cross_perm IHf.
Qed.

Lemma odd_all_sides (A : seq label) :
  \big[addb/false]_(x <- [seq (a, j) | a <- A, j <- [:: false; true]])
     odd_perm (sigma x.1) = false.
Proof.
elim: A => [|a A IHA] /=; first by rewrite big_nil.
by rewrite !big_cons IHA /= addbF addbb.
Qed.

(* around all the singularities of the base together, every label is
   crossed twice: the bijections around them have an even product *)
Lemma odd_glued_diagram :
  glued_complete self ->
  \big[addb/false]_(o <- diagram_glued (_base self))
     odd_perm (orbit_perm self (flatten_orbit o)) = false.
Proof.
move=> cpl; apply: etrans (odd_all_sides (alphabet (_base self))).
rewrite -(perm_big _ cpl) /= big_flatten big_map.
by apply: eq_bigr => o _; rewrite odd_orbit_perm.
Qed.

End Signature.

(* --------------------------------------------------------------------- *)
(* profile and genus                                                     *)
(* --------------------------------------------------------------------- *)

Lemma genus_arith (d SL N M t : nat) (u : Z) :
  Nat.add (Nat.mul N d) M = Nat.mul 2 t ->
  (Z.of_nat SL - 2 * Z.of_nat N = 4 * u)%Z ->
  (4 | Z.of_nat (Nat.mul d SL) - 2 * Z.of_nat M)%Z.
Proof.
move=> E1 E2.
have E1' : (Z.of_nat M = 2 * Z.of_nat t - Z.of_nat N * Z.of_nat d)%Z.
  by rewrite -Nat2Z.inj_mul; lia.
exists (Z.of_nat d * u + Z.of_nat d * Z.of_nat N - Z.of_nat t)%Z.
rewrite Nat2Z.inj_mul E1'.
have -> : Z.of_nat SL = (4 * u + 2 * Z.of_nat N)%Z by lia.
ring.
Qed.

Section Genus.
Variable label : eqType.
Variable self : PermutationCover label.
Hypothesis wf : wf_monodromy self.
Hypothesis cpl : glued_complete self.
Hypothesis nonempty : glued_nonempty self.

Let d := _degree_cover self.
Let G := diagram_glued (_base self).

(* the number of cycles around an orbit of the glued diagram *)
Let nc (o : seq (glued label)) : nat :=
  size (cycle_type (list_of_perm (orbit_perm self (flatten_orbit o)))).

Lemma glued_complete_wf : wf_glued self.
Proof.
apply/allP => o o_in; apply/allP => x x_in.
have : x \in flatten [seq flatten_orbit o' | o' <- G].
  by apply/flattenP; exists (flatten_orbit o) => //; apply/mapP; exists o.
by rewrite (perm_mem cpl) => /allpairsP [[a j] /= [a_in _ ->]].
Qed.

Lemma size_orbit_entries (o : seq (glued label)) :
  size (orbit_entries self o) = nc o.
Proof. by rewrite /orbit_entries size_map. Qed.

Lemma sumn_orbit_entries (o : seq (glued label)) :
  sumn (orbit_entries self o) = size o * d.
Proof.
rewrite /orbit_entries sumnE big_map -big_distrr /= -sumnE.
by rewrite sumn_cycle_type.
Qed.

Lemma orbit_entries_gt0 (o : seq (glued label)) :
  o \in G -> all (fun x => x != 0) (orbit_entries self o).
Proof.
move=> /(allP nonempty) o0; apply/allP => x /mapP [c c_in ->].
rewrite muln_eq0 negb_or size_eq0 o0 /= -lt0n.
exact: (allP (cycle_type_gt0 _) _ c_in).
Qed.

Lemma profile_complete :
  profile self = Ok (sort geq (flatten [seq orbit_entries self o | o <- G])).
Proof.
rewrite (profile_spec wf glued_complete_wf) /Partition; congr Ok.
apply/all_filterP; rewrite all_sort; apply/allP => x /flattenP [es].
case/mapP => o o_in -> x_in.
exact: (allP (orbit_entries_gt0 o_in)).
Qed.

Lemma odd_cycles : odd (\sum_(o <- G) (d + nc o)) = false.
Proof.
rewrite (big_morph odd oddD (erefl _)).
apply: etrans (odd_glued_diagram cpl).
by apply: eq_bigr => o _; rewrite oddD odd_cycle_type.
Qed.

Lemma profile_sumn :
  sumn (sort geq (flatten [seq orbit_entries self o | o <- G]))
  = d * sumn [seq size o | o <- G].
Proof.
set ss := [seq _ | _ <- G].
have /perm_sumn -> : perm_eq (sort geq (flatten ss)) (flatten ss).
  by rewrite perm_sort.
rewrite sumn_flatten /ss -map_comp !sumnE !big_map big_distrr /=.
by apply: eq_bigr => o _; rewrite sumn_orbit_entries mulnC.
Qed.

Lemma profile_size :
  size (sort geq (flatten [seq orbit_entries self o | o <- G]))
  = \sum_(o <- G) nc o.
Proof.
rewrite size_sort size_flatten /shape -map_comp sumnE big_map.
by apply: eq_bigr => o _ /=; rewrite size_orbit_entries.
Qed.

Lemma cycles_double :
  size G * d + \sum_(o <- G) nc o = ((\sum_(o <- G) (d + nc o))./2).*2.
Proof.
have := odd_double_half (\sum_(o <- G) (d + nc o)).
rewrite odd_cycles add0n => ->.
rewrite big_split /= big_const_seq count_predT iter_addn_0.
by rewrite mulnC.
Qed.

End Genus.

(* --------------------------------------------------------------------- *)
(* Products of transpositions and the graph of their pairs               *)
(* --------------------------------------------------------------------- *)

Section EdgeGraph.
Variable T : finType.
Implicit Types (ts : seq (T * T)) (s : {perm T}).

Lemma edges_connect_sym ts : connect_sym (edges ts).
Proof. by apply: sym_connect_sym => u v; rewrite /edges /= orbC. Qed.

Lemma edges_cons x y ts u v :
  edges ((x, y) :: ts) u v
  = [|| edges ts u v, (u == x) && (v == y) | (u == y) && (v == x)].
Proof.
rewrite /edges /= !inE !xpair_eqE [(v == x) && _]andbC.
by case: (_ \in ts); case: (_ \in ts); rewrite ?orbT ?orbF //= orbC.
Qed.

Lemma connect_edges_cons x y ts u v :
  connect (edges ((x, y) :: ts)) u v ->
  [|| connect (edges ts) u v,
      connect (edges ts) u x && connect (edges ts) y v |
      connect (edges ts) u y && connect (edges ts) x v].
Proof.
have sym := edges_connect_sym ts.
case/connectP=> p; elim: p u => [|w p IHp] u /=; first by move=> _ ->; rewrite connect0.
rewrite edges_cons => /andP [uw pP] vE; have {IHp pP vE} := IHp w pP vE.
case/or3P: uw => [uw|/andP [/eqP -> /eqP ->]|/andP [/eqP -> /eqP ->]].
- by rewrite !(same_connect1 sym uw).
- case/or3P=> [->|/andP [_ ->]|/andP [_ ->]]; rewrite ?connect0 ?orbT //.
- case/or3P=> [->|/andP [_ ->]|/andP [_ ->]]; rewrite ?connect0 ?orbT //.
Qed.

Lemma connect_edges_sub x y ts u v :
  connect (edges ts) u v -> connect (edges ((x, y) :: ts)) u v.
Proof.
by apply: connect_sub => a b ab; apply: connect1; rewrite edges_cons ab.
Qed.

Lemma connect_edges_head x y ts : connect (edges ((x, y) :: ts)) x y.
Proof. by apply: connect1; rewrite edges_cons !eqxx orbT. Qed.

(* a pair of points that are joined already adds nothing *)
Lemma n_comp_edges_joined x y ts :
  connect (edges ts) x y ->
  n_comp (edges ((x, y) :: ts)) T = n_comp (edges ts) T.
Proof.
move=> xy; apply: eq_n_comp => u v; apply/idP/idP; last exact: connect_edges_sub.
have sym := edges_connect_sym ts.
case/connect_edges_cons/or3P=> [//|/andP [ux yv]|/andP [uy xv]].
  exact: connect_trans (connect_trans ux xy) yv.
by apply: connect_trans (connect_trans uy _) xv; rewrite sym.
Qed.

(* a pair of points joins at most two components *)
Lemma n_comp_edges_cons x y ts :
  n_comp (edges ts) T <= (n_comp (edges ((x, y) :: ts)) T).+1.
Proof.
have sym := edges_connect_sym ts; have sym' := edges_connect_sym ((x, y) :: ts).
set e := edges ts; set e' := edges _.
pose rx := root e x.
have -> : n_comp e T = #|[pred z | roots e z && (z != rx)]|.+1.
  rewrite /n_comp_mem (cardD1 rx) inE roots_root //= add1n; congr _.+1.
  by apply: eq_card => z; rewrite !inE andbT andbC.
rewrite ltnS.
have inj : {in [pred z | roots e z && (z != rx)] &, injective (root e')}.
  move=> z1 z2; rewrite !inE => /andP [/eqP r1 n1] /andP [/eqP r2 n2] /(rootP sym').
  case/connect_edges_cons/or3P=> [/(rootP sym)|/andP [zx _]|/andP [_ xz]].
  - by rewrite r1 r2.
  - by move/(rootP sym): zx n1; rewrite r1 -/rx => ->; rewrite eqxx.
  - by move/(rootP sym): xz n2; rewrite r2 -/rx => <-; rewrite eqxx.
rewrite -(card_in_image inj); apply: subset_leq_card.
by apply/subsetP => _ /imageP [z _ ->]; rewrite !inE roots_root.
Qed.

End EdgeGraph.

Section Walk.
Variable T : finType.
Implicit Types (ts : seq (T * T)) (s : {perm T}).

Lemma tprod_cons x y ts : tprod ((x, y) :: ts) = (tperm x y * tprod ts)%g.
Proof. by rewrite /tprod big_cons. Qed.

Lemma tprod_cat ts1 ts2 : tprod (ts1 ++ ts2) = (tprod ts1 * tprod ts2)%g.
Proof. by rewrite /tprod big_cat. Qed.

(* a point and its image are joined *)
Lemma connect_tprod ts u : connect (edges ts) u (tprod ts u).
Proof.
elim: ts u => [|[x y] ts IHts] u; first by rewrite /tprod big_nil perm1 connect0.
rewrite tprod_cons permM.
apply: (@connect_trans _ _ (tperm x y u)); last exact/connect_edges_sub/IHts.
case: tpermP => [->|->|_ _]; rewrite ?connect0 //.
  exact: connect_edges_head.
by rewrite edges_connect_sym; exact: connect_edges_head.
Qed.

Lemma connect_porbit ts u v :
  v \in porbit (tprod ts) u -> connect (edges ts) u v.
Proof.
case/porbitP=> i ->.
elim: i => [|i IHi]; first by rewrite expg0 perm1 connect0.
by rewrite expgSr permM; apply: connect_trans IHi (connect_tprod _ _).
Qed.

Lemma card_porbits1 : #|porbits (1%g : {perm T})| = #|T|.
Proof.
rewrite /porbits card_imset ?cardsT // => x y /eqP.
by rewrite eq_porbit_mem porbit.unlock cycle1 imset_set1 /aperm perm1 inE => /eqP.
Qed.

Lemma n_comp_edges_nil : n_comp (edges [::]) T = #|T|.
Proof.
apply: eq_card => z; rewrite !inE andbT /roots; apply/eqP.
have /connectP [p pP E] := connect_root (edges [::]) z.
by case: p pP E => [_ ->|w p] //=; rewrite /edges /= !inE.
Qed.

(* the cycles of a product of transpositions, against the number of the
   transpositions and of the components of their graph *)
Lemma walk_bound ts :
  #|porbits (tprod ts)| + #|T| <= size ts + (n_comp (edges ts) T).*2.
Proof.
elim: ts => [|[x y] ts IHts].
  by rewrite /tprod big_nil card_porbits1 n_comp_edges_nil add0n addnn.
rewrite tprod_cons; have := porbits_mul_tperm (tprod ts) x y.
set c := #|porbits (tperm x y * _)|; set c' := #|porbits _| in IHts *.
case xin: (x \in porbit (tprod ts) y) => /= E.
  have xy : connect (edges ts) x y.
    by rewrite edges_connect_sym; apply: connect_porbit.
  rewrite (n_comp_edges_joined xy) addSn.
  apply: leq_trans (_ : (c' + #|T|).+1 <= _); last by rewrite ltnS.
  by rewrite -addSn leq_add2r -(addn0 c) E addnC; case: (x != y).
have c'E : c' = c.+1.
  move: E; case: (x =P y) xin => [->|_ _]; first by rewrite porbit_id.
  by move/eqP; rewrite addn1 -[_.*2]/2 addn2 eqSS => /eqP.
have := n_comp_edges_cons x y ts.
set n' := n_comp (edges ts) T; set n := n_comp _ T => le_n.
rewrite -ltnS -addSn -c'E; apply: leq_trans IHts _.
by rewrite addSn -!addnS -doubleS leq_add2l leq_double.
Qed.

(* a permutation is a product of as many transpositions as it has points
   more than cycles *)
Lemma tprod_porbits s :
  exists2 ts, s = tprod ts & size ts + #|porbits s| = #|T|.
Proof.
pose moved (u : {perm T}) := [set x | u x != x].
have [n le_n] := ubnP #|moved s|; elim: n s le_n => // n IHn s /ltnSE-le_n.
have [s1|] := eqVneq s 1%g.
  by exists [::]; rewrite s1 /tprod ?big_nil // card_porbits1.
move=> /eqP s_n1.
have [x s_x] : exists x, s x != x.
  apply/existsP; apply: contra_notT s_n1; rewrite negb_exists => /forallP fixP.
  by apply/permP => x; rewrite perm1; apply/eqP; rewrite -[_ == _]negbK.
pose y := (s^-1)%g x; pose s' := (tperm x y * s)%g.
have sE : s = (tperm x y * s')%g by rewrite mulgA tperm2 mul1g.
have fix_x : s' x = x by rewrite permM tpermL permKV.
have ne_xy : x != y by apply: contraNneq s_x => {1}->; rewrite permKV.
have [|ts s'E sz_ts] := IHn s'.
  apply: leq_trans le_n; apply: proper_card; apply/properP; split; last first.
    by exists x; rewrite inE ?s_x // fix_x eqxx.
  apply/subsetP => z; rewrite !inE permM; apply: contraNneq => sz; apply/eqP.
  case: tpermP => [->|zy|//]; first by rewrite permKV.
  by case/eqP: ne_xy; rewrite -[LHS](permKV s) -/y -zy sz.
exists ((x, y) :: ts); first by rewrite tprod_cons -s'E.
have := porbits_mul_tperm s' x y; rewrite /= -sE ne_xy.
have -> : x \notin porbit s' y.
  rewrite porbit_sym; apply/negP=> /porbitP [i]; rewrite permX.
  have -> : iter i s' x = x by elim: i => //= i ->.
  by move/eqP; rewrite eq_sym (negbTE ne_xy).
move=> /eqP; rewrite addn1 -[_.*2]/2 addn2 eqSS => /eqP cE.
by rewrite -sz_ts -cE /= addSnnS.
Qed.

End Walk.

Lemma euler_arith (N ka kb kc ca cb cc n : nat) :
  ka + ca = N -> kb + cb = N -> kc + cc = N ->
  N + N <= ka + (kb + kc) + n.*2 -> n <= 1 ->
  ca + cb + cc <= N + 2.
Proof.
move=> h1 h2 h3 /leP h4 /leP h5; apply/leP.
move: h1 h2 h3 h4 h5; rewrite -!muln2 -!plusE -!multE; lia.
Qed.

Section Euler.
Variable T : finType.
Implicit Types (a b : {perm T}).

Lemma connect_edges_subset (ts1 ts2 : seq (T * T)) u v :
  {subset ts1 <= ts2} -> connect (edges ts1) u v -> connect (edges ts2) u v.
Proof.
move=> sub; apply: connect_sub => x y /orP [] /sub in12; apply: connect1;
  by rewrite /edges /= in12 ?orbT.
Qed.

(* two permutations whose moves join any two points have, with their
   product, at most two cycles more than there are points *)
Theorem euler_perm a b :
  (forall u v, connect (relU (frel a) (frel b)) u v) ->
  #|porbits a| + #|porbits b| + #|porbits (a * b)| <= #|T| + 2.
Proof.
move=> conn.
have [tsa aE sza] := tprod_porbits a; have [tsb bE szb] := tprod_porbits b.
have [tsc cE szc] := tprod_porbits (a * b)^-1%g; rewrite porbitsV in szc.
pose ts := tsa ++ (tsb ++ tsc).
have prod1 : tprod ts = 1%g by rewrite !tprod_cat -aE -bE -cE mulgA mulgV.
have joined u v : connect (edges ts) u v.
  apply: connect_sub (conn u v) => x y /orP [] /eqP <-.
    have -> : a x = tprod tsa x by rewrite -aE.
    apply: connect_edges_subset (connect_tprod tsa x).
    by move=> t; rewrite mem_cat => ->.
  have -> : b x = tprod tsb x by rewrite -bE.
  apply: connect_edges_subset (connect_tprod tsb x).
  by move=> t; rewrite !mem_cat => ->; rewrite orbT.
have le_n : n_comp (edges ts) T <= 1.
  case: (pickP T) => [z _|T0]; last first.
    by rewrite /n_comp_mem eq_card0 // => z; have := T0 z.
  rewrite -(n_comp_connect (edges_connect_sym ts) z); apply: eq_leq.
  by apply: eq_n_comp_r => u; rewrite !inE joined.
have := walk_bound ts; rewrite prod1 card_porbits1 !size_cat.
by move=> le_w; apply: euler_arith sza szb szc le_w le_n.
Qed.

End Euler.

(* --------------------------------------------------------------------- *)
(* Counting the cycles of a permutation                                  *)
(* --------------------------------------------------------------------- *)

Section CycleCount.
Variable T : finType.
Implicit Type s : {perm T}.

Lemma porbits_cover s : partition (porbits s) [set: T].
Proof.
have eqv : {in [set: T] & &, equivalence_rel [rel x y | y \in porbit s x]}.
  move=> x y z _ _ _ /=; rewrite porbit_id; split=> // xy.
  by have /eqP -> : porbit s y == porbit s x by rewrite eq_porbit_mem.
congr (partition _ _): (equivalence_partitionP eqv).
apply/setP => O; apply/imsetP/imsetP => -[x _ ->]; exists x => //;
  by apply/setP => y; rewrite !inE.
Qed.

(* cycles of at most n points: at least #|T| / n cycles *)
Lemma card_porbits_le s (n : nat) :
  (forall x, #|porbit s x| <= n) -> #|T| <= n * #|porbits s|.
Proof.
move=> le_n; rewrite -cardsT (card_partition (porbits_cover s)).
rewrite mulnC -sum_nat_const; apply: leq_sum => O /imsetP [x _ ->].
exact: le_n.
Qed.

(* a function that is constant along the cycles takes at most as many
   values as there are cycles *)
Lemma card_invariant (Y : finType) s (K : T -> Y) :
  (forall x, K (s x) = K x) -> #|[set K x | x in [set: T]]| <= #|porbits s|.
Proof.
move=> Ks.
have Korb x y : y \in porbit s x -> K y = K x.
  by case/porbitP=> i ->; rewrite permX; elim: i => //= i <-.
pose g (y : Y) : {set T} :=
  if [pick x | K x == y] is Some x then porbit s x else set0.
have gE y : y \in [set K x | x in [set: T]] ->
    exists2 x, K x = y & g y = porbit s x.
  case/imsetP=> x0 _ yE; rewrite /g; case: pickP => [x /eqP Kx|/(_ x0)].
    by exists x.
  by rewrite yE eqxx.
have inj : {in [set K x | x in [set: T]] &, injective g}.
  move=> y1 y2 /gE [x1 <- ->] /gE [x2 <- ->] /eqP.
  by rewrite eq_porbit_mem => /Korb.
rewrite -(card_in_imset inj); apply: subset_leq_card.
by apply/subsetP => _ /imsetP [y /gE [x _ ->] ->]; apply: imset_f.
Qed.

End CycleCount.

(* --------------------------------------------------------------------- *)
(* Positions in a list of orbits                                         *)
(* --------------------------------------------------------------------- *)

Section NextPosition.
Variable sh : seq nat.
Hypothesis sh_pos : all (fun n => 0 < n) sh.

Let m := sumn sh.

Lemma orbit_size_gt0 (k : nat) : k < m -> 0 < nth 0 sh (reshape_index sh k).
Proof. by move=> lt_k; apply: (all_nthP 0 sh_pos); apply: reshape_indexP. Qed.

Lemma next_offset_lt (k : nat) :
  k < m -> (reshape_offset sh k).+1 %% nth 0 sh (reshape_index sh k)
           < nth 0 sh (reshape_index sh k).
Proof. by move=> lt_k; rewrite ltn_pmod // orbit_size_gt0. Qed.

Lemma next_position_lt (k : nat) : k < m -> next_position sh k < m.
Proof. by move=> lt_k; apply: flatten_indexP; apply: next_offset_lt. Qed.

Lemma reshape_index_next (k : nat) :
  k < m -> reshape_index sh (next_position sh k) = reshape_index sh k.
Proof. by move=> lt_k; apply: flatten_indexKl; apply: next_offset_lt. Qed.

Lemma reshape_offset_next (k : nat) :
  k < m ->
  reshape_offset sh (next_position sh k)
  = (reshape_offset sh k).+1 %% nth 0 sh (reshape_index sh k).
Proof. by move=> lt_k; apply: flatten_indexKr; apply: next_offset_lt. Qed.

Lemma next_position_inj (k k' : nat) :
  k < m -> k' < m -> next_position sh k = next_position sh k' -> k = k'.
Proof.
move=> lt_k lt_k' E.
have jE : reshape_index sh k = reshape_index sh k'.
  by rewrite -(reshape_index_next lt_k) E reshape_index_next.
have := congr1 (reshape_offset sh) E.
rewrite (reshape_offset_next lt_k) (reshape_offset_next lt_k') -jE.
rewrite -[in LHS]addn1 -[in RHS]addn1 => /eqP.
have lt_r : reshape_offset sh k < nth 0 sh (reshape_index sh k).
  exact: reshape_offsetP.
have lt_r' : reshape_offset sh k' < nth 0 sh (reshape_index sh k).
  by rewrite jE; apply: reshape_offsetP.
rewrite eqn_modDr (modn_small lt_r) (modn_small lt_r') => /eqP rE.
by rewrite -(reshape_indexK sh k) -(reshape_indexK sh k') jE rE.
Qed.

End NextPosition.

Section OtherSide.
Variable label : eqType.
Variable F : seq (label * bool).
Hypothesis UF : uniq F.
Hypothesis twinF : forall x, x \in F -> (x.1, ~~ x.2) \in F.

Lemma other_side_nth (x0 : label * bool) (k : nat) :
  k < size F -> other_side F k = index ((nth x0 F k).1, ~~ (nth x0 F k).2) F.
Proof. by move=> lt_k; rewrite /other_side (drop_nth x0). Qed.

Lemma other_side_lt (k : nat) : k < size F -> other_side F k < size F.
Proof.
move=> lt_k; have x0 : label * bool by case: (F) lt_k.
by rewrite (other_side_nth x0) // index_mem twinF // mem_nth.
Qed.

Lemma nth_other_side (x0 : label * bool) (k : nat) :
  k < size F ->
  nth x0 F (other_side F k) = ((nth x0 F k).1, ~~ (nth x0 F k).2).
Proof.
by move=> lt_k; rewrite (other_side_nth x0) // nth_index // twinF // mem_nth.
Qed.

Lemma other_sideK (k : nat) : k < size F -> other_side F (other_side F k) = k.
Proof.
move=> lt_k; have x0 : label * bool by case: (F) lt_k.
rewrite (other_side_nth x0) ?other_side_lt // nth_other_side //= negbK.
by rewrite -surjective_pairing index_uniq.
Qed.

Lemma other_side_neq (k : nat) : k < size F -> other_side F k != k.
Proof.
move=> lt_k; have x0 : label * bool by case: (F) lt_k.
apply/eqP => E; have := nth_other_side x0 lt_k; rewrite E.
by case: (nth x0 F k) => a [] [].
Qed.

End OtherSide.

(* --------------------------------------------------------------------- *)
(* The sides of the copies as a finite type, with the two permutations   *)
(* that interval_diagram and the gluing of the sides make on them        *)
(* --------------------------------------------------------------------- *)

Section OrbitPermCat.
Variable label : eqType.
Variable self : PermutationCover label.

Lemma orbit_perm_cat (o1 o2 : seq (label * bool)) :
  orbit_perm self (o1 ++ o2) = (orbit_perm self o1 * orbit_perm self o2)%g.
Proof. by elim: o1 => [|x o1 IHo] /=; rewrite ?mul1g // IHo mulgA. Qed.

Lemma orbit_perm_rcons (o : seq (label * bool)) (x : label * bool) :
  orbit_perm self (rcons o x) = (orbit_perm self o * cross_perm self x)%g.
Proof. by rewrite -cats1 orbit_perm_cat /= mulg1. Qed.

Lemma cross_perm_other (x : label * bool) :
  cross_perm self (x.1, ~~ x.2) = ((cross_perm self x)^-1)%g.
Proof. by rewrite /cross_perm /=; case: x.2; rewrite /= ?invgK. Qed.

End OrbitPermCat.

Lemma cycles_arith (V ca co coa X Y d : nat) :
  V <= ca -> X <= 2 * co -> d <= coa -> co + ca + coa <= X + 2 ->
  X <= Y + 2 * d -> V.*2 <= Y + 4.
Proof.
move=> /leP h1 /leP h2 /leP h3 /leP h4 /leP h5; apply/leP.
move: h1 h2 h3 h4 h5; rewrite -!muln2 -!plusE -!multE; lia.
Qed.

Section SurfaceSides.
Variable label : eqType.
Variable self : PermutationCover label.
Hypothesis wf : wf_monodromy self.
Hypothesis cpl : glued_complete self.
Hypothesis Ua : uniq (alphabet (_base self)).
Hypothesis sne : glued_sides_nonempty self.

Let d := _degree_cover self.
Let Fs := side_orbits self.
Let F := sides self.
Let sh := shape Fs.
Let m := size F.
Let g := size Fs.

Lemma sumn_shape_sides : sumn sh = m.
Proof. by rewrite /m /F /sides size_flatten. Qed.

Lemma shape_sides_gt0 : all (fun n => 0 < n) sh.
Proof.
rewrite /sh /shape all_map; apply: sub_all sne => o /=.
by rewrite lt0n size_eq0.
Qed.

Lemma sides_mem (x : label * bool) : (x \in F) = (x.1 \in alphabet (_base self)).
Proof.
rewrite (perm_mem cpl); apply/allpairsP/idP => [[[a j] /= [a_in _ ->]] //|x_in].
by exists x; split=> //; [case: x.2; rewrite !inE | case: (x) x_in].
Qed.

Lemma sides_uniq : uniq F.
Proof.
rewrite (perm_uniq cpl); apply: allpairs_uniq => //.
by move=> [a j] [a' j'] _ _.
Qed.

Lemma sides_other (x : label * bool) : x \in F -> (x.1, ~~ x.2) \in F.
Proof. by rewrite !sides_mem. Qed.

Lemma next_lt (k : 'I_m) : next_position sh k < m.
Proof.
have := @next_position_lt sh shape_sides_gt0 k.
by rewrite sumn_shape_sides; apply.
Qed.

Lemma other_lt (k : 'I_m) : other_side F k < m.
Proof. exact: other_side_lt sides_other _ _. Qed.

Lemma side_block_lt (k : 'I_m) : reshape_index sh k < g.
Proof.
by rewrite /g -(size_map size Fs); apply: reshape_indexP; rewrite sumn_shape_sides.
Qed.

(* the side at a position, the next position around the singularity, the
   position of the other side, and the orbit that holds it *)
Let side (k : 'I_m) : label * bool := tnth (in_tuple F) k.
Let nu (k : 'I_m) : 'I_m := Ordinal (next_lt k).
Let eps (k : 'I_m) : 'I_m := Ordinal (other_lt k).
Let block (k : 'I_m) : 'I_g := Ordinal (side_block_lt k).
Let offset (k : 'I_m) : nat := reshape_offset sh k.

(* the bijection of the copies across the side at the position k *)
Let sigma (k : 'I_m) : {perm 'I_d} := cross_perm self (side k).

Local Notation T := ('I_m * 'I_d)%type.

Let around (u : T) : T := (nu u.1, sigma u.1 u.2).
Let over (u : T) : T := (eps u.1, sigma u.1 u.2).

Lemma side_alphabet (k : 'I_m) : (side k).1 \in alphabet (_base self).
Proof. by rewrite -sides_mem /side mem_tnth. Qed.

Lemma nu_inj : injective nu.
Proof.
move=> k k' /(congr1 val) /= E; apply: val_inj.
apply: (next_position_inj shape_sides_gt0) E;
  by rewrite sumn_shape_sides.
Qed.

Lemma side_eps (k : 'I_m) : side (eps k) = ((side k).1, ~~ (side k).2).
Proof.
have x0 : label * bool := side k.
rewrite /side !(tnth_nth x0) /=.
exact: (nth_other_side sides_other x0 (ltn_ord k)).
Qed.

Lemma epsK : involutive eps.
Proof. by move=> k; apply: val_inj; apply: other_sideK sides_uniq sides_other _ _. Qed.

Lemma sigma_eps (k : 'I_m) : sigma (eps k) = ((sigma k)^-1)%g.
Proof. by rewrite /sigma side_eps cross_perm_other. Qed.

Lemma around_inj : injective around.
Proof.
move=> [k c] [k' c'] E.
have kE : k = k' by apply: nu_inj; apply: (congr1 fst E).
by have := congr1 snd E; rewrite /= -kE => /perm_inj ->.
Qed.

Lemma overK : involutive over.
Proof.
by move=> [k c]; rewrite /over /= epsK sigma_eps permK.
Qed.

Let around_perm : {perm T} := perm around_inj.
Let over_perm : {perm T} := perm (inv_inj overK).

Lemma over_around (u : T) : (over_perm * around_perm)%g u = (nu (eps u.1), u.2).
Proof. by rewrite permM !permE /around /over /= sigma_eps permK. Qed.

(* crossing a side and coming back over it: cycles of two sides of copies *)
Lemma card_over : #|{: T}| <= 2 * #|porbits over_perm|.
Proof.
apply: card_porbits_le => u.
have sub : porbit over_perm u \subset [set u; over u].
  apply/subsetP => v /porbitP [i ->]; rewrite permX.
  elim: i => [|i]; rewrite /= ?permE !inE ?eqxx // => /orP [] /eqP ->.
    by rewrite eqxx orbT.
  by rewrite overK eqxx.
by apply: leq_trans (subset_leq_card sub) _; rewrite cards2; case: (_ != _).
Qed.

(* over a side and on to the next one stays in the copy *)
Lemma card_over_around : 0 < m -> d <= #|porbits (over_perm * around_perm)|.
Proof.
move=> m_gt0.
have inv (u : T) : ((over_perm * around_perm)%g u).2 = u.2 by rewrite over_around.
apply: leq_trans (card_invariant inv).
rewrite -[X in X <= _]card_ord -cardsT; apply: subset_leq_card.
by apply/subsetP => c _; apply/imsetP; exists (Ordinal m_gt0, c).
Qed.

(* the orbit of the glued diagram at the place j, and the bijection of
   the copies around it *)
Let orbit_at (j : 'I_g) : seq (label * bool) := tnth (in_tuple Fs) j.
Let around_orbit (j : 'I_g) : {perm 'I_d} := orbit_perm self (orbit_at j).

(* the bijection of the copies from the first side of the orbit to the
   side at the position k *)
Let before (k : 'I_m) : {perm 'I_d} :=
  orbit_perm self (take (offset k) (orbit_at (block k))).

Lemma size_orbit_at (j : 'I_g) : nth 0 sh j = size (orbit_at j).
Proof. by rewrite /sh /shape (nth_map [::]) // /orbit_at (tnth_nth [::]). Qed.

Lemma offset_lt (k : 'I_m) : offset k < size (orbit_at (block k)).
Proof.
by rewrite -size_orbit_at; apply: reshape_offsetP; rewrite sumn_shape_sides.
Qed.

Lemma block_nu (k : 'I_m) : block (nu k) = block k.
Proof.
apply: val_inj; apply: (reshape_index_next shape_sides_gt0).
by rewrite sumn_shape_sides.
Qed.

Lemma offset_nu (k : 'I_m) :
  offset (nu k) = (offset k).+1 %% size (orbit_at (block k)).
Proof.
rewrite -size_orbit_at; apply: (reshape_offset_next shape_sides_gt0).
by rewrite sumn_shape_sides.
Qed.

Lemma side_offset (x0 : label * bool) (k : 'I_m) :
  side k = nth x0 (orbit_at (block k)) (offset k).
Proof. by rewrite /side (tnth_nth x0) /= nth_flatten /orbit_at (tnth_nth [::]). Qed.

Lemma before_next (k : 'I_m) :
  orbit_perm self (take (offset k).+1 (orbit_at (block k)))
  = (before k * sigma k)%g.
Proof.
by rewrite (take_nth (side k)) ?offset_lt // orbit_perm_rcons -side_offset.
Qed.

(* the cycle of the copies around the orbit that a side of a copy is on *)
Let cycle_of (u : T) : 'I_g * {set 'I_d} :=
  (block u.1, porbit (around_orbit (block u.1)) ((before u.1)^-1%g u.2)).

Lemma cycle_of_around (u : T) : cycle_of (around_perm u) = cycle_of u.
Proof.
case: u => k c; rewrite permE /cycle_of /around /= block_nu; congr (_, _).
have := offset_lt k; rewrite leq_eqVlt => /orP [/eqP last_k|lt_k].
  have nuE : before (nu k) = 1%g.
    by rewrite /before offset_nu block_nu last_k modnn take0.
  have aE : around_orbit (block k) = (before k * sigma k)%g.
    by rewrite -before_next last_k take_size.
  rewrite nuE invg1 perm1.
  have -> : sigma k c = around_orbit (block k) ((before k)^-1%g c).
    by rewrite aE permM permKV.
  by have := porbit_perm (around_orbit (block k)) 1 ((before k)^-1%g c); rewrite expg1.
have nuE : before (nu k) = (before k * sigma k)%g.
  by rewrite /before offset_nu block_nu modn_small // before_next.
by rewrite nuE invMg permM permK.
Qed.

Lemma orbit_at_gt0 (j : 'I_g) : 0 < nth 0 sh j.
Proof. by apply: (all_nthP 0 shape_sides_gt0); rewrite size_map. Qed.

Lemma start_lt (j : 'I_g) : flatten_index sh j 0 < m.
Proof. by rewrite -sumn_shape_sides; apply: flatten_indexP; apply: orbit_at_gt0. Qed.

(* the position of the first side of the orbit at the place j *)
Let start (j : 'I_g) : 'I_m := Ordinal (start_lt j).

Lemma cycle_of_start (j : 'I_g) (c : 'I_d) :
  cycle_of (start j, c) = (j, porbit (around_orbit j) c).
Proof.
have bE : block (start j) = j.
  by apply: val_inj; apply: flatten_indexKl; apply: orbit_at_gt0.
rewrite /cycle_of /= /before bE /offset /= flatten_indexKr ?orbit_at_gt0 //.
by rewrite take0 /= invg1 perm1.
Qed.

(* around the singularities: at least one cycle of sides of copies for
   every cycle of the copies around an orbit of the base *)
Lemma card_around :
  \sum_(o <- Fs) #|porbits (orbit_perm self o)| <= #|porbits around_perm|.
Proof.
rewrite big_tnth -/g.
pose Y := [set y : 'I_g * {set 'I_d} | y.2 \in porbits (around_orbit y.1)].
have -> : \sum_(j < g) #|porbits (orbit_perm self (tnth (in_tuple Fs) j))| = #|Y|.
  rewrite -sum1_card.
  transitivity (\sum_(j < g) \sum_(O | O \in porbits (around_orbit j)) 1).
    by apply: eq_bigr => j _; rewrite sum1_card.
  by rewrite pair_big_dep /=; apply: eq_bigl => y; rewrite inE.
apply: leq_trans (card_invariant cycle_of_around); apply: subset_leq_card.
apply/subsetP => -[j O]; rewrite inE /= => /imsetP [c _ ->].
by apply/imsetP; exists (start j, c); rewrite ?cycle_of_start.
Qed.

(* the sides of copies as pairs of numbers *)
Let emb (u : T) : nat * nat := (val u.1, val u.2).

Lemma emb_inj : injective emb.
Proof. by move=> [k c] [k' c'] [/val_inj -> /val_inj ->]. Qed.

Lemma across_sigma (k : 'I_m) (c : 'I_d) : across self k c = val (sigma k c).
Proof.
rewrite /across -/F (drop_nth (side k)) // -(tnth_nth _ (in_tuple F)) -/(side k).
by rewrite (cross_spec wf) ?side_alphabet.
Qed.

Lemma emb_around (u : T) : emb (around_perm u) = step_around self (emb u).
Proof. by rewrite permE /emb /step_around /= across_sigma. Qed.

Lemma emb_over (u : T) : emb (over_perm u) = step_over self (emb u).
Proof. by rewrite permE /emb /step_over /= across_sigma. Qed.

(* a step over a side or around a singularity *)
Let link : rel T := relU (frel over_perm) (frel around_perm).

Lemma link_sym : connect_sym link.
Proof. by apply: relU_sym; apply: fconnect_sym; apply: perm_inj. Qed.

Lemma reached_connect (u0 : T) (n : nat) (w : nat * nat) :
  emb u0 = (0, 0) -> w \in reached self n ->
  exists2 t : T, emb t = w & connect link u0 t.
Proof.
move=> u0E; elim: n w => [|n IHn] w.
  by rewrite /reached /= inE => /eqP ->; exists u0.
rewrite /reached iterS -/(reached self n) /grow mem_undup !mem_cat.
case/or3P=> [/IHn //|/mapP [w' /IHn [t' <- ct] ->]|/mapP [w' /IHn [t' <- ct] ->]].
  exists (around_perm t'); first by rewrite emb_around.
  by apply: connect_trans ct (connect1 _); rewrite /link /= eqxx orbT.
exists (over_perm t'); first by rewrite emb_over.
by apply: connect_trans ct (connect1 _); rewrite /link /= eqxx.
Qed.

Lemma sides_connected :
  surface_connected self -> forall u v : T, connect link u v.
Proof.
move=> sc u v.
have m_gt0 : 0 < m by apply: leq_ltn_trans (ltn_ord u.1).
have d_gt0 : 0 < d by apply: leq_ltn_trans (ltn_ord u.2).
pose u0 : T := (Ordinal m_gt0, Ordinal d_gt0).
have from0 (t : T) : connect link u0 t.
  have /(allP sc) : emb t \in [seq (k, c) | k <- iota 0 (size (sides self)),
                                            c <- iota 0 (_degree_cover self)].
    by apply: allpairs_f; rewrite mem_iota /=.
  by case/(reached_connect (u0 := u0) (erefl _)) => t' /emb_inj ->.
by apply: connect_trans (from0 v); rewrite link_sym.
Qed.

(* twice as many cycles of copies around the orbits of the base as the
   covering surface can have singularities: at most the angles (L orbits
   entries on each of the d copies) and 4 *)
Lemma cycles_bound (L : nat) :
  surface_connected self -> m <= L.+2 ->
  (\sum_(o <- Fs) #|porbits (orbit_perm self o)|).*2 <= d * L + 4.
Proof.
move=> sc le_m; have [m0|m_gt0] := posnP m.
  have -> : Fs = [::].
    have := sumn_shape_sides; have := shape_sides_gt0; rewrite m0 /sh.
    by case: (Fs) => [|o os] //=; case: (size o).
  by rewrite big_nil.
have TE : #|{: T}| = m * d by rewrite card_prod !card_ord.
have le_X : m * d <= d * L + 2 * d.
  by rewrite [d * L]mulnC -mulnDl addn2 leq_mul2r le_m orbT.
apply: (cycles_arith card_around _ (card_over_around m_gt0) _ le_X).
  by rewrite -TE; apply: card_over.
by rewrite -TE; apply: (euler_perm (sides_connected sc)).
Qed.

End SurfaceSides.

(* --------------------------------------------------------------------- *)
(* genus                                                                 *)
(* --------------------------------------------------------------------- *)

Section GenusFormula.
Variable label : eqType.
Variable self : PermutationCover label.
Hypothesis wf : wf_monodromy self.
Hypothesis cpl : glued_complete self.
Hypothesis nonempty : glued_nonempty self.

Let d := _degree_cover self.
Let G := diagram_glued (_base self).

(** C6, as the code has it.  For a cover whose labels all have a bijection
    of the copies, over a base whose glued diagram lists each side of each
    label once, has no empty orbit and satisfies the divisibility itself
    (its own sum(profile) - 2 len(profile) is a multiple of 4): profile()
    and genus() return, genus() is (sum(profile) - 2 len(profile)) / 4 + 1,
    and sum(profile) - 2 len(profile) is a multiple of 4, so the quotient
    is exact.  The genus is not negative when the covering surface is in
    one piece (every side of every copy is reached from the first side of
    the copy 0 by steps around the singularities and over the sides), for
    an alphabet of distinct letters and a glued diagram in which every
    orbit has a side and that has at most two entries fewer than it has
    sides. *)
Theorem genus_formula :
  (4 | base_defect self)%Z ->
  exists (p : seq nat) (g : Z),
    [/\ profile self = Ok p,
        genus self = Ok g,
        g = ((Z.of_nat (sumn p) - 2 * Z.of_nat (size p)) / 4 + 1)%Z,
        (4 | Z.of_nat (sumn p) - 2 * Z.of_nat (size p))%Z &
        uniq (alphabet (_base self)) -> glued_sides_nonempty self ->
        size (sides self) <= (sumn [seq size o | o <- G]).+2 ->
        surface_connected self -> (0 <= g)%Z].
Proof.
case=> u uE.
exists (sort geq (flatten [seq orbit_entries self o | o <- G])).
eexists; split; first exact: profile_complete.
- by rewrite /genus profile_complete.
- by [].
- rewrite profile_sumn // profile_size //.
  apply: (@genus_arith d _ (size G) _
            ((\sum_(o <- G) (d + size (cycle_type (list_of_perm
                (orbit_perm self (flatten_orbit o))))))./2) u).
    by rewrite -[Nat.mul]/muln -[Nat.add]/addn cycles_double // mul2n.
  by rewrite [(4 * u)%Z]Z.mul_comm -uE.
move=> Ua sne le_m sc; rewrite profile_sumn // profile_size //.
have := cycles_bound wf cpl Ua sne sc le_m.
rewrite /side_orbits big_map -/G -/d.
have -> : \sum_(o <- G) #|porbits (orbit_perm self (flatten_orbit o))|
          = \sum_(o <- G) size (cycle_type (list_of_perm
                                  (orbit_perm self (flatten_orbit o)))).
  by apply: eq_bigr => o _; rewrite size_cycle_type.
set V := \sum_(o <- G) _; set L := sumn _ => /leP.
rewrite -muln2 -plusE -!multE => le_V.
have le_Z : (-4 <= Z.of_nat (Nat.mul d L) - 2 * Z.of_nat V)%Z by lia.
have : (-1 <= (Z.of_nat (Nat.mul d L) - 2 * Z.of_nat V) / 4)%Z.
  by apply: Z.div_le_lower_bound; lia.
by rewrite -[Nat.mul]/muln; lia.
Qed.

End GenusFormula.

Lemma genus_formula_witness :
  exists (p : seq nat) (g : Z),
    [/\ profile cover_swapped = Ok p,
        genus cover_swapped = Ok g,
        g = ((Z.of_nat (sumn p) - 2 * Z.of_nat (size p)) / 4 + 1)%Z,
        (4 | Z.of_nat (sumn p) - 2 * Z.of_nat (size p))%Z &
        (0 <= g)%Z].
Proof.
have [|p [g [pE gE gF dv pos]]] :=
  @genus_formula letter cover_swapped (erefl _) (erefl _) (erefl _).
  by exists (-1)%Z.
by exists p, g; split=> //; apply: pos.
Defined.

(** C6, as it is stated, fails: the cover of degree 2 of 'a a b' / 'b c c'
    with the three monodromies equal to the identity is accepted by the
    constructor, and its genus() is -1; its surface is not in one piece. *)
Lemma genus_negative_counterexample :
  [/\ init base_aab_bcc 2 [:: [:: 0; 1]; [:: 0; 1]; [:: 0; 1]] = Ok cover_trivial,
      profile cover_trivial = Ok [:: 1; 1; 1; 1; 1; 1; 1; 1],
      genus cover_trivial = Ok (-1)%Z,
      ~ (0 <= -1)%Z &
      surface_connected cover_trivial = false].
Proof. by split. Qed.

(* --------------------------------------------------------------------- *)
(* isotypic_projection_matrix in general: the entry at the row of (d, a)  *)
(* and the column of (d', a') is the documented sum, read at the copy     *)
(* d - 1 (the last copy for d = 0) instead of the copy d                  *)
(* --------------------------------------------------------------------- *)

Section AddEntry.
Variable K : exact_field.

Lemma setitem_nth (A : Type) (x0 : A) (s s' : seq A) (i : nat) (x : A) (k : nat) :
  setitem s i x = Ok s' -> nth x0 s' k = if k == i then x else nth x0 s k.
Proof.
rewrite /setitem; case: ifP => // lt_i [<-].
rewrite nth_cat size_take lt_i; case: ltngtP => [lt_k|gt_k|->].
- by rewrite nth_take.
- rewrite -(subnSK gt_k) /= nth_drop; congr nth.
  by rewrite addSn -addnS subnSK // subnKC // ltnW.
- by rewrite subnn.
Qed.

Lemma add_entry_spec (m : seq (seq K)) (i j : nat) (x : K) :
  i < size m -> j < size (nth [::] m i) ->
  exists m',
    [/\ add_entry m i j x = Ok m',
        size m' = size m,
        forall i', size (nth [::] m' i') = size (nth [::] m i') &
        forall i' j', cell m' i' j'
          = if (i' == i) && (j' == j) then add (cell m i j) x else cell m i' j'].
Proof.
move=> lt_i lt_j; rewrite /add_entry (getitem_nth [::] lt_i) /=.
rewrite (getitem_nth (zero K) lt_j) /=.
have [row' rE sz_row] := setitem_Ok (add (nth (zero K) (nth [::] m i) j) x) lt_j.
rewrite rE /=.
have [m' mE sz_m] := setitem_Ok row' lt_i.
exists m'; split=> //.
- move=> i'; rewrite (setitem_nth [::] _ mE).
  by case: eqP => // ->.
- move=> i' j'; rewrite /cell (setitem_nth [::] _ mE).
  case: eqP => [->|] //=.
  by rewrite (setitem_nth (zero K) _ rE); case: eqP => // ->.
Qed.

End AddEntry.

Lemma eq_in_foldM (A S : Type) (P : pred A) (f g : S -> A -> res S) (s : S)
    (l : seq A) :
  (forall s' x, P x -> f s' x = g s' x) -> all P l -> foldM f s l = foldM g s l.
Proof.
move=> fg; elim: l s => [|x l IHl] s //= /andP [Px Pl].
by rewrite fg //; case: (g s x) => //= s'; apply: IHl.
Qed.

Section FoldAddEntry.
Variable K : exact_field.

(* adding the values X t, for t in ts, into the row i at the columns J t *)
Lemma fold_add_entry (ts : seq nat) (i : nat) (J : nat -> nat) (X : nat -> K)
    (m : seq (seq K)) :
  i < size m -> all (fun t => J t < size (nth [::] m i)) ts ->
  exists m',
    [/\ foldM (fun m0 t => add_entry m0 i (J t) (X t)) m ts = Ok m',
        size m' = size m,
        forall i', size (nth [::] m' i') = size (nth [::] m i') &
        forall i' j', cell m' i' j'
          = if i' == i then
              foldl (@add K) (cell m i j') [seq X t | t <- ts & J t == j']
            else cell m i' j'].
Proof.
elim: ts m => [|t ts IHt] m lt_i /=.
  by move=> _; exists m; split=> // i' j'; case: eqP => // ->.
case/andP=> lt_j lt_js.
have [m1 [-> sz1 szr1 cell1]] := add_entry_spec (X t) lt_i lt_j.
have lt_i1 : i < size m1 by rewrite sz1.
have lt_js1 : all (fun t => J t < size (nth [::] m1 i)) ts by rewrite szr1.
have [m' [E sz' szr' cell']] := IHt m1 lt_i1 lt_js1.
exists m'; split=> //=; first by rewrite sz'.
  by move=> i'; rewrite szr'.
move=> i' j'; rewrite cell'; case: eqP => [_|ne_i]; last first.
  by rewrite cell1; move/eqP/negbTE: ne_i => ->.
rewrite cell1 eqxx /= [j' == _]eq_sym.
by case: eqP => [<-|].
Qed.

End FoldAddEntry.

Lemma getitemZ_pred (A : Type) (x0 : A) (pt : seq A) (d : nat) :
  d < size pt ->
  getitemZ pt (Z.of_nat d - 1) = Ok (nth x0 pt (read_copy (size pt) d)).
Proof.
rewrite /getitemZ; case: d => [|d] lt_d.
  have -> : (0 <=? Z.of_nat 0 - 1)%Z = false by [].
  have -> : (- Z.of_nat (size pt) <=? Z.of_nat 0 - 1)%Z.
    by apply/Z.leb_le; move/ltP: lt_d; lia.
  have -> : Z.to_nat (Z.of_nat (size pt) + (Z.of_nat 0 - 1)) = (size pt).-1.
    by move/ltP: lt_d => ?; rewrite -subn1 -minusE; lia.
  by rewrite (getitem_nth x0) // prednK.
have -> : (0 <=? Z.of_nat d.+1 - 1)%Z by apply/Z.leb_le; lia.
have -> : Z.to_nat (Z.of_nat d.+1 - 1) = d by lia.
by rewrite (getitem_nth x0) // ltnW.
Qed.

Lemma eq_block (n v r v' r' : nat) :
  r < n -> r' < n -> (v * n + r == v' * n + r') = (v == v') && (r == r').
Proof.
move=> lt_r lt_r'; apply/eqP/andP => [E|[/eqP -> /eqP ->]] //.
have n_gt0 : 0 < n by apply: leq_ltn_trans lt_r.
have := congr1 (divn^~ n) E; rewrite !divnMDl // !divn_small // !addn0 => ->.
have := congr1 (modn^~ n) E; rewrite !modnMDl !modn_small // => ->.
by [].
Qed.

Section ProjectionEntries.
Variable K : exact_field.
Variable pop_char : seq (seq K) -> seq K.
Variable label : eqType.
Variable self : PermutationCover label.
Variable gap : libgap_data K.
Variables (table : seq (seq K)) (degs : seq nat) (order : nat)
          (perms : seq (seq nat)) (nreal : nat).
Variables (char : seq K) (coeff : K).

Let A := alphabet (_base self).
Let n := size A.
Let degree := _degree_cover self.

Hypothesis cE : _characters pop_char gap = Ok (table, degs, order, perms, nreal).
Hypothesis Ua : uniq A.
Hypothesis charP : order <= size char.
Hypothesis permsP : forall t, t < order ->
  [/\ t < size perms, size (nth [::] perms t) = degree &
      all (fun v => v < degree) (nth [::] perms t)].

Let idx (da : nat * label) : nat := da.1 * n + index da.2 A.
Let J (da : nat * label) (t : nat) : nat :=
  nth 0 (nth [::] perms t) (read_copy degree da.1) * n + index da.2 A.
Let X (t : nat) : K := mul coeff (nth (zero K) char t).
Let valid (da : nat * label) : bool := (da.1 < degree) && (da.2 \in A).

Lemma step_eq (da : nat * label) (m : seq (seq K)) (t : nat) :
  valid da -> t < order ->
  projection_step pop_char self gap char coeff da m t
  = add_entry m (idx da) (J da t) (X t).
Proof.
case/andP=> lt_d a_in lt_t; have [lt_tp sz_pt _] := permsP lt_t.
rewrite /projection_step /rank /py_index a_in /=.
rewrite /automorphism_group_permutation cE /= (getitem_nth [::] lt_tp) /=.
rewrite (getitemZ_pred 0) ?sz_pt //= (getitem_nth (zero K)) //.
exact: leq_trans lt_t charP.
Qed.

Lemma block_lt (v : nat) (a : label) : v < degree -> a \in A -> v * n + index a A < degree * n.
Proof.
move=> lt_v a_in; rewrite -(ltn_predK lt_v) [X in _ < X]mulSn addnC.
rewrite -addSn leq_add //; first by rewrite index_mem.
by rewrite leq_mul2r; case: (n) => //= ?; rewrite -ltnS (ltn_predK lt_v).
Qed.

Lemma idx_lt (da : nat * label) : valid da -> idx da < degree * n.
Proof. by case/andP=> ? ?; apply: block_lt. Qed.

Lemma read_copy_lt (d : nat) : d < degree -> read_copy degree d < degree.
Proof. by case: d => [|d] //= lt_d; [rewrite (ltn_predK lt_d) | apply: ltnW]. Qed.

Lemma J_lt (da : nat * label) (t : nat) :
  valid da -> t < order -> J da t < degree * n.
Proof.
case/andP=> lt_d a_in lt_t; have [_ sz_pt /allP vP] := permsP lt_t.
apply: block_lt => //; apply: vP; apply: mem_nth.
by rewrite sz_pt read_copy_lt.
Qed.

Lemma idx_inj : {in valid &, injective idx}.
Proof.
move=> [d a] [d' a'] /andP [/= _ a_in] /andP [/= _ a'_in] /eqP.
rewrite /idx /= eq_block ?index_mem // => /andP [/eqP -> /eqP E].
by congr (_, _); rewrite -(nth_index a a_in) E nth_index.
Qed.

(* the rows of a square matrix of size degree * n *)
Let square (m : seq (seq K)) : Prop :=
  size m = degree * n /\ forall i, i < degree * n -> size (nth [::] m i) = degree * n.

Lemma row_fold (da : nat * label) (m : seq (seq K)) :
  valid da -> square m ->
  exists m',
    [/\ foldM (projection_step pop_char self gap char coeff da) m (iota 0 order)
        = Ok m',
        square m' &
        forall i' j', cell m' i' j'
          = if i' == idx da then
              foldl (@add K) (cell m (idx da) j')
                    [seq X t | t <- iota 0 order & J da t == j']
            else cell m i' j'].
Proof.
move=> vda [sz szr].
have lt_ts : all (fun t => t < order) (iota 0 order).
  by apply/allP => t; rewrite mem_iota.
have -> : foldM (projection_step pop_char self gap char coeff da) m (iota 0 order)
          = foldM (fun m0 t => add_entry m0 (idx da) (J da t) (X t)) m (iota 0 order).
  by apply: eq_in_foldM lt_ts => m0 t lt_t; apply: step_eq.
have lt_i : idx da < size m by rewrite sz idx_lt.
have lt_J : all (fun t => J da t < size (nth [::] m (idx da))) (iota 0 order).
  by apply/allP => t; rewrite mem_iota /= add0n szr ?idx_lt // => /J_lt ->.
have [m' [E sz' szr' cellP]] := fold_add_entry X lt_i lt_J.
by exists m'; split=> //; split; [rewrite sz' | move=> i lt_i'; rewrite szr' szr].
Qed.

Lemma gen_fold (ps : seq (nat * label)) (m : seq (seq K)) :
  all valid ps -> uniq [seq idx da | da <- ps] -> square m ->
  exists m',
    [/\ foldM (fun m0 da =>
                 foldM (projection_step pop_char self gap char coeff da) m0
                       (iota 0 order)) m ps = Ok m',
        square m',
        forall da j', da \in ps ->
          cell m' (idx da) j'
          = foldl (@add K) (cell m (idx da) j')
                  [seq X t | t <- iota 0 order & J da t == j'] &
        forall i' j', i' \notin [seq idx da | da <- ps] ->
          cell m' i' j' = cell m i' j'].
Proof.
elim: ps m => [|da ps IHp] m /=; first by move=> _ _ sq; exists m; split.
case/andP=> vda vps /andP [da_notin Ups] sq.
have [m1 [-> sq1 cell1]] := row_fold vda sq.
have [m' [E sq' cellin cellout]] := IHp m1 vps Ups sq1.
exists m'; split=> //=.
- move=> da' j'; rewrite inE => /orP [/eqP ->|da'_in].
    by rewrite cellout // cell1 eqxx.
  rewrite cellin // cell1; case: eqP => // E'.
  by move: da_notin; rewrite -E' map_f.
- move=> i' j'; rewrite inE negb_or => /andP [/negbTE ne_i i'_notin].
  by rewrite cellout // cell1 ne_i.
Qed.

Lemma cell_nseq (N i j : nat) : cell (nseq N (nseq N (zero K))) i j = zero K.
Proof.
rewrite /cell; case: (ltnP i N) => [lt_i|le_i].
  by rewrite nth_nseq lt_i nth_nseq if_same.
by rewrite [nth [::] _ i]nth_default ?size_nseq // nth_nil.
Qed.

Lemma generator_valid : all valid (rel_homology_generator self).
Proof.
apply/allP => -[d a] /allpairsP [[d0 a0] /= [d_in a_in [-> ->]]].
by rewrite /valid /= a_in andbT; move: d_in; rewrite mem_iota.
Qed.

Lemma generator_uniq : uniq [seq idx da | da <- rel_homology_generator self].
Proof.
have inj : {in rel_homology_generator self &, injective idx}.
  by move=> x y x_in y_in; apply: idx_inj; apply: (allP generator_valid).
rewrite (map_inj_in_uniq inj).
by apply: allpairs_uniq => //; [apply: iota_uniq | move=> [d a] [d' a'] _ _].
Qed.

Lemma size_generator : size (rel_homology_generator self) = degree * n.
Proof. by rewrite size_allpairs size_iota. Qed.

(* the entry at the row of (d, a) and the column of (d', a') is the
   documented sum read at the copy read_copy degree d *)
Lemma isotypic_projection_matrix_entries (i_character deg : nat)
    (d : nat) (a : label) (d' : nat) (a' : label) :
  getitem table i_character = Ok char -> getitem degs i_character = Ok deg ->
  0 < order -> coeff = quotient K deg order ->
  d < degree -> a \in A -> d' < degree -> a' \in A ->
  exists M,
    isotypic_projection_matrix pop_char self gap i_character = Ok M /\
    cell M (d * n + index a A) (d' * n + index a' A)
    = documented_entry char coeff perms order (read_copy degree d) a d' a'.
Proof.
move=> charE degE order_gt0 coeffE lt_d a_in lt_d' a'_in.
have sq0 : square (nseq (degree * n) (nseq (degree * n) (zero K))).
  by split=> [|i lt_i]; rewrite ?size_nseq // nth_nseq lt_i size_nseq.
have [M [E _ cellin _]] := gen_fold generator_valid generator_uniq sq0.
exists M; split.
  rewrite /isotypic_projection_matrix /character_table /character_degree.
  rewrite /automorphism_group_order cE /= charE /= degE /=.
  by rewrite (negbTE (lt0n_neq0 order_gt0)) /= -coeffE size_generator.
have da_in : (d, a) \in rel_homology_generator self.
  by apply/allpairsP; exists (d, a); split=> //=; rewrite mem_iota.
rewrite [LHS](cellin (d, a)) // cell_nseq /documented_entry.
have -> : [seq X t | t <- iota 0 order & J (d, a) t == d' * n + index a' A]
   = [seq X t | t <- iota 0 order
              & (nth 0 (nth [::] perms t) (read_copy degree d) == d') && (a == a')].
  congr (map _ _); apply: eq_in_filter => t; rewrite mem_iota /= add0n => lt_t.
  rewrite /J /= eq_block ?index_mem //; congr (_ && _).
  apply/eqP/eqP => [E'|-> //].
  by rewrite -(nth_index a a_in) E' nth_index.
case: eqP => [_|_]; last by rewrite (eq_filter (a2 := pred0)) ?filter_pred0 // => t; rewrite andbF.
by rewrite (eq_filter (a2 := fun t => nth 0 (nth [::] perms t) (read_copy degree d) == d')) // => t; rewrite andbT.
Qed.

End ProjectionEntries.

(* --------------------------------------------------------------------- *)
(* rel_homology_generator and rel_homology_index                          *)
(* --------------------------------------------------------------------- *)

Section RelHomology.
Variable label : eqType.
Variable self : PermutationCover label.

Let A := alphabet (_base self).
Let n := size A.
Let degree := _degree_cover self.

Lemma nth_generator_block (x0 : nat * label) (a0 : label) (s m d r : nat) :
  d < m -> r < n ->
  nth x0 [seq (c, a) | c <- iota s m, a <- A] (d * n + r) = (s + d, nth a0 A r).
Proof.
elim: m s d => [|m IHm] s d //= lt_d lt_r.
rewrite nth_cat size_map -/n; case: d lt_d => [|d] lt_d.
  by rewrite mul0n add0n lt_r addn0 (nth_map a0).
rewrite mulSn -addnA ltnNge leq_addr /= addKn IHm //.
by rewrite addSnnS.
Qed.

Lemma size_rel_homology_generator :
  size (rel_homology_generator self) = degree * n.
Proof. by rewrite size_allpairs size_iota. Qed.

Lemma rel_homology_block_lt (d r : nat) : d < degree -> r < n -> d * n + r < degree * n.
Proof.
move=> lt_d lt_r; apply: (@leq_trans (d.+1 * n)); first by rewrite mulSn addnC ltn_add2r.
by rewrite leq_mul2r lt_d orbT.
Qed.

(** X1.  For a copy d below the degree and a label a of the alphabet,
    rel_homology_index(d, a) returns a position of rel_homology_generator(),
    and the generator at that position is (d, a). *)
Theorem rel_homology_index_generator (d : nat) (a : label) :
  d < _degree_cover self -> a \in alphabet (_base self) ->
  exists2 k, rel_homology_index self d a = Ok k
           & getitem (rel_homology_generator self) k = Ok (d, a).
Proof.
move=> lt_d a_in; exists (d * n + index a A).
  by rewrite /rel_homology_index /rank /py_index a_in.
have lt_r : index a A < n by rewrite index_mem.
rewrite (getitem_nth (d, a)) ?size_rel_homology_generator ?rel_homology_block_lt //.
by rewrite (nth_generator_block _ a) // add0n nth_index.
Qed.

(** X2.  When the letters of the alphabet are distinct, every position k of
    rel_homology_generator() is the rel_homology_index of the generator
    that stands there; a position at or after degree * len(alphabet) is
    out of range. *)
Theorem rel_homology_generator_index (k : nat) :
  uniq (alphabet (_base self)) ->
  if k < _degree_cover self * size (alphabet (_base self)) then
    exists da : nat * label,
      [/\ getitem (rel_homology_generator self) k = Ok da,
          da.1 < _degree_cover self, da.2 \in alphabet (_base self) &
          rel_homology_index self da.1 da.2 = Ok k]
  else getitem (rel_homology_generator self) k = Raise IndexError.
Proof.
move=> Ua; case: ifP => [lt_k|/negbT le_k]; last first.
  by apply: getitem_over; rewrite size_rel_homology_generator leqNgt.
have n_gt0 : 0 < n.
  by rewrite lt0n; apply/eqP => n0; move: lt_k; rewrite -/A -/n n0 muln0.
have lt_r : k %% n < n by rewrite ltn_mod.
have lt_d : k %/ n < degree by rewrite ltn_divLR // mulnC [n * _]mulnC.
have a0 : label by move: n_gt0; rewrite /n; case: (A) => [|a ?].
exists (k %/ n, nth a0 A (k %% n)); split=> //=.
- rewrite (getitem_nth (0, a0)) ?size_rel_homology_generator //.
  by rewrite {1}(divn_eq k n) (nth_generator_block _ a0).
- exact: mem_nth.
- rewrite /rel_homology_index /rank /py_index mem_nth //= index_uniq //.
  by rewrite -divn_eq.
Qed.

End RelHomology.

Lemma rel_homology_index_generator_witness :
  exists2 k, rel_homology_index cover_S3 2 La = Ok k
           & getitem (rel_homology_generator cover_S3) k = Ok (2, La).
Proof. by apply: rel_homology_index_generator. Defined.

Lemma rel_homology_generator_index_witness :
  exists da : nat * letter,
    [/\ getitem (rel_homology_generator cover_S3) 5 = Ok da,
        da.1 < 3, da.2 \in [:: La; Lb; Lc] &
        rel_homology_index cover_S3 da.1 da.2 = Ok 5].
Proof. exact: (@rel_homology_generator_index _ cover_S3 5 isT). Defined.

(* --------------------------------------------------------------------- *)
(* interval_diagram: what the flag sign changes                           *)
(* --------------------------------------------------------------------- *)

Section SignErasure.
Variable label : eqType.
Variable pop : seq nat -> nat.
Variable self : PermutationCover label.

Lemma one_pass_unsign (orbit : seq (label * bool)) (d : nat)
    (sing : seq (entry label)) :
  one_pass self false orbit d [seq unsign e | e <- sing]
  = (r <-- one_pass self true orbit d sing ;; Ok (r.1, [seq unsign e | e <- r.2])).
Proof.
elim: orbit d sing => [|x orbit IHo] d sing //=.
case: (cross self x d) => //= d'.
by rewrite -IHo map_rcons.
Qed.

Lemma follow_unsign (fuel : nat) (orbit : seq (label * bool)) (d_init d : nat)
    (sing : seq (entry label)) (copies : seq nat) :
  follow fuel self false orbit d_init d [seq unsign e | e <- sing] copies
  = (r <-- follow fuel self true orbit d_init d sing copies ;;
     Ok ([seq unsign e | e <- r.1], r.2)).
Proof.
elim: fuel d sing copies => [|fuel IHf] d sing copies //=.
rewrite one_pass_unsign; case: (one_pass self true orbit d sing) => //= -[d' sing'] /=.
by case: ifP => // _; case: (set_remove copies d') => //= copies'.
Qed.

Lemma lift_orbit_unsign (fuel : nat) (orbit : seq (label * bool))
    (copies : seq nat) (sings : seq (seq (entry label))) :
  lift_orbit pop fuel self false orbit copies [seq [seq unsign e | e <- sg] | sg <- sings]
  = (r <-- lift_orbit pop fuel self true orbit copies sings ;;
     Ok [seq [seq unsign e | e <- sg] | sg <- r]).
Proof.
elim: fuel copies sings => [|fuel IHf] [|c copies] sings //.
rewrite !lift_orbit_cons -[[::] in LHS]/(map (@unsign label) [::]) follow_unsign.
case: (follow _ _ _ _ _ _ _ _) => //= -[sing copies'] /=.
by rewrite -IHf map_rcons.
Qed.

Lemma lift_orbits_unsign (diag : seq (seq (label * bool)))
    (sings : seq (seq (entry label))) :
  lift_orbits pop self false diag [seq [seq unsign e | e <- sg] | sg <- sings]
  = (r <-- lift_orbits pop self true diag sings ;;
     Ok [seq [seq unsign e | e <- sg] | sg <- r]).
Proof.
elim: diag sings => [|orbit diag IHd] sings //=.
case: (getitem orbit 0) => //= _.
by rewrite lift_orbit_unsign; case: (lift_orbit _ _ _ _ _ _ _) => //= sings'.
Qed.

(** X3.  interval_diagram(sign=False) is interval_diagram(sign=True) with
    the sign taken out of every entry: it returns the same singularities
    with (label, d) for (label, j, d), and fails when and as the signed call
    fails; the flag glue_ends has no effect. *)
Theorem interval_diagram_unsigned (glue_ends glue_ends' : bool) :
  interval_diagram pop self glue_ends false
  = (r <-- interval_diagram pop self glue_ends' true ;;
     Ok [seq [seq unsign e | e <- sg] | sg <- r]).
Proof. exact: (lift_orbits_unsign _ [::]). Qed.

End SignErasure.

(* --------------------------------------------------------------------- *)
(* interval_diagram: the number of entries                                *)
(* --------------------------------------------------------------------- *)

Section EntryCount.
Variable label : eqType.
Variable pop : seq nat -> nat.
Hypothesis pop_mem : forall s, s != [::] -> pop s \in s.
Variable self : PermutationCover label.
Hypothesis wf : wf_monodromy self.

Let d := _degree_cover self.

Lemma lift_of_orbit_sizes (sign : bool) (orbit : seq (label * bool))
    (new : seq (seq (entry label))) :
  wf_orbit self orbit ->
  lift_of_orbit pop self sign orbit = Ok new ->
  sumn [seq size sg | sg <- new] = d * size orbit
  /\ all (fun sg : seq (entry label) => (sg != [::]) && (size orbit %| size sg)) new.
Proof.
case/andP=> orbit_ne orbitA.
have copies_closed (y : 'I_d) :
    val y \in iota 0 d -> val (orbit_perm self orbit y) \in iota 0 d.
  by move=> _; rewrite mem_iota /=.
have lt_copies : all (fun c => c < d) (iota 0 d).
  by apply/allP => c; rewrite mem_iota.
have le_fuel : size (iota 0 d) <= d by rewrite size_iota.
have [pieces [liftE piecesE piecesP]] :=
  lift_orbit_spec pop_mem wf sign orbitA (iota_uniq 0 d) lt_copies copies_closed le_fuel.
rewrite /lift_of_orbit liftE /= => -[<-].
have sz_traced (ys : seq 'I_d) :
    size (flatten [seq pass_trace self sign orbit y | y <- ys]) = size ys * size orbit.
  elim: ys => [|y ys IHy] //=.
  by rewrite size_cat IHy size_pass_trace mulSn.
split.
  rewrite -map_comp (eq_map (g := fun ys : seq 'I_d => size ys * size orbit)) //.
  have szp : size (flatten pieces) = d.
    by rewrite -(size_map val) (perm_size piecesE) size_iota.
  rewrite -[in RHS]szp.
  by elim: (pieces) => [|ys ps IHp] //=; rewrite IHp size_cat mulnDl.
rewrite all_map; apply/allP => ys /(allP piecesP) /=.
case: ys => [|y ys] // _; rewrite -size_eq0 sz_traced dvdn_mull // andbT.
by rewrite muln_eq0 negb_or /= size_eq0.
Qed.

(* the sizes of the singularities of interval_diagram *)
Lemma interval_diagram_sizes (glue_ends sign : bool) :
  wf_diagram self ->
  exists sings : seq (seq (entry label)),
    [/\ interval_diagram pop self glue_ends sign = Ok sings,
        all (fun sg : seq (entry label) => sg != [::]) sings &
        sumn [seq size sg | sg <- sings]
        = _degree_cover self * sumn [seq size o | o <- diagram (_base self)]].
Proof.
move=> wfd.
have [lifts [singsE sz_lifts liftsP]] := lift_orbits_spec pop_mem wf sign [::] wfd.
exists (flatten lifts); split=> //.
  apply/allP => sg /flattenP [new /(nthP [::]) [k lt_k <-]] sg_in.
  move: lt_k; rewrite sz_lifts => lt_k; have [liftE _] := liftsP k lt_k.
  have wfo : wf_orbit self (nth [::] (diagram (_base self)) k).
    by apply: (allP wfd); apply: mem_nth.
  have [_ /allP newP] := lift_of_orbit_sizes wfo liftE.
  by case/andP: (newP sg sg_in).
have {liftsP} : forall k, k < size (diagram (_base self)) ->
    sumn [seq size sg | sg <- nth [::] lifts k]
    = d * size (nth [::] (diagram (_base self)) k).
  move=> k lt_k; have [liftE _] := liftsP k lt_k.
  have wfo : wf_orbit self (nth [::] (diagram (_base self)) k).
    by apply: (allP wfd); apply: mem_nth.
  by have [] := lift_of_orbit_sizes wfo liftE.
rewrite -/d; elim: (diagram (_base self)) (lifts) sz_lifts {singsE wfd}
    => [|o diag IHd] [|new lifts'] //=; first by rewrite muln0.
case=> sz_lifts sumP.
rewrite map_cat sumn_cat (sumP 0) //= mulnDr; congr (_ + _).
by apply: IHd => // k lt_k; apply: (sumP k.+1).
Qed.

(** X4.  For a cover whose labels all have a bijection of the copies, over
    a base diagram with non-empty orbits on labels of the alphabet, and for
    every choice of set.pop(): interval_diagram returns singularities that
    are not empty and that hold together degree times as many entries as
    the diagram of the base. *)
Theorem interval_diagram_entry_count (glue_ends sign : bool) :
  wf_diagram self ->
  exists sings : seq (seq (entry label)),
    [/\ interval_diagram pop self glue_ends sign = Ok sings,
        all (fun sg : seq (entry label) => sg != [::]) sings &
        sumn [seq size sg | sg <- sings]
        = _degree_cover self * sumn [seq size o | o <- diagram (_base self)]].
Proof. exact: interval_diagram_sizes. Qed.

End EntryCount.

Lemma interval_diagram_entry_count_witness :
  exists sings : seq (seq (entry letter)),
    [/\ interval_diagram pop_first cover_S3 false true = Ok sings,
        all (fun sg : seq (entry letter) => sg != [::]) sings &
        sumn [seq size sg | sg <- sings] = 3 * 6].
Proof.
exact: (@interval_diagram_entry_count _ _ pop_first_mem cover_S3 isT false true isT).
Defined.

(* --------------------------------------------------------------------- *)
(* interval_diagram: an empty orbit of the base, and the degree 0         *)
(* --------------------------------------------------------------------- *)

Section EmptyOrbit.
Variable label : eqType.
Variable pop : seq nat -> nat.
Hypothesis pop_mem : forall s, s != [::] -> pop s \in s.
Variable self : PermutationCover label.

Lemma lift_orbits_cat (sign : bool) (diag1 diag2 : seq (seq (label * bool)))
    (sings : seq (seq (entry label))) :
  lift_orbits pop self sign (diag1 ++ diag2) sings
  = (sings' <-- lift_orbits pop self sign diag1 sings ;;
     lift_orbits pop self sign diag2 sings').
Proof.
elim: diag1 sings => [|orbit diag1 IHd] sings //=.
case: (getitem orbit 0) => //= _.
by case: (lift_orbit _ _ _ _ _ _ _) => //=.
Qed.

(** X5.  For a cover whose labels all have a bijection of the copies, over
    a base diagram on labels of the alphabet: if an orbit of the base
    diagram is empty, interval_diagram raises IndexError (at
    orbit[0][0]), whatever the other orbits are. *)
Theorem interval_diagram_empty_orbit (glue_ends sign : bool) :
  wf_monodromy self ->
  all (fun orbit : seq (label * bool) =>
         all (fun x => x.1 \in alphabet (_base self)) orbit) (diagram (_base self)) ->
  [::] \in diagram (_base self) ->
  interval_diagram pop self glue_ends sign = Raise IndexError.
Proof.
move=> wf labelsA empty_in; rewrite /interval_diagram.
set diag := diagram (_base self) in labelsA empty_in *.
set i := index [::] diag.
have lt_i : i < size diag by rewrite index_mem.
rewrite -(cat_take_drop i diag) lift_orbits_cat (drop_nth [::] lt_i) nth_index //.
have wf_pre : all (wf_orbit self) (take i diag).
  apply/allP => orbit orbit_in; rewrite /wf_orbit.
  have /(allP labelsA) -> : orbit \in diag by apply: mem_take orbit_in.
  rewrite andbT; case/(nthP [::]): orbit_in => k.
  rewrite size_take lt_i => lt_k; rewrite nth_take // => <-.
  by have := before_find [::] lt_k; rewrite /= eq_sym => ->.
by have [lifts [-> _ _]] := lift_orbits_spec pop_mem wf sign [::] wf_pre.
Qed.

(** X6.  A cover of degree 0 has no singularity: when no orbit of the base
    diagram is empty, interval_diagram returns the empty list. *)
Theorem interval_diagram_degree_zero (glue_ends sign : bool) :
  _degree_cover self = 0 ->
  all (fun orbit : seq (label * bool) => orbit != [::]) (diagram (_base self)) ->
  interval_diagram pop self glue_ends sign = Ok [::].
Proof.
rewrite /interval_diagram => d0.
elim: (diagram (_base self)) => [|[|x orbit] diag IHd] //= /IHd.
by rewrite d0.
Qed.

End EmptyOrbit.

Lemma interval_diagram_empty_orbit_witness :
  interval_diagram pop_first
    (mkCover (mkBase [:: La; Lb; Lc] [:: [:: La; Lb; Lc]; [:: Lc; Lb; La]] 3 true true
                [:: [:: (La, false)]; [::]] [::] [::] [::])
             3 [:: [:: 1; 0; 2]; [:: 2; 1; 0]; [:: 0; 2; 1]])
    false true
  = Raise IndexError.
Proof. by apply: interval_diagram_empty_orbit => //; apply: pop_first_mem. Defined.

Lemma interval_diagram_degree_zero_witness :
  interval_diagram pop_first (mkCover base_abc_cba 0 [:: [::]; [::]; [::]]) false true
  = Ok [::].
Proof. exact: interval_diagram_degree_zero. Defined.

(* --------------------------------------------------------------------- *)
(* homology_boundary_matrix                                               *)
(* --------------------------------------------------------------------- *)

Section BoundaryMatrix.
Variable label : eqType.
Variable self : PermutationCover label.
Hypothesis wf : wf_monodromy self.

Let A := alphabet (_base self).
Let n := size A.
Let degree := _degree_cover self.
Let N := size (rel_homology_generator self).

(* the monodromy of a label *)
Let sigma (a : label) : seq nat := value_of [::] (covering_data self a).

Lemma sigma_lt (a : label) (d : nat) :
  a \in A -> d < degree -> nth 0 (sigma a) d < degree.
Proof.
move=> a_in lt_d; have [p pE pP] := covering_data_wf wf a_in.
rewrite /sigma pE /= -(is_permutation_mem pP) mem_nth //.
by rewrite (is_permutation_size pP).
Qed.

(* what the copy d has written in border: 1 in columns of the copy d only,
   -1 in columns of the image of d only *)
Let written (d : nat) (border : seq Z) : Prop :=
  [/\ size border = N, all is_sign border &
      forall d' a, d' < degree -> a \in A ->
        let v := nth 0%Z border (d' * n + index a A) in
        (v = 1%Z -> d' = d) /\ (v = (-1)%Z -> d' = nth 0 (sigma a) d)].

Lemma written_set (d d1 : nat) (a1 : label) (v1 : Z) (border : seq Z) :
  written d border -> d1 < degree -> a1 \in A ->
  ((v1 = 1%Z /\ d1 = d) \/ (v1 = (-1)%Z /\ d1 = nth 0 (sigma a1) d)) ->
  exists2 border', setitem border (d1 * n + index a1 A) v1 = Ok border'
                 & written d border'.
Proof.
move=> [sz signs cols] lt_d1 a1_in v1P.
have lt_k : d1 * n + index a1 A < size border.
  by rewrite sz /N size_rel_homology_generator rel_homology_block_lt ?index_mem.
have [border' bE sz'] := setitem_Ok v1 lt_k.
exists border' => //; split; first by rewrite sz'.
  apply/(all_nthP 0%Z) => k; rewrite sz' => lt_k'.
  rewrite (setitem_nth 0%Z _ bE); case: ifP => _; last exact: (all_nthP 0%Z signs).
  by case: v1P => -[-> _].
move=> d' a lt_d' a_in /=; rewrite (setitem_nth 0%Z _ bE).
rewrite eq_block ?index_mem //; case: eqP => [->|_] /=; last exact: cols.
case: eqP => [E|_]; last exact: cols.
have -> : a = a1 by rewrite -(nth_index a a_in) E nth_index.
by case: v1P => -[-> ->]; split.
Qed.

Lemma boundary_row_written (d i : nat) (row : seq label) (j : nat) (border : seq Z) :
  d < degree -> all (fun a => a \in A) row ->
  j + size row <= size (nth [::] (twin_to_index (_base self)) i) ->
  written d border ->
  exists2 border', boundary_row self d i row j border = Ok border'
                 & written d border'.
Proof.
move=> lt_d; elim: row j border => [|a row IHr] j border /=; first by exists border.
case/andP=> a_in rowA; rewrite addnS -addSn => le_j wr.
have lt_i : i < size (twin_to_index (_base self)).
  by case: ltnP => // /(nth_default [::]) E; move: le_j; rewrite E.
have lt_j : j < size (nth [::] (twin_to_index (_base self)) i).
  by apply: leq_trans le_j; rewrite leq_addr.
rewrite (getitem_nth [::] lt_i) /= (getitem_nth false lt_j) /=.
have [p pE pP] := covering_data_wf wf a_in.
have sigmaE : sigma a = p by rewrite /sigma pE.
rewrite /rel_homology_index /rank /py_index a_in /= pE /=.
case: (nth false _ j).
  have [border' -> wr'] : exists2 border',
      setitem border (d * n + index a A) 1%Z = Ok border' & written d border'.
    by apply: written_set => //; left.
  exact: IHr.
rewrite (getitem_nth 0) ?(is_permutation_size pP) //=.
have [border' -> wr'] : exists2 border',
    setitem border (nth 0 p d * n + index a A) (-1)%Z = Ok border' & written d border'.
  by apply: written_set => //; [rewrite -sigmaE sigma_lt | right; rewrite sigmaE].
exact: IHr.
Qed.

Lemma boundary_of_copy_written (d : nat) :
  wf_rows self -> d < degree ->
  exists2 border, boundary_of_copy self d = Ok border & written d border.
Proof.
case/and3P=> lt_rows /andP [rows0 le0] /andP [/andP [rows1 le1] _] lt_d.
rewrite /boundary_of_copy (getitem_nth [::] (ltnW lt_rows)) /=.
have wr0 : written d (nseq N 0%Z).
  split; rewrite ?size_nseq //; first by apply/(all_nthP 0%Z) => k; rewrite size_nseq nth_nseq => ->.
  move=> d' a lt_d' a_in /=; rewrite nth_nseq.
  by case: ifP.
have [border0 -> wr1] :=
  @boundary_row_written d 0 (nth [::] (rows (_base self)) 0) 0 _ lt_d rows0 le0 wr0.
rewrite /= (getitem_nth [::] lt_rows) /=.
exact: (@boundary_row_written d 1 (nth [::] (rows (_base self)) 1) 0 _ lt_d rows1 le1 wr1).
Qed.

Lemma boundary_rows_written (ds : seq nat) :
  wf_rows self -> all (fun d => d < degree) ds ->
  exists B : seq (seq Z),
    [/\ mapM (boundary_of_copy self) ds = Ok B, size B = size ds &
        forall k, k < size ds -> written (nth 0 ds k) (nth [::] B k)].
Proof.
move=> wfr; elim: ds => [|d ds IHd] /=; first by exists [::].
case/andP=> lt_d /IHd [B [-> szB rowsP]].
have [border -> wr] := boundary_of_copy_written wfr lt_d.
by exists (border :: B); split; rewrite /= ?szB // => -[|k] //= /rowsP.
Qed.

Lemma copies_lt_degree : all (fun d => d < degree) (iota 0 degree).
Proof. by apply/allP => d; rewrite mem_iota. Qed.

(** X7.  For a cover whose labels all have a bijection of the copies, over
    a base that has its two rows on labels of the alphabet and a flag of
    _twins_and_orientation() for every position: homology_boundary_matrix
    returns a matrix with one row per copy and one column per element of
    rel_homology_generator(), and all its entries are -1, 0 or 1. *)
Theorem homology_boundary_matrix_shape :
  wf_rows self ->
  exists B : seq (seq Z),
    [/\ homology_boundary_matrix self = Ok B,
        size B = _degree_cover self,
        all (fun row : seq Z => size row == size (rel_homology_generator self)) B &
        all (all is_sign) B].
Proof.
move=> wfr; have [B [BE szB rowsP]] := boundary_rows_written wfr copies_lt_degree.
move: szB rowsP; rewrite size_iota => szB rowsP.
exists B; split=> //.
  by apply/(all_nthP [::]) => k; rewrite szB => /rowsP [-> _ _].
by apply/(all_nthP [::]) => k; rewrite szB => /rowsP [].
Qed.

(** X8.  Under the same conditions, in the row of the copy d of
    homology_boundary_matrix, an entry 1 stands only in a column (d, a) of
    the copy d itself, and an entry -1 only in a column (d', a) where d' is
    the image of d by the permutation of the label a. *)
Theorem homology_boundary_matrix_support (B : seq (seq Z)) (d d' : nat)
    (a : label) (p : seq nat) :
  wf_rows self ->
  homology_boundary_matrix self = Ok B ->
  d < _degree_cover self -> d' < _degree_cover self ->
  covering_data self a = Ok p -> a \in alphabet (_base self) ->
  let v := nth 0%Z (nth [::] B d)
             (d' * size (alphabet (_base self)) + index a (alphabet (_base self))) in
  (v = 1%Z -> d' = d) /\ (v = (-1)%Z -> d' = nth 0 p d).
Proof.
move=> wfr BE lt_d lt_d' pE a_in.
have sigmaE : sigma a = p by rewrite /sigma pE.
have [B' [B'E _ rowsP]] := boundary_rows_written wfr copies_lt_degree.
move: BE; rewrite /homology_boundary_matrix B'E => -[<-].
have := rowsP d; rewrite size_iota nth_iota // add0n => /(_ lt_d) [_ _ cols].
by rewrite -sigmaE; apply: cols.
Qed.

End BoundaryMatrix.

Lemma homology_boundary_matrix_shape_witness :
  exists B : seq (seq Z),
    [/\ homology_boundary_matrix cover_S3 = Ok B,
        size B = 3,
        all (fun row : seq Z => size row == 9) B &
        all (all is_sign) B].
Proof. exact: (@homology_boundary_matrix_shape _ cover_S3 isT isT). Defined.

Lemma homology_boundary_matrix_support_witness :
  let v := nth 0%Z (nth [::] (value_of [::] (homology_boundary_matrix cover_S3)) 0) 3 in
  (v = 1%Z -> 1 = 0) /\ (v = (-1)%Z -> 1 = nth 0 [:: 1; 0; 2] 0).
Proof.
exact: (@homology_boundary_matrix_support _ cover_S3 isT _ 0 1 La [:: 1; 0; 2]
          isT erefl isT isT erefl isT).
Defined.

(* --------------------------------------------------------------------- *)
(* homology_cycle_matrix: the rows of the matrix borders                  *)
(* --------------------------------------------------------------------- *)

Lemma mapM_nth (A B : Type) (P : A -> B -> Prop) (f : A -> res B) (x0 : A) (y0 : B)
    (s : seq A) :
  (forall k, k < size s -> exists2 y, f (nth x0 s k) = Ok y & P (nth x0 s k) y) ->
  exists r : seq B,
    [/\ mapM f s = Ok r, size r = size s &
        forall k, k < size s -> P (nth x0 s k) (nth y0 r k)].
Proof.
elim: s => [|x s IHs] fP /=; first by exists [::].
have [y -> Py] := fP 0 isT.
have [|r [-> sz rP]] := IHs; first by move=> k lt_k; apply: (fP k.+1).
by exists (y :: r); split; rewrite /= ?sz // => -[|k] //= /rP.
Qed.

Lemma eq_from_nthZ (s1 s2 : seq Z) :
  size s1 = size s2 -> (forall k, k < size s1 -> nth 0%Z s1 k = nth 0%Z s2 k) ->
  s1 = s2.
Proof.
elim: s1 s2 => [|x s1 IHs] [|y s2] //= [sz] nthP.
by rewrite -[x]/(nth 0%Z (x :: s1) 0) (nthP 0) // (IHs s2) // => k lt_k; apply: (nthP k.+1).
Qed.

Lemma sumZ_delta (s m i : nat) :
  sumZ [seq (if k == i then 1 else 0)%Z | k <- iota s m]
  = if (s <= i) && (i < s + m) then 1%Z else 0%Z.
Proof.
elim: m s => [|m IHm] s /=.
  by rewrite addn0; case: leqP => // le_s; rewrite ltnNge le_s.
rewrite IHm addSnnS; case: (ltngtP s i) => [lt_s|gt_s|->] //=.
by rewrite addnS ltnS leq_addr.
Qed.

Lemma sumZ_sub (A : Type) (f g : A -> Z) (s : seq A) :
  sumZ [seq (f x - g x)%Z | x <- s] = (sumZ (map f s) - sumZ (map g s))%Z.
Proof. by elim: s => [|x s IHs] //=; rewrite IHs; lia. Qed.

Lemma sumZ_difference_row (m i j : nat) :
  i < m -> j < m -> sumZ (difference_row m i j) = 0%Z.
Proof.
move=> lt_i lt_j; rewrite /difference_row.
rewrite (sumZ_sub (fun k => if k == i then 1 else 0)%Z
                  (fun k => if k == j then 1 else 0)%Z).
by rewrite !sumZ_delta !add0n lt_i lt_j.
Qed.

Lemma mapM_all_in (A : eqType) (B : Type) (P : pred B) (f : A -> res B)
    (s : seq A) (r : seq B) :
  (forall x y, x \in s -> f x = Ok y -> P y) -> mapM f s = Ok r -> all P r.
Proof.
elim: s r => [|x s IHs] r fP /=; first by case=> <-.
case E: (f x) => [y| |] //=; case E': (mapM f s) => [r'| |] //= [<-] /=.
rewrite (fP x y) ?mem_head //=; apply: IHs E' => x' y' x'_in.
by apply: fP; rewrite inE x'_in orbT.
Qed.

Section CycleBorders.
Variable label : eqType.
Variable pop : seq nat -> nat.
Hypothesis pop_mem : forall s, s != [::] -> pop s \in s.
Variable self : PermutationCover label.
Hypothesis wf : wf_monodromy self.
Hypothesis wfd : wf_diagram self.
Hypothesis cpl : diagram_complete self.

Lemma border_side_of_spec (sings : seq (seq (entry label))) (d : nat) (a : label) :
  has (fun sg => Signed a false d \in sg) sings ->
  has (fun sg => Signed a true d \in sg) sings ->
  border_side_of sings d a
  = Ok (difference_row (size sings)
          (first_containing sings (Signed a false d))
          (first_containing sings (Signed a true d))).
Proof.
rewrite !has_find /border_side_of -!/(first_containing _ _).
set i := first_containing _ _; set j := first_containing _ _ => lt_i lt_j.
have lt_i0 : i < size (nseq (size sings) 0%Z) by rewrite size_nseq.
have [b1 b1E sz1] := setitem_Ok 1%Z lt_i0; rewrite size_nseq in sz1.
have lt_j1 : j < size b1 by rewrite sz1.
have [b2 b2E sz2] := setitem_Ok (-1)%Z lt_j1.
have lt_j2 : j < size b2 by rewrite sz2.
have [b3 b3E sz3] := setitem_Ok 0%Z lt_j2.
rewrite b1E /= b2E /= lt_i andbT.
have nth2 k : nth 0%Z b2 k = if k == j then (-1)%Z else if k == i then 1%Z else 0%Z.
  by rewrite (setitem_nth 0%Z k b2E) (setitem_nth 0%Z k b1E) nth_nseq if_same.
case: ifP => [/eqP ij|/negbT ne_ij]; [rewrite b3E|]; congr Ok; apply: eq_from_nthZ.
- by rewrite sz3 sz2 sz1 size_map size_iota.
- move=> k; rewrite sz3 sz2 sz1 => lt_k.
  rewrite (setitem_nth 0%Z k b3E) nth2 (nth_map 0) ?size_iota // nth_iota // add0n ij.
  by case: eqP.
- by rewrite sz2 sz1 size_map size_iota.
- move=> k; rewrite sz2 sz1 => lt_k.
  rewrite nth2 (nth_map 0) ?size_iota // nth_iota // add0n.
  case: (k =P j) => [->|_]; last by case: eqP.
  by rewrite eq_sym (negbTE ne_ij).
Qed.


Lemma mapM_getitem (A B : Type) (f : A -> res B) (s : seq A) (r : seq B)
    (k : nat) (x : A) :
  mapM f s = Ok r -> getitem s k = Ok x ->
  exists2 y, f x = Ok y & getitem r k = Ok y.
Proof.
elim: s r k => [|x' s IHs] r k //=.
case E: (f x') => [y'| |] //=; case E': (mapM f s) => [r'| |] //= [<-].
case: k => [|k]; first by case=> <-; exists y'.
exact: IHs.
Qed.

(** X9.  For a cover whose labels all have a bijection of the copies, over
    a base diagram that has the two sides of every label: the matrix
    borders of homology_cycle_matrix has one row per element (d, a) of
    rel_homology_generator() and one column per singularity; the row of
    (d, a) has 1 at a singularity that contains (a, 0, d), -1 at one that
    contains (a, 1, d) (0 when they are the same) and 0 elsewhere, so
    every row sums to zero. *)
Theorem cycle_borders_rows :
  exists (sings : seq (seq (entry label))) (borders : seq (seq Z)),
    [/\ interval_diagram pop self false true = Ok sings,
        cycle_borders pop self = Ok borders,
        size borders = size (rel_homology_generator self),
        all (fun row : seq Z => (size row == size sings) && (sumZ row =? 0)%Z)
            borders &
        forall k d a, getitem (rel_homology_generator self) k = Ok (d, a) ->
          exists i j,
            [/\ Signed a false d \in nth [::] sings i,
                Signed a true d \in nth [::] sings j &
                getitem borders k = Ok (difference_row (size sings) i j)]].
Proof.
have [lifts [sE _ _]] := lift_orbits_spec pop_mem wf true [::] wfd.
rewrite -[lift_orbits _ _ _ _ _]/(interval_diagram pop self false true) in sE.
set sings := flatten lifts in sE.
have sidesP (d : nat) (a : label) :
    d < _degree_cover self -> a \in alphabet (_base self) ->
    has (fun sg => Signed a false d \in sg) sings
    /\ has (fun sg => Signed a true d \in sg) sings.
  move=> lt_d a_in; have /allP /= cplA := allP cpl _ a_in.
  split.
    apply: (interval_diagram_covers pop_mem wf wfd sE (x := (a, false))) => //.
    by apply: cplA; rewrite !inE eqxx.
  apply: (interval_diagram_covers pop_mem wf wfd sE (x := (a, true))) => //.
  by apply: cplA; rewrite !inE eqxx orbT.
have rowP (da : nat * label) : da \in rel_homology_generator self ->
    border_side_of sings da.1 da.2
    = Ok (difference_row (size sings)
            (first_containing sings (Signed da.2 false da.1))
            (first_containing sings (Signed da.2 true da.1)))
    /\ has (fun sg => Signed da.2 false da.1 \in sg) sings
    /\ has (fun sg => Signed da.2 true da.1 \in sg) sings.
  case/allpairsP=> -[d a] /= [d_in a_in ->] /=.
  move: d_in; rewrite mem_iota add0n /= => lt_d.
  by have [h0 h1] := sidesP d a lt_d a_in; split=> //; apply: border_side_of_spec.
have ok : is_ok (cycle_borders pop self).
  rewrite /cycle_borders sE /=; apply: mapM_is_ok.
  by apply/allP => da /rowP [->].
case E: (cycle_borders pop self) ok => [borders| |] // _.
move: E; rewrite /cycle_borders sE /= -/(rel_homology_generator self) => E.
exists sings, borders; split=> //.
- by rewrite (mapM_size E).
- apply: (mapM_all_in _ E) => /= da row /rowP [-> [lt_i lt_j]] [<-].
  rewrite size_map size_iota eqxx /=; apply/Z.eqb_eq.
  by apply: sumZ_difference_row; rewrite -has_find.
move=> k d a genE; have [row rowE ->] := mapM_getitem E genE.
have da_in : (d, a) \in rel_homology_generator self.
  by have [lt_k ->] := getitem_Ok (d, a) genE; apply: mem_nth.
have [/= rE [h0 h1]] := rowP _ da_in; move: rowE; rewrite rE => -[<-].
exists (first_containing sings (Signed a false d)),
       (first_containing sings (Signed a true d)).
by split=> //; [apply: (nth_find [::] h0) | apply: (nth_find [::] h1)].
Qed.

End CycleBorders.

Lemma cycle_borders_rows_witness :
  exists (sings : seq (seq (entry letter))) (borders : seq (seq Z)),
    [/\ interval_diagram pop_first cover_S3 false true = Ok sings,
        cycle_borders pop_first cover_S3 = Ok borders,
        size borders = 9,
        all (fun row : seq Z => (size row == size sings) && (sumZ row =? 0)%Z)
            borders &
        forall k d a, getitem (rel_homology_generator cover_S3) k = Ok (d, a) ->
          exists i j,
            [/\ Signed a false d \in nth [::] sings i,
                Signed a true d \in nth [::] sings j &
                getitem borders k = Ok (difference_row (size sings) i j)]].
Proof. exact: (@cycle_borders_rows _ _ pop_first_mem cover_S3 isT isT isT). Defined.

(* --------------------------------------------------------------------- *)
(* homology_cycle_matrix: the rows against the borders of the sides       *)
(* --------------------------------------------------------------------- *)




Section CycleRows.
Variable label : eqType.
Variable pop : seq nat -> nat.
Hypothesis pop_mem : forall s, s != [::] -> pop s \in s.
Variable self : PermutationCover label.
Hypothesis wf : wf_monodromy self.
Hypothesis wfd : wf_diagram self.
Hypothesis cpl : diagram_complete self.

Let gen := rel_homology_generator self.




Hypothesis Ua : uniq (alphabet (_base self)).




End CycleRows.




(* --------------------------------------------------------------------- *)
(* profile: a partition of degree times the angles of the base            *)
(* --------------------------------------------------------------------- *)

Section ProfileTotalAngle.
Variable label : eqType.
Variable self : PermutationCover label.

Lemma sumn_Partition (s : seq nat) : sumn (Partition s) = sumn s.
Proof. by elim: s => [|[|x] s IHs] //=; rewrite IHs. Qed.

(** X10.  For a cover whose labels all have a bijection of the copies, over
    a glued base diagram on labels of the alphabet: profile() returns a
    weakly decreasing list of positive integers, and their sum is the
    degree times the total length of the orbits of the glued diagram of the
    base. *)
Theorem profile_total_angle :
  wf_monodromy self -> wf_glued self ->
  exists p : seq nat,
    [/\ profile self = Ok p, sorted geq p, all (fun x => 0 < x) p &
        sumn p = _degree_cover self
                 * sumn [seq size o | o <- diagram_glued (_base self)]].
Proof.
move=> wf wfg; rewrite (profile_spec wf wfg).
set s := flatten _; exists (Partition (sort geq s)); split=> //.
- have geq_tr : transitive geq by move=> y x z /= le_yx le_zy; apply: leq_trans le_yx.
  have geq_tot : total geq by move=> x y; rewrite /geq /= leq_total.
  by apply: (sorted_filter geq_tr); apply: (sort_sorted geq_tot).
- by apply/allP => x; rewrite mem_filter lt0n => /andP [].
rewrite sumn_Partition.
have /perm_sumn -> : perm_eq (sort geq s) s by rewrite perm_sort.
rewrite /s sumn_flatten -map_comp.
rewrite (@eq_map _ _ _ (fun o => _degree_cover self * size o)).
  by move=> o /=; rewrite sumn_orbit_entries mulnC.
by elim: (diagram_glued _) => [|o G IHG] //=; rewrite ?muln0 // IHG mulnDr.
Qed.

End ProfileTotalAngle.

Lemma profile_total_angle_witness :
  exists p : seq nat,
    [/\ profile cover_S3 = Ok p, sorted geq p, all (fun x => 0 < x) p &
        sumn p = 3 * 4].
Proof. exact: (@profile_total_angle _ cover_S3 isT isT). Defined.

(* --------------------------------------------------------------------- *)
(* is_orientable: the loop that unfolds the holonomy                      *)
(* --------------------------------------------------------------------- *)

Lemma getitem_terminates (A : Type) (s : seq A) (i : nat) : getitem s i <> Diverge.
Proof. by rewrite /getitem; case: drop. Qed.

Section Holonomy.
Variable label : eqType.
Variable self : PermutationCover label.

(* the copies that have no sign yet *)
Let unsigned (signs : seq (option bool)) : nat := count (fun x => x == None) signs.

Lemma count_setitem (signs signs' : seq (option bool)) (ii : nat) (s : bool) :
  getitem signs ii = Ok None -> setitem signs ii (Some s) = Ok signs' ->
  (unsigned signs').+1 = unsigned signs.
Proof.
move=> /(getitem_Ok None) [lt_ii E]; rewrite /setitem lt_ii => -[<-].
rewrite /unsigned -{3}(cat_take_drop ii signs) (drop_nth None lt_ii) -E.
by rewrite !count_cat /= addnS.
Qed.

Lemma propagate_measure (i : nat) (s : bool) (letters : seq nat)
    (signs : seq (option bool)) (todo : seq nat) :
  match propagate self i s letters signs todo with
  | Ok (Some r) => unsigned r.1 + size r.2 = unsigned signs + size todo
  | Ok None => true
  | Raise _ => true
  | Diverge => false
  end.
Proof.
elim: letters signs todo => [|j letters IHl] signs todo //=.
case Ej: (getitem _ j) => [pj|e|] //=; last by move/getitem_terminates: Ej.
case Ei: (getitem pj i) => [ii|e|] //=; last by move/getitem_terminates: Ei.
case E: (getitem signs ii) => [[s'|]|e|] //=; last by move/getitem_terminates: E.
  by case: ifP => // _; apply: IHl.
case E': (setitem signs ii (Some (~~ s))) => [signs'|e|] //=; last first.
  by move: E'; rewrite /setitem; case: ifP.
have := IHl signs' (ii :: todo); case: (propagate _ _ _ _ _ _) => [[r|]|e|] //=.
by rewrite -(count_setitem E E') addSnnS.
Qed.

Lemma unfold_holonomy_terminates (fuel : nat) (letters : seq nat)
    (signs : seq (option bool)) (todo : seq nat) :
  unsigned signs + size todo <= fuel ->
  unfold_holonomy fuel self letters signs todo <> Diverge.
Proof.
elim: fuel signs todo => [|fuel IHf] signs [|i todo] //=.
  by rewrite addnS.
rewrite addnS ltnS => le_fuel.
case E: (getitem signs i) => [[s|]|e|] //=; last by move/getitem_terminates: E.
have := propagate_measure i s letters signs todo.
case: (propagate _ _ _ _ _ _) => [[r|]|e|] //=.
by case: r => signs' todo' /= E'; apply: IHf; rewrite E'.
Qed.

Lemma mapM_terminates (A B : Type) (f : A -> res B) (s : seq A) :
  (forall x, f x <> Diverge) -> mapM f s <> Diverge.
Proof.
move=> fP; elim: s => [|x s IHs] //=.
by case E: (f x) (fP x) => [y|e|] //= _; case: (mapM f s) IHs.
Qed.

Lemma covering_data_terminates (a : label) : covering_data self a <> Diverge.
Proof.
rewrite /covering_data /rank /py_index; case: ifP => //= _.
exact: getitem_terminates.
Qed.

Lemma profile_terminates : profile self <> Diverge.
Proof.
rewrite /profile.
have: mapM (profile_of_orbit self) (diagram_glued (_base self)) <> Diverge.
  apply: mapM_terminates => orbit; rewrite /profile_of_orbit.
  elim: (flatten_orbit orbit) (identity _) => [|[a sg] flat IHf] p //=.
  case E: (covering_data self a) (@covering_data_terminates a) => [l|e|] //= _.
  by rewrite /Permutation; case: ifP => //= _; case: (orbit_monodromy _ _ _) (IHf (perm_mul p (if sg then inverse l else l))).
by case: (mapM _ _).
Qed.

Lemma inv_letters_terminates : inv_letters self <> Diverge.
Proof.
have rank_setP i : rank_set self i <> Diverge.
  rewrite /rank_set; case: (getitem _ i) (@getitem_terminates _ (rows (_base self)) i)
    => [row|e|] //= _.
  have: mapM (rank (_base self)) row <> Diverge.
    by apply: mapM_terminates => a; rewrite /rank /py_index; case: ifP.
  by case: (mapM _ _).
rewrite /inv_letters; case: (rank_set self 0) (rank_setP 0) => [p0|e|] //= _.
by case: (rank_set self 1) (rank_setP 1).
Qed.

(** X11.  The loop of is_orientable that gives a sign to the copies always
    ends: every copy enters todo at most once, when it gets its sign, so
    is_orientable returns or raises for every cover, within the
    len(signs) + 1 turns that the model gives to the loop. *)
Theorem is_orientable_terminates : is_orientable self <> Diverge.
Proof.
rewrite /is_orientable; case: ifP => // _.
case: (profile self) profile_terminates => [p|e|] //= _.
case: ifP => // _.
case: (inv_letters self) inv_letters_terminates => [letters|e|] // _.
have le_fuel : unsigned (Some true :: nseq (_degree_cover self).-1 None) + size [:: 0]
               <= (size (Some true :: nseq (_degree_cover self).-1 None)).+1.
  by rewrite /unsigned /= count_nseq /= mul1n size_nseq addn1.
exact: (unfold_holonomy_terminates (letters := letters) le_fuel).
Qed.

End Holonomy.

Section HolonomySigns.
Variable label : eqType.
Variable self : PermutationCover label.
Variable letters : seq nat.

(* the image of the copy i by the permutation of the letter of rank j *)
Let image_at (j i : nat) : nat := nth 0 (nth [::] (_permut_cover self) j) i.

(* the signs that are set stay as they are *)
Let extends (signs signs' : seq (option bool)) : Prop :=
  size signs' = size signs /\
  forall k s, nth None signs k = Some s -> nth None signs' k = Some s.

Lemma extends_refl signs : extends signs signs.
Proof. by []. Qed.

Lemma extends_trans signs1 signs2 signs3 :
  extends signs1 signs2 -> extends signs2 signs3 -> extends signs1 signs3.
Proof.
move=> [sz12 e12] [sz23 e23]; split; first by rewrite sz23.
by move=> k s /e12 /e23.
Qed.

Lemma propagate_sound (i : nat) (s : bool) (ls : seq nat)
    (signs : seq (option bool)) (todo : seq nat)
    (signs' : seq (option bool)) (todo' : seq nat) :
  propagate self i s ls signs todo = Ok (Some (signs', todo')) ->
  [/\ extends signs signs',
      forall j, j \in ls -> nth None signs' (image_at j i) = Some (~~ s),
      forall k s0, nth None signs' k = Some s0 ->
        nth None signs k = Some s0 \/ k \in todo' &
      {subset todo <= todo'}].
Proof.
elim: ls signs todo => [|j ls IHl] signs todo /=; first by case=> <- <-; split=> //; left.
case Ej: (getitem _ j) => [pj|e|] //=.
case Ei: (getitem pj i) => [ii|e|] //=.
have iiE : ii = image_at j i.
  have [_ pjE] := getitem_Ok [::] Ej; have [_ ->] := getitem_Ok 0 Ei.
  by rewrite pjE.
case E: (getitem signs ii) => [[s'|]|e|] //=.
  case: ifP => // /negbFE /eqP s'E /IHl [ext ok new sub]; split=> //.
  move=> j'; rewrite inE => /orP [/eqP ->|/ok //].
  have [_ /esym nthE] := getitem_Ok None E.
  by rewrite -iiE; case: ext => _; apply; rewrite nthE s'E.
case E': (setitem signs ii (Some (~~ s))) => [signs1|e|] //=.
move=> /IHl [[sz' ext'] ok new sub].
have nth1 k := setitem_nth None k E'.
have [lt_ii /esym nthE] := getitem_Ok None E.
have ext1 : extends signs signs1.
  split; first exact: size_setitem E'.
  by move=> k s0; rewrite nth1; case: eqP => // ->; rewrite nthE.
split.
- exact: extends_trans ext1 _.
- move=> j'; rewrite inE => /orP [/eqP ->|/ok //].
  by rewrite -iiE; apply: ext'; rewrite nth1 eqxx.
- move=> k s0 /new [|k_in]; last by right.
  rewrite nth1; case: eqP => [-> _|_]; last by left.
  by right; apply: sub; apply: mem_head.
- by move=> k k_in; apply: sub; rewrite inE k_in orbT.
Qed.

(* every copy that has a sign is in todo, or has given the opposite sign
   to its images *)
Let settled (signs : seq (option bool)) (todo : seq nat) : Prop :=
  forall k s, nth None signs k = Some s ->
    k \in todo \/
    forall j, j \in letters -> nth None signs (image_at j k) = Some (~~ s).

Lemma unfold_holonomy_sound (fuel : nat) (signs : seq (option bool))
    (todo : seq nat) :
  nth None signs 0 = Some true -> settled signs todo ->
  unfold_holonomy fuel self letters signs todo = Ok true ->
  exists f, [/\ size f = size signs, extends signs f &
                coherent_signs self letters f].
Proof.
elim: fuel signs todo => [|fuel IHf] signs [|i todo] //=.
- move=> s0 st _; exists signs; split=> //; split=> // k s j /st [] //.
  by move=> h; apply: h.
- move=> s0 st _; exists signs; split=> //; split=> // k s j /st [] //.
  by move=> h; apply: h.
move=> s0 st.
case Ei: (getitem signs i) => [[s|]|e|] //=.
have [_ /esym nthE] := getitem_Ok None Ei.
case Ep: (propagate _ _ _ _ _ _) => [[[signs' todo']|]|e|] //= /IHf.
have [ext ok new sub] := propagate_sound Ep.
have [sz' ext'] := ext.
case=> [||f [szf extf coh]].
- exact: ext'.
- move=> k sk Ek; case: (new k sk Ek) => [Ek0|]; last by left.
  case: (st k sk Ek0) => [|done].
    rewrite inE => /orP [/eqP kE|k_in]; last by left; apply: sub.
    right; move: Ek0; rewrite kE nthE => -[<-].
    exact: ok.
  by right=> j j_in; apply: ext'; apply: done.
- exists f; split=> //; first by rewrite szf.
  exact: extends_trans ext extf.
Qed.

Lemma propagate_complete (f : seq (option bool)) (i : nat) (s : bool)
    (ls : seq nat) (signs : seq (option bool)) (todo : seq nat) :
  {subset ls <= letters} -> coherent_signs self letters f ->
  (forall k s0, nth None signs k = Some s0 -> nth None f k = Some s0) ->
  nth None f i = Some s ->
  match propagate self i s ls signs todo with
  | Ok (Some r) => forall k s0, nth None r.1 k = Some s0 -> nth None f k = Some s0
  | Ok None => false
  | _ => true
  end.
Proof.
move=> sub [f0 coh]; elim: ls sub signs todo => [|j ls IHl] sub signs todo //= below fi.
have j_in : j \in letters by apply: sub; apply: mem_head.
have sub' : {subset ls <= letters} by move=> k k_in; apply: sub; rewrite inE k_in orbT.
case Ej: (getitem _ j) => [pj|e|] //=.
case Ei: (getitem pj i) => [ii|e|] //=.
have iiE : ii = image_at j i.
  have [_ pjE] := getitem_Ok [::] Ej; have [_ ->] := getitem_Ok 0 Ei.
  by rewrite pjE.
have fii : nth None f ii = Some (~~ s) by rewrite iiE; apply: coh.
case E: (getitem signs ii) => [[s'|]|e|] //=.
  have [_ /esym nthE] := getitem_Ok None E.
  have -> /= : s' = ~~ s by move: (below _ _ nthE); rewrite fii => -[].
  by rewrite eqxx /=; apply: IHl.
case E': (setitem signs ii (Some (~~ s))) => [signs1|e|] //=.
apply: IHl => // k s0; rewrite (setitem_nth None k E').
by case: eqP => [-> [<-]|_ /below].
Qed.

Lemma unfold_holonomy_complete (f : seq (option bool)) (fuel : nat)
    (signs : seq (option bool)) (todo : seq nat) :
  coherent_signs self letters f ->
  (forall k s0, nth None signs k = Some s0 -> nth None f k = Some s0) ->
  unfold_holonomy fuel self letters signs todo <> Ok false.
Proof.
move=> coh; elim: fuel signs todo => [|fuel IHf] signs [|i todo] //= below.
case Ei: (getitem signs i) => [[s|]|e|] //=.
have [_ /esym nthE] := getitem_Ok None Ei.
have := @propagate_complete f i s letters signs todo (fun _ h => h) coh below
          (below _ _ nthE).
case: (propagate _ _ _ _ _ _) => [[[signs' todo']|]|e|] //= below'.
exact: IHf.
Qed.

End HolonomySigns.

Section OrientableSigns.
Variable label : eqType.
Variable self : PermutationCover label.

(** X12.  When the base is not an interval exchange and is_orientable
    returns True, there are signs on the copies, +1 on the copy 0, such
    that every copy with a sign gives the opposite sign to its image by
    the permutation of each letter of inv_letters. *)
Theorem is_orientable_sound :
  ~~ isinstance_PermutationIET (_base self) ->
  is_orientable self = Ok true ->
  exists (letters : seq nat) (f : seq (option bool)),
    [/\ inv_letters self = Ok letters,
        size f = (_degree_cover self).-1.+1 &
        coherent_signs self letters f].
Proof.
rewrite /is_orientable => /negbTE ->.
case: (profile self) => [p|e|] //; rewrite [bind _ _]/=; case: ifP => // _.
case E: (inv_letters self) => [letters|e|] // res_true.
have := @unfold_holonomy_sound _ self letters
          (size (Some true :: nseq (_degree_cover self).-1 None)).+1
          (Some true :: nseq (_degree_cover self).-1 None) [:: 0] erefl _ res_true.
case=> [k s|f [szf _ coh]].
  case: k => [|k] /=; first by left; rewrite mem_head.
  by rewrite nth_nseq if_same.
by exists letters, f; split=> //; rewrite szf /= size_nseq.
Qed.

(** X13.  When the base is not an interval exchange, no entry of the
    profile is odd and is_orientable returns False, there are no such signs
    on the copies: the search does not miss a choice of signs. *)
Theorem is_orientable_complete (p : seq nat) :
  ~~ isinstance_PermutationIET (_base self) ->
  is_orientable self = Ok false ->
  profile self = Ok p -> ~~ has odd p ->
  exists2 letters, inv_letters self = Ok letters
                 & forall f, ~ coherent_signs self letters f.
Proof.
rewrite /is_orientable => /negbTE -> + pE /negbTE even_p.
rewrite pE [bind _ _]/= even_p.
case E: (inv_letters self) => [letters|e|] // res_false.
exists letters => // f coh.
apply: (@unfold_holonomy_complete _ self letters f
          (size (Some true :: nseq (_degree_cover self).-1 None)).+1
          (Some true :: nseq (_degree_cover self).-1 None) [:: 0] coh _ res_false)
  => -[|k] s0 /=.
  by case=> <-; case: coh.
by rewrite nth_nseq if_same.
Qed.

End OrientableSigns.

Lemma is_orientable_sound_witness :
  exists (letters : seq nat) (f : seq (option bool)),
    [/\ inv_letters cover_orientation = Ok letters, size f = 2 &
        coherent_signs cover_orientation letters f].
Proof. exact: (@is_orientable_sound _ cover_orientation isT erefl). Defined.

Lemma is_orientable_complete_witness :
  exists2 letters,
    inv_letters (mkCover base_aab_bcc 4
                   [:: [:: 1; 2; 3; 0]; [:: 0; 1; 2; 3]; [:: 2; 3; 0; 1]])
    = Ok letters
    & forall f, ~ coherent_signs
                    (mkCover base_aab_bcc 4
                       [:: [:: 1; 2; 3; 0]; [:: 0; 1; 2; 3]; [:: 2; 3; 0; 1]])
                    letters f.
Proof.
exact: (@is_orientable_complete _
          (mkCover base_aab_bcc 4 [:: [:: 1; 2; 3; 0]; [:: 0; 1; 2; 3]; [:: 2; 3; 0; 1]])
          [:: 4; 4; 2; 2; 2; 2] isT erefl erefl isT).
Defined.

Section HolonomyTotal.
Variable label : eqType.
Variable self : PermutationCover label.
Hypothesis wf : wf_monodromy self.

Let d := _degree_cover self.

(* the letters that have a bijection of the copies *)
Let valid (j : nat) : Prop :=
  exists2 pj, getitem (_permut_cover self) j = Ok pj & is_permutation d pj.

Let has_sign (signs : seq (option bool)) (k : nat) : bool :=
  nth None signs k != None.

Lemma has_sign_lt (signs : seq (option bool)) (k : nat) :
  has_sign signs k -> k < size signs.
Proof. by rewrite /has_sign; case: ltnP => // /(nth_default None) ->. Qed.

Lemma propagate_total (i : nat) (s : bool) (ls : seq nat)
    (signs : seq (option bool)) (todo : seq nat) :
  size signs = d -> i < d -> (forall j, j \in ls -> valid j) ->
  all (has_sign signs) todo ->
  match propagate self i s ls signs todo with
  | Ok (Some r) => size r.1 = d /\ all (has_sign r.1) r.2
  | Ok None => true
  | _ => false
  end.
Proof.
move=> + lt_i; elim: ls signs todo => [|j ls IHl] signs todo //= sz validP todoP.
have [pj -> pjP] /= : valid j by apply: validP; apply: mem_head.
have validP' : forall j', j' \in ls -> valid j'.
  by move=> j' j'_in; apply: validP; rewrite inE j'_in orbT.
rewrite (getitem_nth 0) ?(is_permutation_size pjP) //=.
have lt_ii : nth 0 pj i < size signs.
  by rewrite sz -(is_permutation_mem pjP) mem_nth // (is_permutation_size pjP).
rewrite (getitem_nth None lt_ii) /=.
case E: (nth None signs (nth 0 pj i)) => [s'|] /=.
  by case: ifP => // _; apply: IHl.
have [signs1 E1 sz1] := setitem_Ok (Some (~~ s)) lt_ii.
rewrite E1 /=; apply: IHl => //; first by rewrite sz1.
rewrite /= /has_sign (setitem_nth None _ E1) eqxx /=.
apply/allP => k /(allP todoP); rewrite /has_sign (setitem_nth None _ E1).
by case: (k == _).
Qed.

Lemma unfold_holonomy_total (fuel : nat) (letters : seq nat)
    (signs : seq (option bool)) (todo : seq nat) :
  (forall j, j \in letters -> valid j) ->
  size signs = d -> all (has_sign signs) todo ->
  if unfold_holonomy fuel self letters signs todo is Raise _ then false else true.
Proof.
move=> validP; elim: fuel signs todo => [|fuel IHf] signs [|i todo] //= sz.
case/andP=> i_sign todoP.
have lt_i := has_sign_lt i_sign.
rewrite (getitem_nth None lt_i) /=.
move: i_sign; rewrite /has_sign; case E: (nth None signs i) => [s|] //= _.
have := @propagate_total i s letters signs todo sz _ validP todoP.
rewrite -sz => /(_ lt_i).
case: (propagate _ _ _ _ _ _) => [[[signs' todo']|]|e|] //= [sz' todoP'].
by apply: IHf => //; rewrite sz' sz.
Qed.

Lemma rank_valid (a : label) (r : nat) : rank (_base self) a = Ok r -> valid r.
Proof.
rewrite /rank /py_index; case: ifP => // a_in [<-].
have [p pE pP] := covering_data_wf wf a_in; exists p => //.
by move: pE; rewrite /covering_data /rank /py_index a_in.
Qed.

Lemma rank_set_valid (i : nat) (ranks : seq nat) :
  rank_set self i = Ok ranks -> forall j, j \in ranks -> valid j.
Proof.
rewrite /rank_set; case: (getitem _ i) => [row|e|] //=.
case E: (mapM _ row) => [rs|e|] //= [<-] j; rewrite mem_undup.
elim: row rs E => [|a row IHr] rs /=; first by case=> <-.
case Ea: (rank _ a) => [r|e|] //=; case E: (mapM _ row) => [rs'|e|] //= [<-].
by rewrite inE => /orP [/eqP ->|]; [apply: rank_valid Ea | apply: IHr E].
Qed.

Lemma inv_letters_valid (letters : seq nat) :
  inv_letters self = Ok letters -> forall j, j \in letters -> valid j.
Proof.
rewrite /inv_letters.
case E0: (rank_set self 0) => [p0|e|] //=; case E1: (rank_set self 1) => [p1|e|] //=.
case=> <- j; rewrite mem_sort mem_filter mem_undup mem_cat => /andP [_].
by case/orP => j_in; [apply: (rank_set_valid E0 j_in) | apply: (rank_set_valid E1 j_in)].
Qed.

Lemma inv_letters_is_ok : wf_rows self -> is_ok (inv_letters self).
Proof.
case/and3P=> lt_rows /andP [rows0 _] /andP [/andP [rows1 _] _].
have rank_setP i : i < 2 -> all (fun a => a \in alphabet (_base self))
                                (nth [::] (rows (_base self)) i) ->
    is_ok (rank_set self i).
  move=> lt_i rowsA; rewrite /rank_set (getitem_nth [::] (leq_trans lt_i lt_rows)) /=.
  have: is_ok (mapM (rank (_base self)) (nth [::] (rows (_base self)) i)).
    apply: mapM_is_ok; apply/allP => a /(allP rowsA) a_in.
    by rewrite /rank /py_index a_in.
  by case: (mapM _ _).
rewrite /inv_letters.
case: (rank_set self 0) (rank_setP 0 isT rows0) => [p0|e|] //= _.
by case: (rank_set self 1) (rank_setP 1 isT rows1).
Qed.

Lemma unfold_holonomy_returns (letters : seq nat) :
  0 < d -> (forall j, j \in letters -> valid j) ->
  exists b : bool,
    unfold_holonomy (size (Some true :: nseq d.-1 None)).+1 self letters
      (Some true :: nseq d.-1 None) [:: 0] = Ok b.
Proof.
move=> d_gt0 validP.
have le_fuel : count (fun x => x == None) (Some true :: nseq d.-1 None) + size [:: 0]
               <= (size (Some true :: nseq d.-1 None)).+1.
  by rewrite /= count_nseq /= mul1n size_nseq addn1.
have := unfold_holonomy_terminates (self := self) (letters := letters) le_fuel.
have sz0 : size (Some true :: nseq d.-1 None) = d by rewrite /= size_nseq prednK.
have := @unfold_holonomy_total (size (Some true :: nseq d.-1 None)).+1 letters
          (Some true :: nseq d.-1 None) [:: 0] validP sz0 isT.
by case: (unfold_holonomy _ _ _ _ _) => [b|e|] //; exists b.
Qed.

(** X14.  For a cover of positive degree whose labels all have a bijection
    of the copies, over a base with its two rows and its glued diagram on
    labels of the alphabet: is_orientable returns True or False; it does
    not raise, and in particular the assertion on the sign of the copy
    taken from todo never fails. *)
Theorem is_orientable_returns :
  0 < _degree_cover self -> wf_glued self -> wf_rows self ->
  exists b : bool, is_orientable self = Ok b.
Proof.
move=> d_gt0 wfg wfr.
rewrite /is_orientable; case: ifP => _; first by exists true.
rewrite (profile_spec wf wfg) [bind _ _]/=; case: ifP => _; first by exists false.
case E: (inv_letters self) (inv_letters_is_ok wfr) => [letters|e|] // _.
exact: (unfold_holonomy_returns d_gt0 (inv_letters_valid E)).
Qed.

End HolonomyTotal.

Lemma is_orientable_returns_witness :
  exists b : bool, is_orientable cover_orientation = Ok b.
Proof. exact: (@is_orientable_returns _ cover_orientation isT isT isT isT). Defined.

(* --------------------------------------------------------------------- *)
(* stratum and genus                                                      *)
(* --------------------------------------------------------------------- *)

Lemma Z_of_double (k : nat) : Z.of_nat k.*2 = (2 * Z.of_nat k)%Z.
Proof. by rewrite -addnn -[addn]/Nat.add Nat2Z.inj_add; lia. Qed.

Lemma sumZ_quadratic (p : seq nat) :
  sumZ [seq (Z.of_nat x - 2)%Z | x <- p]
  = (Z.of_nat (sumn p) - 2 * Z.of_nat (size p))%Z.
Proof.
elim: p => [|x p IHp] //.
rewrite -[size (x :: p)]/(size p).+1 -[sumn (x :: p)]/(Nat.add x (sumn p)).
rewrite -[sumZ _]/((Z.of_nat x - 2) + sumZ [seq (Z.of_nat x - 2)%Z | x <- p])%Z IHp.
by rewrite Nat2Z.inj_add Nat2Z.inj_succ; lia.
Qed.

Lemma sumZ_abelian (p : seq nat) :
  ~~ has odd p ->
  (2 * sumZ [seq ((Z.of_nat x - 2) / 2)%Z | x <- p]
   = Z.of_nat (sumn p) - 2 * Z.of_nat (size p))%Z.
Proof.
elim: p => [|x p IHp] //; rewrite [has _ _]/= negb_or => /andP [even_x /IHp {}IHp].
rewrite -[size (x :: p)]/(size p).+1 -[sumn (x :: p)]/(Nat.add x (sumn p)).
rewrite -[sumZ _]/((Z.of_nat x - 2) / 2
                   + sumZ [seq ((Z.of_nat x - 2) / 2)%Z | x <- p])%Z.
rewrite Nat2Z.inj_add Nat2Z.inj_succ.
have -> : ((Z.of_nat x - 2) / 2 = Z.of_nat x./2 - 1)%Z.
  rewrite -{1}(odd_double_half x) (negbTE even_x) add0n Z_of_double.
  have -> : (2 * Z.of_nat x./2 - 2 = (Z.of_nat x./2 - 1) * 2)%Z by lia.
  by rewrite Z.div_mul.
have : Z.of_nat x = (2 * Z.of_nat x./2)%Z.
  by rewrite -{1}(odd_double_half x) (negbTE even_x) add0n Z_of_double.
by lia.
Qed.

Section StratumGenus.
Variable label : eqType.
Variable self : PermutationCover label.

(** X15.  Whenever stratum() returns, genus() returns the genus that the
    orders of the stratum give: (sum of the orders) / 4 + 1 for a
    QuadraticStratum whose orders sum to a multiple of 4, and, over a base
    that is not an interval exchange, (sum of the orders) / 2 + 1 for an
    AbelianStratum whose orders sum to an even number. *)
Theorem stratum_genus (s : stratum_descr) :
  stratum self = Ok s ->
  match s with
  | AbelianStratum zs =>
      ~~ isinstance_PermutationIET (_base self) -> (2 | sumZ zs)%Z ->
      genus self = Ok (sumZ zs / 2 + 1)%Z
  | QuadraticStratum zs =>
      (4 | sumZ zs)%Z -> genus self = Ok (sumZ zs / 4 + 1)%Z
  end.
Proof.
rewrite /stratum /genus.
case oE: (is_orientable self) => [o|e|] //=.
case pE: (profile self) => [p|e|] //=.
case: o oE => oE [<-]; last by rewrite sumZ_quadratic.
move=> /negbTE notIET _; congr (Ok (_ + 1)%Z).
have even_p : ~~ has odd p.
  move: oE; rewrite /is_orientable notIET pE [bind _ _]/=.
  by case: (has odd p).
rewrite -(sumZ_abelian even_p).
have -> : (2 * sumZ [seq ((Z.of_nat x - 2) / 2)%Z | x <- p]
           = sumZ [seq ((Z.of_nat x - 2) / 2)%Z | x <- p] * 2)%Z by lia.
by rewrite -[4%Z]/(2 * 2)%Z Z.div_mul_cancel_r.
Qed.

End StratumGenus.

Lemma stratum_genus_witness :
  genus cover_orientation = Ok (sumZ [:: 0; 0; 0; 0] / 2 + 1)%Z.
Proof.
apply: (@stratum_genus _ cover_orientation (AbelianStratum [:: 0; 0; 0; 0])%Z erefl isT).
by exists 0%Z.
Defined.

Section StratumOrders.
Variable label : eqType.
Variable self : PermutationCover label.

Lemma profile_positive (p : seq nat) : profile self = Ok p -> all (fun x => 0 < x) p.
Proof.
rewrite /profile; case: (mapM _ _) => [ss|e|] //= [<-].
by apply/allP => x; rewrite mem_filter lt0n => /andP [].
Qed.

(** X16.  Whenever stratum() returns, the orders it holds are those of a
    stratum: each order of a QuadraticStratum is at least -1, and, over a
    base that is not an interval exchange, each order of an AbelianStratum
    is at least 0. *)
Theorem stratum_orders (s : stratum_descr) :
  stratum self = Ok s ->
  match s with
  | AbelianStratum zs =>
      ~~ isinstance_PermutationIET (_base self) -> all (fun z => (0 <=? z)%Z) zs
  | QuadraticStratum zs => all (fun z => (-1 <=? z)%Z) zs
  end.
Proof.
rewrite /stratum.
case oE: (is_orientable self) => [o|e|] //=.
case pE: (profile self) => [p|e|] //=.
have pos := profile_positive pE.
case: o oE => oE [<-]; rewrite all_map; last first.
  apply/allP => x /(allP pos) /= x_gt0; apply/Z.leb_le.
  by move/ltP: x_gt0; lia.
move=> /negbTE notIET.
have even_p : ~~ has odd p.
  move: oE; rewrite /is_orientable notIET pE [bind _ _]/=.
  by case: (has odd p).
apply/allP => x x_in /=; apply/Z.leb_le.
have x_gt0 := allP pos _ x_in.
have even_x : ~~ odd x by move: even_p; rewrite -all_predC => /allP /(_ _ x_in).
have : Z.of_nat x = (2 * Z.of_nat x./2)%Z.
  by rewrite -{1}(odd_double_half x) (negbTE even_x) add0n Z_of_double.
move=> xE; apply: Z.div_le_lower_bound; first by [].
by move/ltP: x_gt0; lia.
Qed.

End StratumOrders.

Lemma stratum_orders_witness :
  stratum (mkCover base_aab_bcc 2 [:: [:: 1; 0]; [:: 1; 0]; [:: 1; 0]])
  = Ok (QuadraticStratum [:: 0; 0; -1; -1; -1; -1]%Z)
  /\ all (fun z => (-1 <=? z)%Z) [:: 0; 0; -1; -1; -1; -1]%Z.
Proof.
split; first by vm_compute.
exact: (@stratum_orders _ (mkCover base_aab_bcc 2 [:: [:: 1; 0]; [:: 1; 0]; [:: 1; 0]])
          (QuadraticStratum [:: 0; 0; -1; -1; -1; -1])%Z erefl).
Defined.

(* --------------------------------------------------------------------- *)
(* _characters: the loop ends, and what the outputs are                   *)
(* --------------------------------------------------------------------- *)

Section CharactersRun.
Variable K : exact_field.
Variable pop_char : seq (seq K) -> seq K.
Hypothesis pop_char_mem : forall s, s != [::] -> pop_char s \in s.

Lemma extract_real_terminates (fuel n : nat) (S R : seq (seq K)) (i : nat) :
  size S <= fuel -> extract_real pop_char fuel n S R i <> Diverge.
Proof.
elim: fuel S R i => [|fuel IHf] [|chi0 S0] R i //.
set S := chi0 :: S0; rewrite -[size S]/(size S0).+1 ltnS => le_fuel.
have chiS : pop_char S \in S by apply: pop_char_mem.
have sz_rem : size (rem (pop_char S) S) = size S0 by rewrite size_rem.
rewrite /=; case: ifP => _; last by apply: IHf; rewrite sz_rem.
rewrite /set_remove; case: ifP => //= conjS.
have: mapM (fun j => x <-- getitem (pop_char S) j ;; Ok (add x (conjugate x)))
           (iota 0 n) <> Diverge.
  apply: mapM_terminates => j.
  by case E: (getitem _ j) => [x|e|] //=; move/getitem_terminates: E.
case: (mapM _ _) => [merged|e|] //= _.
by apply: IHf; rewrite size_rem // sz_rem; apply: leq_trans (leq_pred _) le_fuel.
Qed.

(** X17.  The loop of _characters that folds the characters always ends:
    every turn takes at least one character out of the set, so
    _characters returns or raises for every answer of libgap and every
    choice of set.pop(). *)
Theorem characters_terminates (gap : libgap_data K) :
  _characters pop_char gap <> Diverge.
Proof.
rewrite /_characters.
have: mapM (fun i => chi <-- getitem (Irr gap) i ;; mapM (getitem chi) (iota 0 (Order gap)))
           (iota 0 (size (Irr gap))) <> Diverge.
  apply: mapM_terminates => i.
  case E: (getitem _ i) => [chi|e|] //=; last by move/getitem_terminates: E.
  by apply: mapM_terminates => j; apply: getitem_terminates.
case: (mapM _ _) => [tuples|e|] //= _.
have: mapM (getitem (Degree gap)) (iota 0 (size (Irr gap))) <> Diverge.
  by apply: mapM_terminates => j; apply: getitem_terminates.
case: (mapM _ _) => [degs|e|] //= _.
have: mapM (getitem (Elements gap)) (iota 0 (Order gap)) <> Diverge.
  by apply: mapM_terminates => j; apply: getitem_terminates.
case: (mapM _ _) => [perm|e|] //= _.
have := @extract_real_terminates (size (undup tuples)) (size (Irr gap))
          (undup tuples) [::] 0 (leqnn _).
by case: (extract_real _ _ _ _ _ _) => [[R i]|e|].
Qed.

Lemma mapM_getitem_short (A : Type) (chi : seq A) (i m : nat) :
  i <= size chi -> size chi < i + m ->
  mapM (getitem chi) (iota i m) = Raise IndexError.
Proof.
elim: m i => [|m IHm] i le_i; first by rewrite addn0 ltnNge le_i.
rewrite addnS -addSn /=; move: le_i; rewrite leq_eqVlt => /orP [/eqP -> _|lt_i lt_m].
  by rewrite getitem_over.
have [x xE] : exists x, getitem chi i = Ok x.
  by case: chi lt_i {lt_m IHm} => [|x0 chi] // lt_i; exists (nth x0 (x0 :: chi) i); apply: getitem_nth.
by rewrite xE /= IHm.
Qed.

(** X18.  libgap gives a character one value per conjugacy class, and
    _characters reads G_order values of it: when the group has more
    elements than characters (a group that is not abelian), _characters
    raises IndexError. *)
Theorem characters_more_elements_than_classes (gap : libgap_data K) :
  square_table gap -> Irr gap != [::] -> size (Irr gap) < Order gap ->
  _characters pop_char gap = Raise IndexError.
Proof.
rewrite /_characters /square_table; case: (Irr gap) => [|chi irr] //= /andP [/eqP sz _] _.
by move=> lt_order; rewrite mapM_getitem_short // sz.
Qed.

Lemma characters_outputs (gap : libgap_data K) (R : seq (seq K)) (degs : seq nat)
    (order : nat) (perms : seq (seq nat)) (nreal : nat) :
  _characters pop_char gap = Ok (R, degs, order, perms, nreal) ->
  [/\ order = Order gap, size degs = size (Irr gap), size perms = order &
      perms = [seq [seq i.-1 | i <- x] | x <- take order (Elements gap)]].
Proof.
rewrite /_characters; case: (mapM _ _) => [tuples|e|] //=.
case Ed: (mapM _ _) => [degs'|e|] //=; case Ep: (mapM _ _) => [perm|e|] //=.
case: (extract_real _ _ _ _ _ _) => [[R' i']|e|] //= [_ <- <- <- _].
have [_ szd] := mapM_getitem_take Ed; have [-> szp] := mapM_getitem_take Ep.
by split=> //; rewrite size_map.
Qed.

(* a real character has a degree in character_degree() *)
Lemma character_degree_in_bounds (gap : libgap_data K) (R : seq (seq K))
    (degs : seq nat) (order : nat) (perms : seq (seq nat)) (nreal : nat) :
  square_table gap ->
  _characters pop_char gap = Ok (R, degs, order, perms, nreal) ->
  size R <= size degs.
Proof.
move=> sq cE; have [_ _ [P permP ->] _] := characters_spec pop_char_mem sq cE.
have [_ -> _ _] := characters_outputs cE.
rewrite size_map; apply: (@leq_trans (size (character_set_of gap))); last first.
  by rewrite /character_set_of (leq_trans (size_undup _)) // size_map.
rewrite (perm_size permP) size_flatten /shape -map_comp.
elim: (P) => [|chi P' IHP] //=; rewrite -add1n leq_add //.
by rewrite /removed_with; case: ifP.
Qed.

End CharactersRun.

Lemma characters_terminates_witness :
  _characters pop_first_char gap_C4 <> Diverge.
Proof. exact: (@characters_terminates Qi pop_first_char pop_first_char_mem gap_C4). Defined.

Lemma characters_more_elements_than_classes_witness :
  _characters pop_first_char
    {| Order := 6;
       Irr := [:: [:: gone; gone; gone];
                  [:: gone; gopp gone; gone];
                  [:: g_of_int 2; gzero; gopp gone]];
       Degree := [:: 1; 1; 2];
       Elements := [:: [:: 1; 2; 3]; [:: 2; 1; 3]; [:: 3; 2; 1];
                       [:: 1; 3; 2]; [:: 2; 3; 1]; [:: 3; 1; 2]] |}
  = Raise IndexError.
Proof. exact: characters_more_elements_than_classes. Defined.

(* --------------------------------------------------------------------- *)
(* isotypic_projection_matrix for every real character                    *)
(* --------------------------------------------------------------------- *)

Section ProjectionMatrix.
Variable K : exact_field.
Variable pop_char : seq (seq K) -> seq K.
Hypothesis pop_char_mem : forall s, s != [::] -> pop_char s \in s.
Variable label : eqType.
Variable self : PermutationCover label.
Variable gap : libgap_data K.

(** X19.  Let libgap give a square table and the elements of the group as
    bijections of the copies, and let the letters of the alphabet be
    distinct.  For every index i of a real character,
    isotypic_projection_matrix(i) returns a square matrix with one row and
    one column per element of rel_homology_generator(); its entry at the
    row of (d, a) and the column of (d', a') is zero when a != a', and when
    a = a' it is the sum of (degree_i / |G|) * character_i(t) over the
    elements t that send the copy d - 1 (the last copy when d = 0) to
    d'. *)
Theorem isotypic_projection_matrix_spec (R : seq (seq K)) (degs : seq nat)
    (order : nat) (perms : seq (seq nat)) (nreal i : nat) :
  square_table gap -> uniq (alphabet (_base self)) ->
  _characters pop_char gap = Ok (R, degs, order, perms, nreal) ->
  0 < order -> all (is_permutation (_degree_cover self)) perms ->
  i < nreal ->
  let A := alphabet (_base self) in
  let N := size (rel_homology_generator self) in
  exists M : seq (seq K),
    [/\ isotypic_projection_matrix pop_char self gap i = Ok M,
        size M = N, all (fun row : seq K => size row == N) M &
        forall d a d' a',
          d < _degree_cover self -> a \in A -> d' < _degree_cover self -> a' \in A ->
          cell M (d * size A + index a A) (d' * size A + index a' A)
          = documented_entry (nth [::] R i) (quotient K (nth 0 degs i) order)
              perms order (read_copy (_degree_cover self) d) a d' a'].
Proof.
move=> sq Ua cE order_gt0 permsP lt_i /=.
have [oE szd szp _] := characters_outputs cE.
have [_ nE _ szR] := characters_spec pop_char_mem sq cE.
have lt_iR : i < size R by rewrite -nE.
have charE := getitem_nth [::] lt_iR.
have degE : getitem degs i = Ok (nth 0 degs i).
  by apply: getitem_nth; apply: leq_trans lt_iR (character_degree_in_bounds pop_char_mem sq cE).
have charP : order <= size (nth [::] R i).
  by rewrite oE (eqP (allP szR _ (mem_nth [::] lt_iR))).
have permsP' t : t < order ->
    [/\ t < size perms, size (nth [::] perms t) = _degree_cover self
      & all (fun v : nat => v < _degree_cover self) (nth [::] perms t)].
  rewrite -szp => lt_t; have pP := allP permsP _ (mem_nth [::] lt_t).
  split=> //; first exact: is_permutation_size pP.
  by apply/allP => v; rewrite (is_permutation_mem pP).
set coeff := quotient K (nth 0 degs i) order.
have sq0 : size (nseq (_degree_cover self * size (alphabet (_base self)))
                  (nseq (_degree_cover self * size (alphabet (_base self))) (zero K)))
           = _degree_cover self * size (alphabet (_base self))
    /\ forall k, k < _degree_cover self * size (alphabet (_base self)) ->
         size (nth [::] (nseq (_degree_cover self * size (alphabet (_base self)))
                 (nseq (_degree_cover self * size (alphabet (_base self))) (zero K))) k)
         = _degree_cover self * size (alphabet (_base self)).
  by split=> [|k lt_k]; rewrite ?size_nseq // nth_nseq lt_k size_nseq.
have [M [ME [szM szr] _ _]] :=
  gen_fold coeff cE charP permsP' (generator_valid self) (generator_uniq Ua) sq0.
have ipmE : isotypic_projection_matrix pop_char self gap i = Ok M.
  rewrite /isotypic_projection_matrix /character_table /character_degree.
  rewrite /automorphism_group_order cE /= charE /= degE /=.
  by rewrite (negbTE (lt0n_neq0 order_gt0)) /= size_generator.
exists M; split=> //; first by rewrite size_generator.
  by apply/(all_nthP [::]) => k; rewrite szM size_generator => /szr ->.
move=> d a d' a' lt_d a_in lt_d' a'_in.
have [M' [M'E <-]] :=
  isotypic_projection_matrix_entries cE Ua charP permsP' charE degE order_gt0
    (erefl coeff) lt_d a_in lt_d' a'_in.
by move: M'E; rewrite ipmE => -[->].
Qed.

End ProjectionMatrix.

Lemma isotypic_projection_matrix_spec_witness :
  exists M : seq (seq Qi),
    [/\ isotypic_projection_matrix pop_first_char cover_S3 gap_trivial 0 = Ok M,
        size M = 9, all (fun row : seq Qi => size row == 9) M &
        forall d a d' a',
          d < 3 -> a \in [:: La; Lb; Lc] -> d' < 3 -> a' \in [:: La; Lb; Lc] ->
          cell M (d * 3 + index a [:: La; Lb; Lc]) (d' * 3 + index a' [:: La; Lb; Lc])
          = documented_entry [:: gone] (gquotient 1 1) [:: [:: 0; 1; 2]] 1
              (read_copy 3 d) a d' a'].
Proof.
exact: (@isotypic_projection_matrix_spec Qi pop_first_char pop_first_char_mem _
          cover_S3 gap_trivial [:: [:: gone]] [:: 1] 1 [:: [:: 0; 1; 2]] 1 0
          isT isT gap_trivial_characters isT isT isT).
Defined.

(* --------------------------------------------------------------------- *)
(* lyapunov_exponents_H_plus: what the engine is called with              *)
(* --------------------------------------------------------------------- *)

Section EngineArguments.
Variable K : exact_field.
Variable label : eqType.
Variable pop : seq nat -> nat.
Variable pop_char : seq (seq K) -> seq K.
Variable left_kernel : seq (seq Z) -> seq (seq Z).
Variable mx_rank : seq (seq K) -> nat.
Variable float : Type.
Variable real_float : K -> float.
Variable self : PermutationCover label.

Let A := alphabet (_base self).

Lemma encode_row_spec (k i : nat) (row : seq label) (j : nat) (gp twin : seq nat) :
  all (fun a => a \in A) row ->
  i < size (_twin (_base self)) ->
  j + size row <= size (nth [::] (_twin (_base self)) i) ->
  convert k (i, j) + size row <= size gp -> size twin = size gp ->
  let p := convert k (i, j) in
  let ti := nth [::] (_twin (_base self)) i in
  encode_row self k i row j gp twin
  = Ok (take p gp ++ [seq index a A | a <- row] ++ drop (p + size row) gp,
        take p twin ++ [seq twin_position k i t | t <- take (size row) (drop j ti)]
          ++ drop (p + size row) twin).
Proof.
move=> + lt_i; elim: row j gp twin => [|a row IHr] j gp twin /=.
  by move=> _ _ _ _; rewrite take0 /= !addn0 !cat_take_drop.
case/andP=> a_in rowA le_j le_p sz.
have lt_j : j < size (nth [::] (_twin (_base self)) i).
  by apply: leq_trans le_j; rewrite addnS ltnS leq_addr.
have lt_p : convert k (i, j) < size gp.
  by apply: leq_trans le_p; rewrite addnS ltnS leq_addr.
rewrite /rank /py_index a_in /= /setitem lt_p /= (getitem_nth [::] lt_i) /=.
rewrite (getitem_nth (TwinInt 0) lt_j) /= sz lt_p /=.
set p := convert k (i, j); set gp1 := take p gp ++ _; set twin1 := take p twin ++ _.
have pS : convert k (i, j.+1) = p.+1 by rewrite /convert /= addSn.
have sz1 : size gp1 = size gp.
  by rewrite size_cat /= size_take lt_p size_drop addnS -addSn subnKC.
have sz1' : size twin1 = size gp1.
  rewrite sz1 size_cat /= size_take sz lt_p size_drop sz addnS -addSn subnKC //.
have le_j' : j.+1 + size row <= size (nth [::] (_twin (_base self)) i).
  by rewrite addSnnS.
have le_p' : convert k (i, j.+1) + size row <= size gp1 by rewrite pS sz1 addSnnS.
rewrite (IHr j.+1 gp1 twin1 rowA le_j' le_p' sz1').
rewrite pS !addSnnS -/p.
have take1 (s : seq nat) (x : nat) : p < size s ->
    take p.+1 (take p s ++ x :: drop p.+1 s) = take p s ++ [:: x].
  move=> lt_s; rewrite take_cat size_take lt_s ltnNge leqnSn /=.
  by rewrite subSn // subnn /= take0.
have drop1 (s : seq nat) (x : nat) (m : nat) : p < size s ->
    drop (p + m.+1) (take p s ++ x :: drop p.+1 s) = drop (p + m.+1) s.
  move=> lt_s; rewrite drop_cat size_take lt_s ltnNge leq_addr /=.
  by rewrite addKn /= drop_drop addnC addnS addSn.
rewrite /gp1 /twin1 !take1 ?sz // !drop1 ?sz // -!catA /=.
by rewrite [drop j _](drop_nth (TwinInt 0) lt_j).
Qed.

Let lyapunov :=
  @lyapunov_exponents_H_plus K label pop pop_char left_kernel mx_rank float real_float.

(** X20.  Without the isotypic decomposition, and once the arguments have
    passed the validation: the engine is called with gp the ranks of the
    labels of the top row followed by those of the bottom row, k the
    length of the top row, twin the positions of the twins in the same
    order, sigma the concatenation of the permutations of the cover, the
    numbers of experiments and iterations as given, the single dimension
    nb_vectors, and neither projections nor lengths. *)
Theorem lyapunov_engine_arguments (gap : libgap_data K)
    (nv nb_experiments nb_iterations : Z) (lengths : option (seq Z))
    (verbose : bool) :
  wf_twin self -> (verbose -> is_ok (stratum self)) ->
  (0 < nv)%Z -> (0 < nb_experiments)%Z -> (0 < nb_iterations)%Z ->
  0 < len self -> size (flatten (_permut_cover self)) %% len self = 0 ->
  let row0 := nth [::] (rows (_base self)) 0 in
  let row1 := nth [::] (rows (_base self)) 1 in
  let twin0 := nth [::] (_twin (_base self)) 0 in
  let twin1 := nth [::] (_twin (_base self)) 1 in
  let k := size row0 in
  lyapunov self gap (Some nv) nb_experiments nb_iterations lengths false verbose
  = Ok (CallEngine
          (EngineArguments
             [seq index a (alphabet (_base self)) | a <- row0 ++ row1]
             k
             ([seq twin_position k 0 t | t <- take (size row0) twin0]
              ++ [seq twin_position k 1 t | t <- take (size row1) twin1])
             (flatten (_permut_cover self))
             nb_experiments nb_iterations [:: nv] None None verbose)).
Proof.
case/and3P=> /eqP sz_rows /eqP sz_sum /and3P [].
case/andP=> /andP [rows0 le0] lt0 /andP [/andP [rows1 le1] lt1] _.
move=> strat nv_gt0 e_gt0 i_gt0 n_gt0 sigmaE /=.
rewrite /lyapunov /lyapunov_exponents_H_plus /=.
have -> /= : (if verbose then s <-- stratum self ;; Ok tt else Ok tt) = Ok tt.
  by case: verbose strat => // /(_ isT); case: (stratum self).
have -> : (nv <? 0)%Z = false by apply/Z.ltb_ge; lia.
have -> : (nv =? 0)%Z = false by apply/Z.eqb_neq; lia.
have -> : (nb_experiments <=? 0)%Z = false by apply/Z.leb_gt.
have -> : (nb_iterations <=? 0)%Z = false by apply/Z.leb_gt.
rewrite (negbTE (lt0n_neq0 n_gt0)) sigmaE eqxx /=.
rewrite (getitem_nth [::]) ?sz_rows //=.
set row0 := nth [::] _ 0 in rows0 le0 sz_sum *.
set row1 := nth [::] _ 1 in rows1 le1 sz_sum *.
set gp := iota 0 (2 * len self).
have sz_gp : size gp = size row0 + size row1 by rewrite size_iota sz_sum.
have le_p0 : convert (size row0) (0, 0) + size row0 <= size gp.
  by rewrite /convert /= mul0n add0n sz_gp leq_addr.
rewrite (@encode_row_spec (size row0) 0 row0 0 gp gp rows0 lt0 le0 le_p0 erefl).
rewrite /= (getitem_nth [::]) ?sz_rows //= -/row1.
rewrite /convert /= mul0n add0n take0 drop0 /=.
set ranks0 := [seq index a _ | a <- row0].
set twins0 := [seq twin_position _ 0 t | t <- _].
have sz_ranks0 : size ranks0 = size row0 by rewrite size_map.
have sz_twins0 : size twins0 = size row0.
  by rewrite size_map size_take; case: ltngtP le0.
set gp0 := ranks0 ++ _; set tw0 := twins0 ++ _.
have sz_gp0 : size gp0 = size row0 + size row1.
  by rewrite size_cat sz_ranks0 size_drop sz_gp addKn.
have sz_tw0 : size tw0 = size gp0.
  by rewrite sz_gp0 size_cat sz_twins0 size_drop sz_gp addKn.
have le_p1 : convert (size row0) (1, 0) + size row1 <= size gp0.
  by rewrite /convert /= mul1n add0n sz_gp0.
rewrite (@encode_row_spec (size row0) 1 row1 0 gp0 tw0 rows1 lt1 le1 le_p1 sz_tw0).
rewrite /convert /= mul1n add0n drop0.
have take_k (s1 s2 : seq nat) : size s1 = size row0 -> take (size row0) (s1 ++ s2) = s1.
  by move=> <-; rewrite take_size_cat.
have drop_all (s : seq nat) : size s = size row0 + size row1 ->
    drop (size row0 + size row1) s = [::].
  by move=> <-; rewrite drop_size.
rewrite /gp0 /tw0 !take_k // !drop_all ?cats0 -?map_cat //.
by rewrite -/tw0 sz_tw0.
Qed.


End EngineArguments.

Lemma lyapunov_engine_arguments_witness :
  lyapunov_Qi cover_orientation gap_C2 (Some 1%Z) 100%Z 32768%Z (Some [:: 1; 2; 3]%Z)
    false false
  = Ok (CallEngine
          (EngineArguments [:: 0; 0; 1; 1; 2; 2] 3 [:: 1; 0; 3; 2; 5; 4]
             [:: 1; 0; 0; 1; 1; 0] 100%Z 32768%Z [:: 1%Z] None None false)).
Proof.
by apply: (@lyapunov_engine_arguments Qi letter pop_first pop_first_char kernel_Z
             (@rank_K Qi) Qi real_part cover_orientation gap_C2 1%Z 100%Z 32768%Z
             (Some [:: 1; 2; 3]%Z) false).
Defined.

(* --------------------------------------------------------------------- *)
(* lyapunov_exponents_H_plus: the result made from the answer of the      *)
(* engine                                                                 *)
(* --------------------------------------------------------------------- *)

Lemma mapM_raise (A B : Type) (f : A -> res B) (e : exn) (s1 : seq A) (x : A)
    (s2 : seq A) :
  all (fun y => is_ok (f y)) s1 -> f x = Raise e ->
  mapM f (s1 ++ x :: s2) = Raise e.
Proof.
move=> + fx; elim: s1 => [|y s1 IHs] /=; first by rewrite fx.
by case: (f y) => //= z /IHs ->.
Qed.

Lemma mapM_comp (A B C : Type) (f : B -> res C) (g : A -> B) (s : seq A) :
  mapM f [seq g x | x <- s] = mapM (fun x => f (g x)) s.
Proof. by elim: s => [|x s IHs] //=; rewrite IHs. Qed.

Section ResultsSpec.
Variable K : exact_field.
Variable pop_char : seq (seq K) -> seq K.
Variable float : Type.
Variable mean_and_std_dev : seq float -> float * float.

Let mean_of := mean_at mean_and_std_dev.
Let means_of := means mean_and_std_dev.

Lemma mean_at_nat (engine_res : seq (seq float)) (a k : nat) :
  mean_of engine_res (Z.of_nat a + Z.of_nat k)
  = if a + k < size engine_res then Ok (mean_and_std_dev (nth [::] engine_res (a + k))).1
    else Raise IndexError.
Proof.
rewrite /mean_of /mean_at /getitemZ.
have -> : (0 <=? Z.of_nat a + Z.of_nat k)%Z by apply/Z.leb_le; lia.
have -> : Z.to_nat (Z.of_nat a + Z.of_nat k) = a + k.
  by rewrite -[a + k]/(Nat.add a k); lia.
by case: ltnP => [lt_k|le_k]; [rewrite (getitem_nth [::]) | rewrite getitem_over].
Qed.

Lemma xrange_nat (a n : nat) :
  xrange (Z.of_nat a) (Z.of_nat a + Z.of_nat n)
  = [seq (Z.of_nat a + Z.of_nat k)%Z | k <- iota 0 n].
Proof.
rewrite /xrange; congr (map _ (iota 0 _)).
by lia.
Qed.

(* the means of res[a], ..., res[a + n - 1], or IndexError *)
Lemma mapM_mean_at (engine_res : seq (seq float)) (a n : nat) :
  mapM (mean_of engine_res) (xrange (Z.of_nat a) (Z.of_nat a + Z.of_nat n))
  = if (n == 0) || (a + n <= size engine_res) then Ok (means_of engine_res a n)
    else Raise IndexError.
Proof.
rewrite xrange_nat /means_of /means.
case: ifP => [/orP ok|/negbT].
  have -> : iota a n = [seq a + k | k <- iota 0 n] by rewrite -{1}[a]addn0 iotaDl.
  rewrite -map_comp mapM_comp.
  apply: (mapM_total (Q := fun k => k < n)); last by apply/allP => k; rewrite mem_iota.
  move=> k lt_k /=; rewrite mean_at_nat.
  case: ok => [/eqP n0|le_n]; first by rewrite n0 in lt_k.
  by rewrite (leq_trans _ le_n) // ltn_add2l.
rewrite negb_or -ltnNge -lt0n => /andP [n_gt0 lt_n].
set k0 := size engine_res - a.
have lt_k0 : k0 < n.
  rewrite /k0; case: (leqP a (size engine_res)) => [le_a|/ltnW].
    by rewrite ltn_subLR.
  by rewrite -subn_eq0 => /eqP ->.
have le_k0 : size engine_res <= a + k0.
  by rewrite /k0; case: (leqP a (size engine_res)) => [/subnKC -> //|/ltnW le_a];
     rewrite (leq_trans le_a) // leq_addr.
have -> : iota 0 n = iota 0 k0 ++ k0 :: iota k0.+1 (n - k0.+1).
  have nE : n = k0 + (n - k0.+1).+1 by rewrite addnS -addSn subnKC.
  by rewrite {1}nE iotaD add0n.
rewrite map_cat /=; apply: mapM_raise.
  rewrite all_map; apply/allP => k; rewrite mem_iota add0n /= => lt_k.
  rewrite mean_at_nat; case: ifP => // /negbT; rewrite -leqNgt => le_k.
  move: lt_k; rewrite /k0 ltn_subRL => /leq_trans /(_ le_k).
  by rewrite ltnn.
by rewrite mean_at_nat ltnNge le_k0.
Qed.

Lemma mapM_bind_map (A B C : Type) (f : A -> res B) (g : B -> C) (s : seq A) :
  mapM (fun x => y <-- f x ;; Ok (g y)) s
  = (r <-- mapM f s ;; Ok [seq g y | y <- r]).
Proof.
elim: s => [|x s IHs] //=; case: (f x) => //= y.
by rewrite IHs; case: (mapM f s).
Qed.

(** X21.  Without the isotypic decomposition, and for a number of vectors
    that is not negative: from the answer res of the engine the method
    returns the means of res[1], ..., res[nb_vectors], with the mean of
    res[0] as the speed in front when return_speed is set; it raises
    IndexError when res has no more than nb_vectors entries. *)
Theorem collect_exponents_plain (gap : libgap_data K) (engine_res : seq (seq float))
    (nb_vectors : Z) (dimensions : seq Z) (return_speed return_char : bool) :
  (0 <= nb_vectors)%Z ->
  collect_exponents pop_char mean_and_std_dev gap engine_res nb_vectors dimensions
    return_speed false return_char
  = if Z.to_nat nb_vectors < size engine_res then
      Ok (if return_speed
          then Some (mean_and_std_dev (nth [::] engine_res 0)).1 else None,
          [seq Exponent K m | m <- means mean_and_std_dev engine_res 1 (Z.to_nat nb_vectors)])
    else Raise IndexError.
Proof.
move=> nv_ge0; rewrite /collect_exponents.
have := mean_at_nat engine_res 0 0; rewrite /mean_of /= => ->.
case: (posnP (size engine_res)) => [->|sz_gt0] //=.
have -> : xrange 1 (nb_vectors + 1)
          = xrange (Z.of_nat 1) (Z.of_nat 1 + Z.of_nat (Z.to_nat nb_vectors)).
  by rewrite Z2Nat.id //; congr (xrange 1 _); lia.
rewrite mapM_bind_map mapM_mean_at add1n.
case: (Z.to_nat nb_vectors) => [|n] /=; first by rewrite sz_gt0.
by case: ifP.
Qed.

Lemma characters_count (gap : libgap_data K) (R : seq (seq K)) (degs : seq nat)
    (order : nat) (perms : seq (seq nat)) (nreal : nat) :
  _characters pop_char gap = Ok (R, degs, order, perms, nreal) -> nreal = size R.
Proof.
rewrite /_characters; case: (mapM _ _) => [tuples|e|] //=.
case: (mapM _ _) => [degs'|e|] //=; case: (mapM _ _) => [perm|e|] //=.
by case: (extract_real _ _ _ _ _ _) => [[R' i']|e|] //= [<- _ _ _ <-].
Qed.

Section Blocks.
Variable gap : libgap_data K.
Variable engine_res : seq (seq float).
Variable ds : seq nat.
Variable R : seq (seq K).
Variable return_char : bool.

(* the index of res at which the exponents of the character c start *)
Let start (c : nat) : nat := 1 + sumn (take c ds).

(* the item of res_final for the character c *)
Let item (c : nat) : exponent_item K float :=
  let block := means_of engine_res (start c) (nth 0 ds c) in
  if return_char then ExponentBlockChar block (nth [::] R c) else ExponentBlock K block.

Lemma startS (c : nat) : c < size ds -> start c.+1 = start c + nth 0 ds c.
Proof.
by move=> lt_c; rewrite /start (take_nth 0 lt_c) -cats1 sumn_cat /= addn0 addnA.
Qed.

Lemma start_le (c : nat) : start c <= start (size ds).
Proof.
by rewrite /start leq_add2l take_size -{2}(cat_take_drop c ds) sumn_cat leq_addr.
Qed.

Lemma collect_fold (c0 m : nat) (acc : seq (exponent_item K float)) :
  character_table pop_char gap = Ok R -> size ds <= size R ->
  c0 + m <= size ds -> start (size ds) <= size engine_res ->
  foldM (collect_character pop_char mean_and_std_dev gap engine_res
           [seq Z.of_nat d | d <- ds] return_char)
        (Z.of_nat (start c0), acc) (iota c0 m)
  = Ok (Z.of_nat (start (c0 + m)), acc ++ [seq item c | c <- iota c0 m]).
Proof.
move=> tableE le_R + le_res; elim: m c0 acc => [|m IHm] c0 acc.
  by rewrite addn0 /= cats0.
rewrite addnS -addSn => le_c; have lt_c : c0 < size ds.
  by apply: leq_trans le_c; rewrite ltnS leq_addr.
have dimE : getitem [seq Z.of_nat d | d <- ds] c0 = Ok (Z.of_nat (nth 0 ds c0)).
  by rewrite (getitem_nth 0%Z) ?size_map // (nth_map 0).
with_strategy opaque [Z.of_nat Z.add] (rewrite /= dimE /=).
have := mapM_mean_at engine_res (start c0) (nth 0 ds c0); rewrite /mean_of => ->.
have -> : start c0 + nth 0 ds c0 <= size engine_res.
  by rewrite -startS // (leq_trans (start_le _) le_res).
with_strategy opaque [Z.of_nat Z.add] (rewrite orbT /= -/(means_of _ _ _)).
have -> : (if return_char then
                table <-- character_table pop_char gap ;;
                char <-- getitem table c0 ;;
                Ok (ExponentBlockChar (means_of engine_res (start c0) (nth 0 ds c0)) char)
              else Ok (ExponentBlock K (means_of engine_res (start c0) (nth 0 ds c0))))
             = Ok (item c0).
  rewrite /item; case: (return_char) => //; rewrite tableE /= (getitem_nth [::]) //.
  exact: leq_trans lt_c le_R.
with_strategy opaque [Z.of_nat Z.add] (rewrite /=).
have -> : Z.add (Z.of_nat (start c0)) (Z.of_nat (nth 0 ds c0)) = Z.of_nat (start c0.+1).
  by rewrite startS // -[start c0 + _]/(Nat.add _ _) Nat2Z.inj_add.
by rewrite IHm // -cats1 -catA.
Qed.

End Blocks.

(** X22.  With the isotypic decomposition, for dimensions that are not
    negative, one for each real character, and an answer res of the engine
    with more entries than their sum: the method returns one item per
    character; the item of the character c holds the means of
    dimensions[c] consecutive entries of res, starting after those of the
    characters before c (res[1] for the first one), and the character
    itself when return_char is set. *)
Theorem collect_exponents_isotypic (gap : libgap_data K)
    (engine_res : seq (seq float)) (nb_vectors : Z) (ds : seq nat)
    (R : seq (seq K)) (degs : seq nat) (order : nat) (perms : seq (seq nat))
    (nreal : nat) (return_speed return_char : bool) :
  _characters pop_char gap = Ok (R, degs, order, perms, nreal) ->
  size ds = nreal -> sumn ds < size engine_res ->
  collect_exponents pop_char mean_and_std_dev gap engine_res nb_vectors
    [seq Z.of_nat d | d <- ds] return_speed true return_char
  = Ok (if return_speed
        then Some (mean_and_std_dev (nth [::] engine_res 0)).1 else None,
        [seq (let block := means mean_and_std_dev engine_res
                             (1 + sumn (take c ds)) (nth 0 ds c) in
              if return_char then ExponentBlockChar block (nth [::] R c)
              else ExponentBlock K block)
           | c <- iota 0 nreal]).
Proof.
move=> cE sz_ds lt_res; have nE := characters_count cE.
rewrite /collect_exponents.
have := mean_at_nat engine_res 0 0; rewrite /mean_of /= => ->.
rewrite (leq_ltn_trans (leq0n _) lt_res) /= /n_characters cE /=.
have tableE : character_table pop_char gap = Ok R by rewrite /character_table cE.
have := @collect_fold gap engine_res ds R return_char 0 nreal [::] tableE.
rewrite /= take0 /= add0n sz_ds nE => -> //=.
by rewrite take_oversize ?sz_ds ?nE // add1n.
Qed.

End ResultsSpec.

Lemma collect_exponents_plain_witness :
  collect_exponents pop_first_char (fun s : seq Z => (sumZ s, 0%Z)) gap_C2
    [:: [:: 1%Z]; [:: 2%Z; 4%Z]; [:: 6%Z]] 2%Z [:: 2%Z] true false false
  = Ok (Some 1%Z, [:: Exponent Qi 6%Z; Exponent Qi 6%Z]).
Proof.
by apply: (@collect_exponents_plain Qi pop_first_char Z
             (fun s : seq Z => (sumZ s, 0%Z)) gap_C2
             [:: [:: 1%Z]; [:: 2%Z; 4%Z]; [:: 6%Z]] 2%Z [:: 2%Z] true false).
Defined.

Lemma collect_exponents_isotypic_witness :
  collect_exponents pop_first_char (fun s : seq Z => (sumZ s, 0%Z)) gap_C2
    [:: [:: 1%Z]; [:: 2%Z; 4%Z]; [:: 6%Z]] 2%Z [:: 0%Z; 2%Z] false true false
  = Ok (None, [:: ExponentBlock Qi [::]; ExponentBlock Qi [:: 6%Z; 6%Z]]).
Proof.
by apply: (@collect_exponents_isotypic Qi pop_first_char Z
             (fun s : seq Z => (sumZ s, 0%Z)) gap_C2
             [:: [:: 1%Z]; [:: 2%Z; 4%Z]; [:: 6%Z]] 2%Z [:: 0; 2]
             [:: [:: gone; gone]; [:: gone; gopp gone]] [:: 1; 1] 2
             [:: [:: 0; 1]; [:: 1; 0]] 2 false false).
Defined.

(* --------------------------------------------------------------------- *)
(* The trivial cover: every label has the identity                        *)
(* --------------------------------------------------------------------- *)

Lemma cycle_type_identity (d : nat) : cycle_type (identity d) = nseq d 1.
Proof.
rewrite /cycle_type /identity size_iota.
set s := [seq _ | _ <- _ & _].
have imageE i : i < d -> image (iota 0 d) i = i.
  by move=> lt_i; rewrite /image nth_iota.
have trajectE i n : i < d -> traject (image (iota 0 d)) i n = nseq n i.
  by move=> lt_i; elim: n => [|n IHn] //=; rewrite imageE // IHn.
have sE : s = nseq d 1.
  have -> : s = [seq cycle_length (iota 0 d) i | i <- iota 0 d].
    rewrite /s; congr (map _ _); apply/all_filterP/allP => i.
    rewrite mem_iota add0n /= => lt_i.
    rewrite /is_cycle_min size_iota trajectE //.
    by apply/allP => j; rewrite mem_nseq => /andP [_ /eqP ->] /=.
  have -> : [seq cycle_length (iota 0 d) i | i <- iota 0 d] = [seq 1 | i <- iota 0 d].
    apply/eq_in_map => i; rewrite mem_iota add0n /= => lt_i.
    rewrite /cycle_length size_iota imageE // trajectE //.
    by case: (d) lt_i => [|d'] //= _; rewrite eqxx.
  by rewrite -{2}(size_iota 0 d); elim: (iota 0 d) => //= _ l ->.
have /all_pred1P : all (pred1 1) (sort geq s).
  by rewrite all_sort sE; apply/all_pred1P; rewrite size_nseq.
by rewrite size_sort sE size_nseq.
Qed.

Section TrivialCover.
Variable label : eqType.
Variable self : PermutationCover label.

Let d := _degree_cover self.
Let G := diagram_glued (_base self).

Hypothesis trivial : trivial_monodromy self.

Lemma trivial_covering_data (a : label) :
  a \in alphabet (_base self) -> covering_data self a = Ok (identity d).
Proof. by move=> /(allP trivial); case: (covering_data self a) => // p /eqP ->. Qed.

Lemma trivial_wf : wf_monodromy self.
Proof.
apply/allP => a /trivial_covering_data ->.
by rewrite /is_permutation /identity perm_refl.
Qed.

Lemma trivial_cross_perm (x : label * bool) :
  x.1 \in alphabet (_base self) -> cross_perm self x = 1%g.
Proof.
move=> /trivial_covering_data E; rewrite /cross_perm E /= identityE lperm_list_of_perm.
by case: x.2; rewrite ?invg1.
Qed.

Lemma trivial_orbit_perm (flat : seq (label * bool)) :
  all (fun x => x.1 \in alphabet (_base self)) flat -> orbit_perm self flat = 1%g.
Proof.
elim: flat => [|x flat IHf] //= /andP [x_in /IHf ->].
by rewrite trivial_cross_perm // mulg1.
Qed.

Lemma trivial_orbit_entries (o : seq (glued label)) :
  all (fun x => x.1 \in alphabet (_base self)) (flatten_orbit o) ->
  orbit_entries self o = nseq d (size o).
Proof.
move=> /trivial_orbit_perm; rewrite /orbit_entries => ->.
rewrite -identityE cycle_type_identity.
by rewrite map_nseq muln1.
Qed.

(** X23.  For the trivial cover of degree d (every label has the identity
    permutation), over a glued base diagram without an empty orbit and on
    labels of the alphabet: profile() is the profile of the base with
    every entry repeated d times, and, when sum - 2 len is a multiple of
    4 on the base, genus() is d * (g - 1) + 1 where g - 1 = (sum - 2 len) / 4
    is taken on the base: it is negative for d > 1 copies of a sphere. *)
Theorem trivial_cover_genus :
  wf_glued self -> glued_nonempty self -> (4 | base_defect self)%Z ->
  profile self
  = Ok (sort geq (flatten [seq nseq (_degree_cover self) (size o)
                             | o <- diagram_glued (_base self)]))
  /\ genus self = Ok (Z.of_nat (_degree_cover self) * base_defect self / 4 + 1)%Z.
Proof.
move=> wfg nonempty _.
have entriesE : [seq orbit_entries self o | o <- G] = [seq nseq d (size o) | o <- G].
  by apply/eq_in_map => o /(allP wfg); apply: trivial_orbit_entries.
have profileE : profile self = Ok (sort geq (flatten [seq nseq d (size o) | o <- G])).
  rewrite (profile_spec trivial_wf wfg) entriesE /Partition; congr Ok.
  apply/all_filterP; rewrite all_sort; apply/allP => x /flattenP [s /mapP [o o_in ->]].
  rewrite mem_nseq => /andP [_ /eqP ->].
  by rewrite size_eq0 (allP nonempty).
split=> //; rewrite /genus profileE.
with_strategy opaque [Z.mul Z.of_nat Z.sub Z.div Z.add] (rewrite /=).
congr (Ok (_ / 4 + 1)%Z).
rewrite size_sort.
have /perm_sumn -> : perm_eq (sort geq (flatten [seq nseq d (size o) | o <- G]))
                             (flatten [seq nseq d (size o) | o <- G]).
  by rewrite perm_sort.
have -> : sumn (flatten [seq nseq d (size o) | o <- G])
          = Nat.mul d (sumn [seq size o | o <- G]).
  rewrite -[Nat.mul]/muln; elim: (G) => [|o G' IHG] /=; first by rewrite muln0.
  by rewrite sumn_cat IHG sumn_nseq mulnDr mulnC.
have -> : size (flatten [seq nseq d (size o) | o <- G]) = Nat.mul d (size G).
  rewrite -[Nat.mul]/muln; elim: (G) => [|o G' IHG] /=; first by rewrite muln0.
  by rewrite size_cat IHG size_nseq mulnS.
by rewrite /base_defect !Nat2Z.inj_mul -/G -/d; ring.
Qed.

End TrivialCover.

Lemma trivial_cover_genus_witness :
  profile cover_trivial = Ok (sort geq (flatten [seq nseq 2 (size o)
                                                   | o <- diagram_glued base_aab_bcc]))
  /\ genus cover_trivial = Ok (Z.of_nat 2 * base_defect cover_trivial / 4 + 1)%Z.
Proof.
apply: (@trivial_cover_genus _ cover_trivial isT isT isT).
by exists (-1)%Z.
Defined.

(* --------------------------------------------------------------------- *)
(* interval_diagram: every side of every copy, once                       *)
(* --------------------------------------------------------------------- *)

Section EntriesOnce.
Variable label : eqType.
Variable pop : seq nat -> nat.
Hypothesis pop_mem : forall s, s != [::] -> pop s \in s.
Variable self : PermutationCover label.
Hypothesis wf : wf_monodromy self.
Hypothesis wfd : wf_diagram self.

Let d := _degree_cover self.

(** X24.  For a cover whose labels all have a bijection of the copies, over
    a base diagram that lists every side (label, j) at most once: the
    singularities of interval_diagram(sign=True) hold, all together, every
    entry (label, j, d) with (label, j) in the base diagram and d a copy,
    each one exactly once. *)
Theorem interval_diagram_entries_once (glue_ends : bool) :
  uniq (flatten (diagram (_base self))) ->
  exists sings : seq (seq (entry label)),
    [/\ interval_diagram pop self glue_ends true = Ok sings,
        uniq (flatten sings) &
        perm_eq (flatten sings)
                [seq Signed x.1 x.2 c | x <- flatten (diagram (_base self)),
                                        c <- iota 0 (_degree_cover self)]].
Proof.
move=> Udiag.
have [sings [singsE _ sz]] := interval_diagram_sizes pop_mem wf glue_ends true wfd.
exists sings.
set all_entries := [seq _ | x <- _, c <- _].
have Uall : uniq all_entries.
  apply: allpairs_uniq => //; first exact: iota_uniq.
  by move=> [[a j] c] [[a' j'] c'] _ _ [-> -> ->].
have sub : {subset all_entries <= flatten sings}.
  move=> e /allpairsP [[x c] /= [x_in c_in ->]].
  move: c_in; rewrite mem_iota add0n /= => lt_c.
  have /hasP [sg sg_in e_in] := interval_diagram_covers pop_mem wf wfd singsE x_in lt_c.
  by apply/flattenP; exists sg.
have le_sz : size (flatten sings) <= size all_entries.
  rewrite size_flatten /shape sz size_allpairs size_iota size_flatten /shape.
  by rewrite mulnC.
have U := leq_size_uniq Uall sub le_sz.
split=> //; apply: uniq_perm => // e.
by rewrite (uniq_min_size Uall sub le_sz).2.
Qed.

End EntriesOnce.

Lemma interval_diagram_entries_once_witness :
  exists sings : seq (seq (entry letter)),
    [/\ interval_diagram pop_first cover_S3 false true = Ok sings,
        uniq (flatten sings) &
        perm_eq (flatten sings)
                [seq Signed x.1 x.2 c | x <- flatten (diagram base_abc_cba),
                                        c <- iota 0 3]].
Proof.
exact: (@interval_diagram_entries_once _ _ pop_first_mem cover_S3 isT isT false isT).
Defined.

(* --------------------------------------------------------------------- *)
(* lyapunov_exponents_H_plus with the isotypic decomposition: the         *)
(* dimensions and the projections that the engine is called with          *)
(* --------------------------------------------------------------------- *)

Lemma foldM_cat (A S : Type) (f : S -> A -> res S) (s : S) (l1 l2 : seq A) :
  foldM f s (l1 ++ l2) = (s' <-- foldM f s l1 ;; foldM f s' l2).
Proof. by elim: l1 s => [|x l1 IHl] s //=; case: (f s x). Qed.

Lemma foldM_cons (A S : Type) (f : S -> A -> res S) (s : S) (x : A) (l : seq A) :
  foldM f s (x :: l) = (s' <-- f s x ;; foldM f s' l).
Proof. by []. Qed.

Lemma foldM_allpairs (A B S : Type) (h : A -> B -> S -> res S) (s : S)
    (xs : seq A) (ys : seq B) :
  foldM (fun s0 x => foldM (fun s1 y => h x y s1) s0 ys) s xs
  = foldM (fun s0 xy => h xy.1 xy.2 s0) s [seq (x, y) | x <- xs, y <- ys].
Proof.
have rowE x t : foldM (fun s0 xy => h xy.1 xy.2 s0) t [seq (x, y) | y <- ys]
               = foldM (fun s1 y => h x y s1) t ys.
  by elim: (ys) t => [|y ys' IHy] t //=; case: (h x y t).
elim: xs s => [|x xs IHx] t //=; rewrite foldM_cat rowE.
by case: (foldM _ t ys).
Qed.

(* a loop of assignments s[p(j)] = g(j) at distinct positions *)
Lemma foldM_setitem (A : Type) (T : eqType) (x0 : A) (p : T -> nat)
    (g : T -> res A) (js : seq T) (s s' : seq A) :
  uniq [seq p j | j <- js] ->
  foldM (fun s0 j => y <-- g j ;; setitem s0 (p j) y) s js = Ok s' ->
  [/\ size s' = size s,
      forall j, j \in js -> g j = Ok (nth x0 s' (p j)) &
      forall k, k \notin [seq p j | j <- js] -> nth x0 s' k = nth x0 s k].
Proof.
elim: js s => [|j js IHj] s /=; first by move=> _ [<-].
case/andP=> pj_notin Ujs; case gE: (g j) => [y|e|] //=.
case sE: (setitem s (p j) y) => [s1|e|] //= /(IHj _ Ujs) [sz inP outP].
split.
- by rewrite sz (size_setitem sE).
- move=> j'; rewrite inE => /orP [/eqP ->|/inP //].
  by rewrite gE outP // (setitem_nth x0 _ sE) eqxx.
- move=> k; rewrite inE negb_or => /andP [ne_k k_notin].
  by rewrite outP // (setitem_nth x0 _ sE) (negbTE ne_k).
Qed.

Lemma block_bound (n m d r : nat) : d < m -> r < n -> d * n + r < m * n.
Proof.
move=> lt_d lt_r; apply: (@leq_trans (d.+1 * n)); first by rewrite mulSn addnC ltn_add2r.
by rewrite leq_mul2r lt_d orbT.
Qed.

Section IsotypicArguments.
Variable K : exact_field.
Variable label : eqType.
Variable pop : seq nat -> nat.
Variable pop_char : seq (seq K) -> seq K.
Variable left_kernel : seq (seq Z) -> seq (seq Z).
Variable mx_rank : seq (seq K) -> nat.
Variable float : Type.
Variable real_float : K -> float.
Variable self : PermutationCover label.
Variable gap : libgap_data K.

Let N := size (rel_homology_generator self).

(* what the turn of the character c leaves in dimensions and projections *)
Let filled (c : nat) (dimensions : seq Z) (projections : seq (nat + float)) : Prop :=
  exists (M : seq (seq K)) (H B : seq (seq Z)),
    [/\ isotypic_projection_matrix pop_char self gap c = Ok M,
        homology_cycle_matrix pop left_kernel self = Ok H,
        homology_boundary_matrix self = Ok B,
        nth 0%Z dimensions c
        = ((Z.of_nat (mx_rank (mx_mul (mx_of_int K H) M))
            - Z.of_nat (mx_rank (mx_mul (mx_of_int K B) M))) / 2)%Z &
        forall i j, i < N -> j < N ->
          nth (inl 0) projections (c * N ^ 2 + i * N + j)
          = inr (real_float (cell M j i))].

Let step := @isotypic_step K label pop pop_char left_kernel mx_rank float real_float
              self gap N.

Lemma isotypic_step_spec (c : nat) (dimensions dimensions' : seq Z)
    (projections projections' : seq (nat + float)) :
  step (dimensions, projections) c = Ok (dimensions', projections') ->
  [/\ size dimensions' = size dimensions, size projections' = size projections,
      filled c dimensions' projections',
      forall c', c' != c -> nth 0%Z dimensions' c' = nth 0%Z dimensions c' &
      forall k, ~~ (c * N ^ 2 <= k < c.+1 * N ^ 2) ->
        nth (inl 0) projections' k = nth (inl 0) projections k].
Proof.
rewrite /step /isotypic_step.
case ME: (isotypic_projection_matrix _ _ _ _) => [M|e|] //=.
case HE: (homology_cycle_matrix _ _ _) => [H|e|] //=.
case BE: (homology_boundary_matrix _) => [B|e|] //=.
case: ifP => // _.
case dE: (setitem dimensions c _) => [dims1|e|] //=.
rewrite (foldM_allpairs
           (fun i j pr' => Mj <-- getitem M j ;; Mji <-- getitem Mj i ;;
                           setitem pr' (c * N ^ 2 + i * N + j) (inr (real_float Mji)))).
set pairs := [seq (i, j) | i <- iota 0 N, j <- iota 0 N].
set p := fun ij : nat * nat => c * N ^ 2 + ij.1 * N + ij.2.
set g := fun ij : nat * nat =>
  Mj <-- getitem M ij.2 ;; Mji <-- getitem Mj ij.1 ;; Ok (inr (real_float Mji) : nat + float).
have -> : foldM (fun s0 (ij : nat * nat) =>
                   Mj <-- getitem M ij.2 ;; Mji <-- getitem Mj ij.1 ;;
                   setitem s0 (c * N ^ 2 + ij.1 * N + ij.2) (inr (real_float Mji)))
                projections pairs
          = foldM (fun s0 ij => y <-- g ij ;; setitem s0 (p ij) y) projections pairs.
  apply: (@eq_in_foldM _ _ predT); last exact: all_predT.
  move=> s0 ij _.
  by rewrite /g; case: (getitem M ij.2) => //= Mj; case: (getitem Mj ij.1).
have pairsP ij : ij \in pairs -> (ij.1 < N) && (ij.2 < N).
  case/allpairsP=> -[i j] /= [i_in j_in ->] /=.
  by move: i_in j_in; rewrite !mem_iota /= !add0n => -> ->.
have Up : uniq [seq p ij | ij <- pairs].
  have inj : {in pairs &, injective p}.
    move=> [i j] [i' j'] /pairsP /andP [/= lt_i lt_j] /pairsP /andP [/= lt_i' lt_j'].
    rewrite /p /= -!addnA => /addnI /eqP.
    by rewrite eq_block // => /andP [/eqP -> /eqP ->].
  rewrite (map_inj_in_uniq inj).
  by apply: allpairs_uniq; rewrite ?iota_uniq // => -[i j] [i' j'] _ _.
case pE: (foldM _ _ _) => [pr1|e|] //= [<- <-].
have [sz inP outP] := foldM_setitem (inl 0) Up pE.
split=> //.
- exact: size_setitem dE.
- exists M, H, B; split=> //; first by rewrite (setitem_nth 0%Z _ dE) eqxx.
  move=> i j lt_i lt_j.
  have ij_in : (i, j) \in pairs.
    by apply/allpairsP; exists (i, j); rewrite /= !mem_iota /= !add0n.
  have := inP _ ij_in; rewrite /g /p /=.
  case Ej: (getitem M j) => [Mj|e|] //=; case Ei: (getitem Mj i) => [Mji|e|] //= [<-].
  have [_ ->] := getitem_Ok (zero K) Ei; have [_ ->] := getitem_Ok [::] Ej.
  by [].
- by move=> c' ne_c; rewrite (setitem_nth 0%Z _ dE) (negbTE ne_c).
move=> k out_k; apply: outP; apply/mapP => -[[i j] /pairsP /andP [/= lt_i lt_j]].
rewrite /p /= => kE; move: out_k; rewrite kE -addnA leq_addr /= mulSn.
by rewrite [N ^ 2 + _]addnC ltn_add2l expnS expn1 block_bound.
Qed.

Lemma isotypic_fold_spec (c0 m : nat) (dimensions dimensions' : seq Z)
    (projections projections' : seq (nat + float)) :
  foldM step (dimensions, projections) (iota c0 m) = Ok (dimensions', projections') ->
  [/\ size dimensions' = size dimensions, size projections' = size projections &
      forall c, c0 <= c < c0 + m -> filled c dimensions' projections'].
Proof.
elim: m c0 dimensions projections => [|m IHm] c0 dims pr.
  by case=> <- <-; split=> // c; rewrite addn0; case: ltngtP.
rewrite -[iota c0 m.+1]/(c0 :: iota c0.+1 m) foldM_cons.
case sE: (step (dims, pr) c0) => [[dims1 pr1]|e|] //; rewrite [bind _ _]/= => fE.
have [szd szp fill dimsP prP] := isotypic_step_spec sE.
suff later : forall c1 n1 ds1 ps1 ds2 ps2,
    c0 < c1 -> filled c0 ds1 ps1 ->
    foldM step (ds1, ps1) (iota c1 n1) = Ok (ds2, ps2) -> filled c0 ds2 ps2.
  have [szd' szp' fillP] := IHm _ _ _ fE.
  split; rewrite ?szd' ?szp' // => c; rewrite addnS -addSn leq_eqVlt.
  case/andP=> /orP [/eqP <- _|lt_c lt_m]; last by apply: fillP; rewrite lt_c.
  exact: later (ltnSn c0) fill fE.
move=> c1 n1; elim: n1 c1 => [|n1 IHn] c1 ds1 ps1 ds2 ps2 lt_c1 fill1.
  by case=> <- <-.
rewrite -[iota c1 n1.+1]/(c1 :: iota c1.+1 n1) foldM_cons.
case sE1: (step (ds1, ps1) c1) => [[ds3 ps3]|e|] //; rewrite [bind _ _]/=.
apply: IHn => //; first exact: ltnW.
have [_ _ _ dimsP1 prP1] := isotypic_step_spec sE1.
have [M [H [B [ME HE BE dimE prE]]]] := fill1.
exists M, H, B; split=> //; first by rewrite dimsP1 // neq_ltn lt_c1.
move=> i j lt_i lt_j; rewrite prP1 ?prE //.
rewrite negb_and -ltnNge; apply/orP; left.
rewrite -addnA (@leq_trans (c0.+1 * N ^ 2)) ?leq_mul2r ?lt_c1 ?orbT //.
by rewrite mulSn addnC ltn_add2r expnS expn1 block_bound.
Qed.

Let lyapunov :=
  @lyapunov_exponents_H_plus K label pop pop_char left_kernel mx_rank float real_float.

(** X25.  With the isotypic decomposition, whenever the engine is called:
    dimensions has one entry per real character, the entry of the
    character c being (rank(H * M_c) - rank(B * M_c)) / 2 for the matrices
    H of homology_cycle_matrix(), B of homology_boundary_matrix() and M_c
    of isotypic_projection_matrix(c); projections has
    size_of_matrix^2 entries per character, the entry at
    c * size_of_matrix^2 + i * size_of_matrix + j being the real part of
    M_c[j][i], as a float. *)
Theorem lyapunov_isotypic_arguments (nb_vectors : option Z)
    (nb_experiments nb_iterations : Z) (lengths : option (seq Z)) (verbose : bool)
    (args : engine_arguments float) :
  lyapunov self gap nb_vectors nb_experiments nb_iterations lengths true verbose
  = Ok (CallEngine args) ->
  let size_of_matrix := size (rel_homology_generator self) in
  exists (nc : nat) (projections : seq (nat + float)),
    [/\ n_characters pop_char gap = Ok nc,
        arg_projections args = Some projections,
        size projections = size_of_matrix ^ 2 * nc,
        size (arg_dimensions args) = nc &
        forall c, c < nc ->
          exists (M : seq (seq K)) (H B : seq (seq Z)),
            [/\ isotypic_projection_matrix pop_char self gap c = Ok M,
                homology_cycle_matrix pop left_kernel self = Ok H,
                homology_boundary_matrix self = Ok B,
                nth 0%Z (arg_dimensions args) c
                = ((Z.of_nat (mx_rank (mx_mul (mx_of_int K H) M))
                    - Z.of_nat (mx_rank (mx_mul (mx_of_int K B) M))) / 2)%Z &
                forall i j, i < size_of_matrix -> j < size_of_matrix ->
                  nth (inl 0) projections
                      (c * size_of_matrix ^ 2 + i * size_of_matrix + j)
                  = inr (real_float (cell M j i))]].
Proof.
rewrite /lyapunov /lyapunov_exponents_H_plus.
case: (if nb_vectors is Some v then _ else _) => [nv|e|] //=.
case: (if verbose then _ else _) => [[]|e|] //=.
do 6![case: ifP => // _].
case: (getitem _ 0) => [row0|e|] //=.
case: (encode_row _ _ _ _ _ _ _) => [[gp0 twin0]|e|] //=.
case: (getitem _ 1) => [row1|e|] //=.
case: (encode_row _ _ _ _ _ _ _) => [[gp1 twin1]|e|] //=.
case nE: (n_characters _ _) => [nc|e|] //=.
case fE: (foldM _ _ _) => [[dims pr]|e|] //= [<-] /=.
have [szd szp fillP] := isotypic_fold_spec fE.
exists nc, pr; split=> //.
- by rewrite szp size_map size_iota.
by rewrite szd size_map size_iota.
Qed.

End IsotypicArguments.

Lemma lyapunov_isotypic_arguments_witness :
  let args :=
    if lyapunov_Qi cover_S3 gap_trivial (Some 1%Z) 100%Z 100%Z None true false
      is Ok (CallEngine a) then a
    else EngineArguments [::] 0 [::] [::] 0%Z 0%Z [::] None None false in
  exists (nc : nat) (projections : seq (nat + Qi)),
    [/\ n_characters pop_first_char gap_trivial = Ok nc,
        arg_projections args = Some projections,
        size projections = 9 ^ 2 * nc,
        size (arg_dimensions args) = nc &
        forall c, c < nc ->
          exists (M : seq (seq Qi)) (H B : seq (seq Z)),
            [/\ isotypic_projection_matrix pop_first_char cover_S3 gap_trivial c = Ok M,
                homology_cycle_matrix pop_first kernel_Z cover_S3 = Ok H,
                homology_boundary_matrix cover_S3 = Ok B,
                nth 0%Z (arg_dimensions args) c
                = ((Z.of_nat (rank_K (mx_mul (mx_of_int Qi H) M))
                    - Z.of_nat (rank_K (mx_mul (mx_of_int Qi B) M))) / 2)%Z &
                forall i j, i < 9 -> j < 9 ->
                  nth (inl 0) projections (c * 9 ^ 2 + i * 9 + j)
                  = inr (real_part (cell M j i))]].
Proof.
move=> args.
have argsE : lyapunov_Qi cover_S3 gap_trivial (Some 1%Z) 100%Z 100%Z None true false
             = Ok (CallEngine args) by vm_compute.
exact: (@lyapunov_isotypic_arguments Qi letter pop_first pop_first_char kernel_Z
          (@rank_K Qi) Qi real_part cover_S3 gap_trivial (Some 1%Z) 100%Z 100%Z None
          false args argsE).
Defined.
